(** * Prefix-trie index and anomaly detectors of the data-cleaning scripts

    A shallow embedding of [trie.go], [calc_distribution.go],
    [prefix_extractor.go], [standalone_to_ratio_stats.go] and
    [for_identify_passwords.go], followed by the properties of the
    specification stated over it.  The removal stages of the cleaning
    scripts ([data_cleaning_for.go], [data_counting_script.go],
    [data_cleaning_emails.go]) are embedded after them.

    Conventions.
    - A Go [int] is a 64-bit two's complement integer: it is a [Z], and every
      addition, subtraction and multiplication of the source is followed by
      [wrap64].
    - A Go [rune] is a [Z]; a Go [string] that the program ranges over is the
      list of runes that [for _, char := range s] yields, which is how every
      trie operation traverses its argument.  File names and paths are
      [string]s.
    - A Go [float64] is a primitive binary64 [float].
    - A Go [map] is a [gmap].  Go leaves the iteration order of a map
      unspecified; each loop over a map is a [map_fold], and the properties
      are stated so that they do not depend on that order.
    - Package-level variables ([globalCharDistributions], [GlobalCharStats])
      and the log are passed explicitly.
    - A slice of strings is a [list string]; a function that can panic on
      an index out of range returns an [option], [None] for the panic. *)

From Stdlib Require Import ZArith List Floats Permutation Lia String Ascii.
From stdpp Require Import gmap list.

Set Warnings "-register-all,-inexact-float".
Local Open Scope Z_scope.

Abbreviation rune := Z (only parsing).
Abbreviation word := (list Z) (only parsing).

(** * Part I: the program *)

(** ** Go's [int] and [float64] *)

Module GoInt.

Definition min_int : Z := - 2 ^ 63.
Definition max_int : Z := 2 ^ 63 - 1.

(** Two's complement wrap-around of a 64-bit signed integer. *)
Definition wrap64 (z : Z) : Z := (z + 2 ^ 63) mod 2 ^ 64 - 2 ^ 63.

Definition in_range (z : Z) : Prop := min_int <= z <= max_int.

(** [len(s)] *)
Definition len {A} (l : list A) : Z := Z.of_nat (length l).

(** The conversion [float64(i)] of an [int], rounding to nearest even. *)
Definition float64 (i : Z) : float :=
  if i =? min_int then (- (PrimFloat.of_uint63 (Uint63.of_Z (2 ^ 62)) * 2))%float
  else if i <? 0 then (- PrimFloat.of_uint63 (Uint63.of_Z (- i)))%float
  else PrimFloat.of_uint63 (Uint63.of_Z i).

End GoInt.

Import GoInt.

(** ** trie.go *)

(** [type TrieNode struct { children map[rune]*TrieNode; endOfWordCount int }].
    A parent owns its children and no node is shared, so the pointer
    structure is a tree. *)
Inductive TrieNode : Type :=
  mkNode { children : gmap Z TrieNode; endOfWordCount : Z }.

(** [type Trie struct { root *TrieNode }] *)
Record Trie : Type := mkTrie { root : TrieNode }.

(** [&TrieNode{children: make(map[rune]*TrieNode)}] *)
Definition newNode : TrieNode := mkNode ∅ 0.

Definition NewTrie : Trie := mkTrie newNode.

(** The loop of [Insert], from the node reached so far: a missing child is
    created, the walk goes on in the child, and the last node has its
    [endOfWordCount] incremented. *)
Fixpoint insertFrom (w : word) (node : TrieNode) : TrieNode :=
  match w with
  | [] => mkNode (children node) (wrap64 (endOfWordCount node + 1))
  | char :: rest =>
      let child := match children node !! char with
                   | Some c => c
                   | None => newNode
                   end in
      mkNode (<[char := insertFrom rest child]> (children node))
             (endOfWordCount node)
  end.

Definition Insert (w : word) (t : Trie) : Trie := mkTrie (insertFrom w (root t)).

(** The loop shared by the two queries and by [collectFollowingChars]:
    follow [prefix] from [node]; [None] is the early return taken when a
    child does not exist. *)
Fixpoint findNode (prefix : word) (node : TrieNode) : option TrieNode :=
  match prefix with
  | [] => Some node
  | char :: rest =>
      match children node !! char with
      | None => None
      | Some child => findNode rest child
      end
  end.

(** [count := node.endOfWordCount], then
    [count += countWordsInSubTrie(child)] for every child. *)
Fixpoint countWordsInSubTrie (node : TrieNode) : Z :=
  match node with
  | mkNode ch c =>
      map_fold (fun _ child count => wrap64 (count + countWordsInSubTrie child)) c ch
  end.

Definition CountWordsWithPrefix (t : Trie) (prefix : word) : Z :=
  match findNode prefix (root t) with
  | None => 0
  | Some node => countWordsInSubTrie node
  end.

Definition CountStandaloneOccurrences (t : Trie) (prefix : word) : Z :=
  match findNode prefix (root t) with
  | None => 0
  | Some node => endOfWordCount node
  end.

(** A trie built from the empty trie by a sequence of [Insert] calls, first
    word first. *)
Definition insertAll (ws : list word) (t : Trie) : Trie :=
  fold_left (fun t w => Insert w t) ws t.

Definition buildTrie (ws : list word) : Trie := insertAll ws NewTrie.

(** ** calc_distribution.go *)

(** *** Reading one line *)

Definition colon : rune := 58.

(** [strings.Split(s, sep)] for a one-character separator: the segments
    between the occurrences of [sep]; one segment when there is none. *)
Fixpoint Split (s : word) (sep : rune) : list word :=
  match s with
  | [] => [[]]
  | c :: rest =>
      if bool_decide (c = sep) then [] :: Split rest sep
      else match Split rest sep with
           | seg :: segs => (c :: seg) :: segs
           | [] => [[c]]
           end
  end.

(** [unicode.IsSpace] *)
Definition IsSpace (r : rune) : bool :=
  bool_decide (r = 9) || bool_decide (r = 10) || bool_decide (r = 11)
  || bool_decide (r = 12) || bool_decide (r = 13) || bool_decide (r = 32)
  || bool_decide (r = 133) || bool_decide (r = 160) || bool_decide (r = 5760)
  || (bool_decide (8192 <= r) && bool_decide (r <= 8202))
  || bool_decide (r = 8232) || bool_decide (r = 8233) || bool_decide (r = 8239)
  || bool_decide (r = 8287) || bool_decide (r = 12288).

Fixpoint TrimLeftSpace (s : word) : word :=
  match s with
  | [] => []
  | c :: rest => if IsSpace c then TrimLeftSpace rest else s
  end.

(** [strings.TrimSpace]: leading and trailing white space removed. *)
Definition TrimSpace (s : word) : word :=
  rev (TrimLeftSpace (rev (TrimLeftSpace s))).

(** The body of the scanning loop of [LoadCredentialsFromFile]. *)
Definition loadLine (passTrie : Trie) (line : word) : Trie :=
  let splitLine := Split line colon in
  if len splitLine <? 2 then passTrie
  else
    let password := TrimSpace (nth 1 splitLine []) in
    if bool_decide (password = []) then passTrie
    else Insert password passTrie.

(** What [os.Open] and the scanner give for a path: the open fails, or the
    scanner yields [lines] and then stops, at the end of the file or
    ([scanErr]) on a read error. *)
Inductive FileContent : Type :=
  | OpenFails
  | Opened (lines : list word) (scanErr : bool).

Inductive Diagnostic : Type :=
  | ErrorOpeningFile (path : string)
  | ErrorReadingFile (path : string)
  | ErrorAccessingFile (path : string).

(** [LoadCredentialsFromFile]: the trie after the call and what was logged. *)
Definition LoadCredentialsFromFile (filePath : string) (file : FileContent)
    (passTrie : Trie) : Trie * list Diagnostic :=
  match file with
  | OpenFails => (passTrie, [ErrorOpeningFile filePath])
  | Opened lines scanErr =>
      (fold_left loadLine lines passTrie,
       if scanErr then [ErrorReadingFile filePath] else [])
  end.

(** *** Following characters and percentages *)

Definition collectFollowingChars (passTrie : Trie) (prefix : word) : gmap Z Z :=
  match findNode prefix (root passTrie) with
  | None => ∅
  | Some node =>
      map_fold (fun childChar childNode followingCharCount =>
                  <[childChar := countWordsInSubTrie childNode]> followingCharCount)
               ∅ (children node)
  end.

(** [totalFollowingCount := 0], then [totalFollowingCount += count] for
    every entry. *)
Definition totalFollowing (followingCharCount : gmap Z Z) : Z :=
  map_fold (fun _ count total => wrap64 (total + count)) 0 followingCharCount.

(** [(float64(count) / float64(total)) * 100] *)
Definition percentageOf (count total : Z) : float :=
  (float64 count / float64 total * 100)%float.

(** [aggregateCharacterDistributions], on the map [globalCharDistributions]
    passed as [g]: [append] on a missing key starts from the empty slice. *)
Definition aggregateCharacterDistributions (distributions : gmap Z Z) (total : Z)
    (g : gmap Z (list float)) : gmap Z (list float) :=
  map_fold (fun char count g =>
              <[char := default [] (g !! char) ++ [percentageOf count total]]> g)
           g distributions.

(** *** Average and percentiles *)

(** The order of [sort.Float64s]: [x < y], and a NaN before anything else. *)
Definition float64Less (x y : float) : bool :=
  (x <? y)%float || (PrimFloat.is_nan x && negb (PrimFloat.is_nan y)).

Fixpoint insertFloat64 (x : float) (sorted : list float) : list float :=
  match sorted with
  | [] => [x]
  | y :: rest => if float64Less x y then x :: sorted else y :: insertFloat64 x rest
  end.

(** [sort.Float64s]: the slice in ascending order of [float64Less]. *)
Definition SortFloat64s (data : list float) : list float :=
  fold_right insertFloat64 [] data.

Definition calculateAverage (data : list float) : float :=
  (fold_left PrimFloat.add data 0 / float64 (len data))%float.

(** [index := (percentile * len(data)) / 100], clamped to [len(data) - 1];
    [data[index]] panics ([None]) when the index is out of range.  Go's [/]
    truncates towards zero. *)
Definition calculatePercentile (data : list float) (percentile : Z) : option float :=
  let index := Z.quot (wrap64 (percentile * len data)) 100 in
  let index := if index >=? len data then wrap64 (len data - 1) else index in
  if index <? 0 then None else data !! Z.to_nat index.

(** The inner map of [calculateAverageAndRange], with its three keys
    ["average"], ["lower_quartile"] and ["upper_quartile"]. *)
Record CharRange : Type := mkCharRange {
  average : float;
  lower_quartile : float;
  upper_quartile : float
}.

(** The body of the loop of [calculateAverageAndRange] for one character. *)
Definition characterRange (percentages : list float) : option CharRange :=
  let sorted := SortFloat64s percentages in
  let average := calculateAverage sorted in
  lowerQuartile ← calculatePercentile sorted 5;
  upperQuartile ← calculatePercentile sorted 95;
  Some (mkCharRange average lowerQuartile upperQuartile).

Definition calculateAverageAndRange (g : gmap Z (list float))
    : option (gmap Z CharRange) :=
  map_fold (fun char percentages result =>
              r ← result; s ← characterRange percentages; Some (<[char := s]> r))
           (Some ∅) g.

(** *** Qualifying prefixes *)

Fixpoint collectHighStandaloneRecursive (node : TrieNode) (currentPrefix : word)
    (occurrenceThreshold : Z) (results : list word) : list word :=
  match node with
  | mkNode ch c =>
      let results :=
        if occurrenceThreshold <? c then results ++ [currentPrefix] else results in
      map_fold (fun char child results =>
                  collectHighStandaloneRecursive child (currentPrefix ++ [char])
                    occurrenceThreshold results)
               results ch
  end.

Definition collectHighStandalone (passTrie : Trie) (occurrenceThreshold : Z)
    : list word :=
  collectHighStandaloneRecursive (root passTrie) [] occurrenceThreshold [].

(** The loop over the qualifying prefixes in [ScanForCharacterDistributions]. *)
Definition aggregatePrefix (passTrie : Trie) (g : gmap Z (list float))
    (prefix : word) : gmap Z (list float) :=
  let followingCharCount := collectFollowingChars passTrie prefix in
  let totalFollowingCount := totalFollowing followingCharCount in
  if 0 <? totalFollowingCount
  then aggregateCharacterDistributions followingCharCount totalFollowingCount g
  else g.

(** *** The directory walk *)

(** One call that [filepath.Walk] makes to its callback: the [path], the
    [info.Name()] of the entry, whether the walk passes an error for it
    ([accessErr]: the entry could not be accessed), and what opening and
    scanning it gives. *)
Record WalkEntry : Type := mkEntry {
  path : string;
  Name : string;
  accessErr : bool;
  content : FileContent
}.

(** What the program prints and logs, in order. *)
Inductive Event : Type :=
  | Processing (name : string)
  | Logged (d : Diagnostic).

(** [filepath.Walk]: the callback is called on the entries in order; the
    first error it returns ends the walk and is the result of [Walk]. *)
Fixpoint Walk {S : Type} (walkFn : WalkEntry -> S -> S * option Diagnostic)
    (entries : list WalkEntry) (s : S) : S * option Diagnostic :=
  match entries with
  | [] => (s, None)
  | e :: rest =>
      match walkFn e s with
      | (s', Some err) => (s', Some err)
      | (s', None) => Walk walkFn rest s'
      end
  end.

Definition passwordsSuffix : string := "_passwords.txt".

(** [strings.HasSuffix] *)
Definition HasSuffix (s suffix : string) : bool :=
  let n := String.length suffix in
  (n <=? String.length s)%nat
  && String.eqb (substring (String.length s - n) n s) suffix.

(** [strings.TrimSuffix] *)
Definition TrimSuffix (s suffix : string) : string :=
  if HasSuffix s suffix
  then substring 0 (String.length s - String.length suffix) s
  else s.

(** The state of [ScanForCharacterDistributions] during the walk. *)
Record ScanState : Type := mkScan {
  globalCharDistributions : gmap Z (list float);
  scanTrace : list Event
}.

(** The callback of [ScanForCharacterDistributions]. *)
Definition scanDistributionsFn (occurrenceThreshold : Z) (e : WalkEntry)
    (s : ScanState) : ScanState * option Diagnostic :=
  if accessErr e then
    (mkScan (globalCharDistributions s)
            (scanTrace s ++ [Logged (ErrorAccessingFile (path e))]), None)
  else if HasSuffix (Name e) passwordsSuffix then
    let '(passTrie, diags) := LoadCredentialsFromFile (path e) (content e) NewTrie in
    let highStandalone := collectHighStandalone passTrie occurrenceThreshold in
    (mkScan (fold_left (aggregatePrefix passTrie) highStandalone
                       (globalCharDistributions s))
            (scanTrace s ++ Processing (Name e) :: map Logged diags), None)
  else (s, None).

(** The result of a run: [log.Fatalf] ends it, or it completes with a value. *)
Inductive Run (A : Type) : Type :=
  | Fatal (trace : list Event) (err : Diagnostic)
  | Completed (trace : list Event) (result : A).
Arguments Fatal {A} _ _.
Arguments Completed {A} _ _.

(** [ScanForCharacterDistributions]; the result is what
    [writeFinalStatistics] formats, [None] when it panics. *)
Definition ScanForCharacterDistributions (srcDir : list WalkEntry)
    (occurrenceThreshold : Z) : Run (option (gmap Z CharRange)) :=
  match Walk (scanDistributionsFn occurrenceThreshold) srcDir (mkScan ∅ []) with
  | (s, Some err) => Fatal (scanTrace s) err
  | (s, None) =>
      Completed (scanTrace s) (calculateAverageAndRange (globalCharDistributions s))
  end.

(** ** prefix_extractor.go *)

Record CharacterStats : Type := mkStats {
  Average : float;
  MinRange : float;
  MaxRange : float
}.

Definition isDistributionOutlier (char : rune) (percentage : float)
    (stats : CharacterStats) : bool :=
  (MaxRange stats <? percentage)%float.

(** [float64(count) / float64(totalFollowingCount)], the value that
    [ScanForSuspiciousPrefixes] names [percentage]. *)
Definition observedOf (count totalFollowingCount : Z) : float :=
  (float64 count / float64 totalFollowingCount)%float.

(** The second loop over [followingCharCount]: [outlierFound], and
    [outlierChars] as the pairs of a character and the [percentage*100] that
    is formatted into the report. *)
Definition findOutliers (GlobalCharStats : gmap Z CharacterStats)
    (followingCharCount : gmap Z Z) (totalFollowingCount : Z)
    : bool * list (Z * float) :=
  map_fold (fun char count acc =>
              match GlobalCharStats !! char with
              | Some stats =>
                  let percentage := observedOf count totalFollowingCount in
                  if isDistributionOutlier char percentage stats then
                    if (0.005 <? percentage)%float
                    then (true, acc.2 ++ [(char, (percentage * 100)%float)])
                    else acc
                  else acc
              | None => acc
              end)
           (false, []) followingCharCount.

(** One block of the report. *)
Record SuspiciousPrefix : Type := mkSuspicious {
  sp_prefix : word;
  sp_standaloneCount : Z;
  sp_totalFollowingCount : Z;
  sp_outlierChars : list (Z * float)
}.

(** The body of the loop over the qualifying prefixes: the block written
    for [prefix], if any. *)
Definition reportPrefix (GlobalCharStats : gmap Z CharacterStats)
    (passTrie : Trie) (prefix : word) : option SuspiciousPrefix :=
  let followingCharCount := collectFollowingChars passTrie prefix in
  let totalFollowingCount := totalFollowing followingCharCount in
  let '(outlierFound, outlierChars) :=
    findOutliers GlobalCharStats followingCharCount totalFollowingCount in
  if outlierFound
  then Some (mkSuspicious prefix (CountStandaloneOccurrences passTrie prefix)
                          totalFollowingCount outlierChars)
  else None.

(** The state of [ScanForSuspiciousPrefixes]: what was written to the
    report, one header per file followed by its blocks, and the trace. *)
Record DetectState : Type := mkDetect {
  report : list (string * list SuspiciousPrefix);
  detectTrace : list Event
}.

(** The callback of [ScanForSuspiciousPrefixes]. *)
Definition scanSuspiciousFn (GlobalCharStats : gmap Z CharacterStats)
    (occurrenceThreshold : Z) (e : WalkEntry) (s : DetectState)
    : DetectState * option Diagnostic :=
  if accessErr e then
    (mkDetect (report s)
              (detectTrace s ++ [Logged (ErrorAccessingFile (path e))]), None)
  else if HasSuffix (Name e) passwordsSuffix then
    let '(passTrie, diags) := LoadCredentialsFromFile (path e) (content e) NewTrie in
    let highStandalone := collectHighStandalone passTrie occurrenceThreshold in
    (mkDetect (report s ++
                 [(Name e, omap (reportPrefix GlobalCharStats passTrie) highStandalone)])
              (detectTrace s ++ Processing (Name e) :: map Logged diags), None)
  else (s, None).

Definition ScanForSuspiciousPrefixes (GlobalCharStats : gmap Z CharacterStats)
    (srcDir : list WalkEntry) (occurrenceThreshold : Z)
    : Run (list (string * list SuspiciousPrefix)) :=
  match Walk (scanSuspiciousFn GlobalCharStats occurrenceThreshold) srcDir
             (mkDetect [] []) with
  | (s, Some err) => Fatal (detectTrace s) err
  | (s, None) => Completed (detectTrace s) (report s)
  end.

(** ** standalone_to_ratio_stats.go *)

Record PrefixStats : Type := mkPrefixStats {
  Prefix : word;
  StandaloneCount : Z;
  FollowingCount : Z
}.

Fixpoint collectPrefixStats (node : TrieNode) (currentPrefix : word)
    (threshold : Z) (stats : list PrefixStats) : list PrefixStats :=
  match node with
  | mkNode ch c =>
      let stats :=
        if threshold <? c then
          let totalFollowing :=
            map_fold (fun _ child total => wrap64 (total + countWordsInSubTrie child))
                     0 ch in
          stats ++ [mkPrefixStats currentPrefix c totalFollowing]
        else stats in
      map_fold (fun char child stats =>
                  collectPrefixStats child (currentPrefix ++ [char]) threshold stats)
               stats ch
  end.

Record StatsState : Type := mkStatsState {
  allStats : gmap string (list PrefixStats);
  statsTrace : list Event
}.

(** The callback of [GeneratePrefixStatistics]: an error passed by the walk
    is returned. *)
Definition prefixStatisticsFn (occurrenceThreshold : Z) (e : WalkEntry)
    (s : StatsState) : StatsState * option Diagnostic :=
  if accessErr e then (s, Some (ErrorAccessingFile (path e)))
  else if HasSuffix (Name e) passwordsSuffix then
    let '(passTrie, diags) := LoadCredentialsFromFile (path e) (content e) NewTrie in
    let stats := collectPrefixStats (root passTrie) [] occurrenceThreshold [] in
    (mkStatsState (<[TrimSuffix (Name e) passwordsSuffix := stats]> (allStats s))
                  (statsTrace s ++ Processing (Name e) :: map Logged diags), None)
  else (s, None).

(** [GeneratePrefixStatistics] followed by the [log.Fatalf] of its caller
    [main]; the result is what is encoded into the output file. *)
Definition GeneratePrefixStatistics (srcDir : list WalkEntry)
    (occurrenceThreshold : Z) : Run (gmap string (list PrefixStats)) :=
  match Walk (prefixStatisticsFn occurrenceThreshold) srcDir (mkStatsState ∅ []) with
  | (s, Some err) => Fatal (statsTrace s) err
  | (s, None) => Completed (statsTrace s) (allStats s)
  end.

(** ** for_identify_passwords.go *)

(** [calcCurve]: the [switch] picks the first case that holds. *)
Definition calcCurve (standalone followup : float) : bool :=
  if ((3000 <=? standalone) && (standalone <=? 5000))%float then
    (followup <? 1)%float
  else if ((5000 <? standalone) && (standalone <=? 20000))%float then
    (followup <? standalone / 500 - 10)%float
  else if (20000 <? standalone)%float then
    (followup <? standalone / 120 - 135)%float
  else false.

(** ** What the specification counts *)

(** [p] is a prefix of [w], [w] itself included. *)
Fixpoint isPrefixOf (p w : word) : bool :=
  match p, w with
  | [], _ => true
  | _ :: _, [] => false
  | a :: p', b :: w' => bool_decide (a = b) && isPrefixOf p' w'
  end.

(** Number of times [w] occurs in the sequence of inserted words. *)
Fixpoint timesInserted (w : word) (ws : list word) : Z :=
  match ws with
  | [] => 0
  | v :: rest => (if bool_decide (v = w) then 1 else 0) + timesInserted w rest
  end.

(** Number of inserted words that have [p] as a prefix. *)
Fixpoint wordsWithPrefix (p : word) (ws : list word) : Z :=
  match ws with
  | [] => 0
  | v :: rest => (if isPrefixOf p v then 1 else 0) + wordsWithPrefix p rest
  end.

(** Number of inserted words that extend [p] by at least one character. *)
Definition wordsFollowing (p : word) (ws : list word) : Z :=
  wordsWithPrefix p ws - timesInserted p ws.

(** ** Notions used in the statements *)

(** The end-of-word count and the subtree total found along [p] from a node,
    0 when the path is missing. *)
Definition standaloneAt (p : word) (node : TrieNode) : Z :=
  match findNode p node with Some n => endOfWordCount n | None => 0 end.

Definition subtreeAt (p : word) (node : TrieNode) : Z :=
  match findNode p node with Some n => countWordsInSubTrie n | None => 0 end.

(** The index that [calculatePercentile] reads. *)
Definition nearestRank (percentile n : Z) : Z :=
  Z.min (percentile * n / 100) (n - 1).

(** The zero with the sign bit set: it compares equal to [0] and is the one
    value that [float64Less] cannot tell from another one. *)
Definition negZero : float := (-0)%float.

Definition SFisNan (f : spec_float) : bool :=
  match f with S754_nan => true | _ => false end.

(** [float64Less] on the specification side. *)
Definition SFless (x y : spec_float) : bool :=
  SFltb x y || (SFisNan x && negb (SFisNan y)).

(** Samples without a negative zero. *)
Definition noNegZero (l : list float) : Prop := Forall (fun x => x <> negZero) l.

(** The calls of [aggregateCharacterDistributions] of a run, in order. *)
Definition aggregateAll (calls : list (gmap Z Z * Z)) (g : gmap Z (list float))
    : gmap Z (list float) :=
  fold_left (fun g call => aggregateCharacterDistributions call.1 call.2 g) calls g.

(** The samples that a sequence of calls appends for [char]. *)
Definition samplesFor (char : Z) (calls : list (gmap Z Z * Z)) : list float :=
  flat_map (fun call : gmap Z Z * Z =>
              match call.1 !! char with
              | Some count => [percentageOf count call.2]
              | None => []
              end) calls.

(** The calls that the callback of [ScanForCharacterDistributions] makes
    for one entry of the walk. *)
Definition scanCalls (occurrenceThreshold : Z) (e : WalkEntry)
    : list (gmap Z Z * Z) :=
  if accessErr e then []
  else if HasSuffix (Name e) passwordsSuffix then
    let passTrie := (LoadCredentialsFromFile (path e) (content e) NewTrie).1 in
    flat_map (fun prefix =>
                let followingCharCount := collectFollowingChars passTrie prefix in
                let totalFollowingCount := totalFollowing followingCharCount in
                if 0 <? totalFollowingCount
                then [(followingCharCount, totalFollowingCount)] else [])
             (collectHighStandalone passTrie occurrenceThreshold)
  else [].

(** Every percentage of a sequence of calls is above zero. *)
Definition positiveSamples (calls : list (gmap Z Z * Z)) : Prop :=
  Forall (fun call : gmap Z Z * Z =>
            map_Forall (fun _ count =>
                          PrimFloat.ltb 0 (percentageOf count call.2) = true) call.1)
         calls.

(** What a tolerant callback prints and logs for one entry of the walk. *)
Definition walkEvents (e : WalkEntry) : list Event :=
  if accessErr e then [Logged (ErrorAccessingFile (path e))]
  else if HasSuffix (Name e) passwordsSuffix then
    Processing (Name e)
    :: map Logged (LoadCredentialsFromFile (path e) (content e) NewTrie).2
  else [].

(** [char], seen [count] times out of [total], is an outlier against the
    baseline [G]: its observed value is above the upper bound that [G] has
    for it and above the floor. *)
Definition isOutlier (G : gmap Z CharacterStats) (char count total : Z) : Prop :=
  exists stats,
    G !! char = Some stats
    /\ (MaxRange stats <? observedOf count total)%float = true
    /\ (0.005 <? observedOf count total)%float = true.

(** The text after the first colon of a line; [None] when there is no
    colon. *)
Fixpoint afterFirstColon (line : word) : option word :=
  match line with
  | [] => None
  | c :: rest => if bool_decide (c = colon) then Some rest else afterFirstColon rest
  end.

(** The text before the first colon, the whole text when there is none. *)
Fixpoint upToColon (s : word) : word :=
  match s with
  | [] => []
  | c :: rest => if bool_decide (c = colon) then [] else c :: upToColon rest
  end.

(** The height of a trie, for induction on its nodes. *)
Fixpoint height (node : TrieNode) : nat :=
  match node with
  | mkNode ch _ => S (map_fold (fun _ child h => Nat.max h (height child)) 0%nat ch)
  end.

(** The path [s] from [node] ends at a node whose end-of-word count is above
    the threshold [T]. *)
Definition qualifiesAt (T : Z) (node : TrieNode) (s : word) : Prop :=
  exists n, findNode s node = Some n /\ T < endOfWordCount n.

(** ** prefix_extractor.go: loading the baseline *)

(** [LoadCharacterStats].  [decoded] is what opening the file and decoding
    its JSON object give, [None] when either fails; the keys are Go strings,
    that is byte strings.  The result is the new value of [GlobalCharStats]
    and whether an error is returned: a key of one byte [b] is entered at
    [rune(b)], any other key is dropped. *)
Definition LoadCharacterStats (decoded : option (gmap string CharacterStats))
    (GlobalCharStats : gmap Z CharacterStats) : gmap Z CharacterStats * bool :=
  match decoded with
  | None => (GlobalCharStats, true)
  | Some stats =>
      (map_fold (fun key value G =>
                   match key with
                   | String b EmptyString => <[Z.of_N (N_of_ascii b) := value]> G
                   | _ => G
                   end) ∅ stats,
       false)
  end.

(** The key of one byte under which the JSON object holds the statistics of
    the character [r]. *)
Definition statsKey (r : Z) : string :=
  String (ascii_of_N (Z.to_N r)) EmptyString.




(** The password that a line contributes: the trimmed text between the
    first colon and the next one, when there is a colon and the text is not
    empty. *)
Definition linePassword (line : word) : option word :=
  match afterFirstColon line with
  | None => None
  | Some rest =>
      let password := TrimSpace (upToColon rest) in
      if bool_decide (password = []) then None else Some password
  end.

(** ** for_identify_passwords.go: the flagged set *)

Module ForIdentify.

(** [type PrefixRecord struct]: one record of the prefix statistics as the
    classifier decodes it, the two counts as [float64]. *)
Record PrefixRecord : Type := mkPrefixRecord {
  Prefix : word;
  StandaloneCount : float;
  FollowingCount : float
}.

(** [identifySuspiciousPasswords].  [decoded] is what opening and decoding
    the statistics file give, [None] when either fails, in which case the
    error is returned.  The records of all files are gathered, and the
    prefix of every record that [calcCurve] flags is entered in the set
    [map[string]bool]. *)
Definition identifySuspiciousPasswords
    (decoded : option (gmap string (list PrefixRecord))) : option (gset word) :=
  match decoded with
  | None => None
  | Some allStats =>
      let prefixRecords :=
        map_fold (fun _ stats prefixRecords => prefixRecords ++ stats) [] allStats in
      Some (fold_left
              (fun (suspiciousPasswords : gset word) record =>
                 if calcCurve (StandaloneCount record) (FollowingCount record)
                 then {[ Prefix record ]} ∪ suspiciousPasswords
                 else suspiciousPasswords)
              prefixRecords ∅)
  end.

End ForIdentify.

(** ** data_cleaning_for.go: removing the flagged passwords *)

(** What [removeSuspiciousFollowOnRatios] returns and leaves in the slice
    that [removedFor] points to. *)
Record ForResult : Type := mkForResult {
  newUsernames : list string;
  newPasswords : list string;
  forError : bool;
  removedFor : list string
}.

(** [fmt.Sprintf("%s:%s", username, password)] *)
Definition credentialLine (username password : string) : string :=
  (username ++ ":" ++ password)%string.

(** The loop over [passwords], from index [idx]: [usernames[idx]] panics
    ([None]) when the index is out of range. *)
Fixpoint removeFlagged (suspiciousPasswords : gset string)
    (usernames : list string) (idx : nat) (passwords : list string)
    (acc : ForResult) : option ForResult :=
  match passwords with
  | [] => Some acc
  | pwd :: rest =>
      match usernames !! idx with
      | None => None
      | Some username =>
          removeFlagged suspiciousPasswords usernames (S idx) rest
            (if bool_decide (pwd ∈ suspiciousPasswords)
             then mkForResult (newUsernames acc) (newPasswords acc) false
                              (removedFor acc ++ [credentialLine username pwd])
             else mkForResult (newUsernames acc ++ [username])
                              (newPasswords acc ++ [pwd]) false (removedFor acc))
      end
  end.

(** [removeSuspiciousFollowOnRatios].  [decoded] is what opening and
    decoding the list of flagged passwords give, [None] when either fails;
    the file is not opened when there is no password. *)
Definition removeSuspiciousFollowOnRatios (usernames passwords : list string)
    (removed : list string) (decoded : option (list string)) : option ForResult :=
  if bool_decide (passwords = []) then
    Some (mkForResult usernames passwords false removed)
  else
    match decoded with
    | None => Some (mkForResult [] [] true removed)
    | Some suspiciousPasswordsList =>
        removeFlagged (list_to_set suspiciousPasswordsList) usernames 0 passwords
          (mkForResult [] [] false removed)
    end.

(** The credentials that the loop of [removeSuspiciousFollowOnRatios]
    sees: the passwords with the user names at the same indices. *)
Definition credentials (usernames passwords : list string) : list (string * string) :=
  combine usernames passwords.

Definition isFlagged (flagged : list string) (credential : string * string) : bool :=
  bool_decide (credential.2 ∈ flagged).

(** ** data_counting_script.go: the stages that follow the flagged list *)

(** [strings.HasPrefix] *)
Definition HasPrefix (s prefix : string) : bool := String.prefix prefix s.

(** What a removal stage returns, [newUsernames] and [newPasswords], and
    what it leaves in the slice of removed entries that it is given. *)
Record Removal : Type := mkRemoval {
  keptUsernames : list string;
  keptPasswords : list string;
  removedEntries : list string
}.

(** The loop shared by [removeSuspiciousFollowOnDistribution] and
    [removeFBOB]: over [passwords] from index [idx], a rejected password is
    recorded with [usernames[idx]] and another one is kept with it; the
    index panics ([None]) when it is out of range. *)
Fixpoint removeWhere (reject : string -> bool) (usernames : list string)
    (idx : nat) (passwords : list string) (acc : Removal) : option Removal :=
  match passwords with
  | [] => Some acc
  | pwd :: rest =>
      match usernames !! idx with
      | None => None
      | Some username =>
          removeWhere reject usernames (S idx) rest
            (if reject pwd
             then mkRemoval (keptUsernames acc) (keptPasswords acc)
                            (removedEntries acc ++ [credentialLine username pwd])
             else mkRemoval (keptUsernames acc ++ [username])
                            (keptPasswords acc ++ [pwd]) (removedEntries acc))
      end
  end.

Definition removePasswordsSpecific : list string :=
  ["010203kuk"; "0000000000o"; "1g2w3e4r"; "angelseye22";
   "motherlode"; "starwarsfan10"; "secret666"; "sophietorf";
   "Status"; "!~!1"]%string.

Definition removePasswordsAll : list string :=
  ["111222t"; "29rsavoy"; "87654321 "; "asdasd5"; "jennifer_"; "jessica_"; "lovely_";
   "marina_"; "natasha_"; "nikita_"; "NULL"; "paSSword"; "$HEX"; "tinkle";
   "target123"; "victoria_"; "valentina_"; "vanessa_"]%string.

(** The value of [removePass] at the end of an iteration: the password is a
    key of [removePasswordsSpecific], or the loop over [removePasswordsAll]
    finds a prefix of it. *)
Definition removePass (pwd : string) : bool :=
  bool_decide (pwd ∈ (list_to_set removePasswordsSpecific : gset string))
  || existsb (HasPrefix pwd) removePasswordsAll.

Definition removeSuspiciousFollowOnDistribution (usernames passwords : list string)
    (removedFOD : list string) : option Removal :=
  removeWhere removePass usernames 0 passwords (mkRemoval [] [] removedFOD).

Definition fbobPrefix : string := "fbobh_".

Definition removeFBOB (usernames passwords : list string)
    (removedFBOB : list string) : option Removal :=
  removeWhere (fun pwd => HasPrefix pwd fbobPrefix) usernames 0 passwords
    (mkRemoval [] [] removedFBOB).

(** The loop of [checkFBOB], which reads [usernames[idx]] only for a
    password that has the prefix. *)
Fixpoint checkFBOBFrom (usernames : list string) (idx : nat)
    (passwords : list string) (removedFBOB : list string) (count : Z)
    : option (list string * Z) :=
  match passwords with
  | [] => Some (removedFBOB, count)
  | pwd :: rest =>
      if HasPrefix pwd fbobPrefix then
        match usernames !! idx with
        | None => None
        | Some username =>
            checkFBOBFrom usernames (S idx) rest
              (removedFBOB ++ [credentialLine username pwd]) (wrap64 (count + 1))
        end
      else checkFBOBFrom usernames (S idx) rest removedFBOB count
  end.

(** [checkFBOB]: the entries recorded and the count returned. *)
Definition checkFBOB (usernames passwords : list string)
    (removedFBOB : list string) : option (list string * Z) :=
  checkFBOBFrom usernames 0 passwords removedFBOB 0.

(** The loop of [processFile] that writes the cleaned credentials:
    [for i := range usernames] reads [passwords[i]]. *)
Fixpoint writeFrom (passwords : list string) (i : nat) (usernames : list string)
    : option (list string) :=
  match usernames with
  | [] => Some []
  | username :: rest =>
      match passwords !! i with
      | None => None
      | Some password =>
          match writeFrom passwords (S i) rest with
          | None => None
          | Some lines =>
              Some ((credentialLine username password ++ String "010" "")%string
                    :: lines)
          end
      end
  end.

(** What the cleaning [processFile] writes and records from the stage
    [removeSuspiciousFollowOnDistribution] on. *)
Record Cleaned : Type := mkCleaned {
  written : list string;
  loggedFod : list string;
  loggedFor : list string;
  loggedFBOB : list string
}.

(** The last three stages of the cleaning [processFile] and the lines it
    then writes, on the credentials that the earlier stages hand over; each
    stage starts with an empty slice of removed entries, and the error of
    [removeSuspiciousFollowOnRatios] is dropped. *)
Definition processFileStages (usernames passwords : list string)
    (decoded : option (list string)) : option Cleaned :=
  d ← removeSuspiciousFollowOnDistribution usernames passwords [];
  r ← removeSuspiciousFollowOnRatios (keptUsernames d) (keptPasswords d) [] decoded;
  f ← removeFBOB (newUsernames r) (newPasswords r) [];
  lines ← writeFrom (keptPasswords f) 0 (keptUsernames f);
  Some (mkCleaned lines (removedEntries d) (removedFor r) (removedEntries f)).

(** The line written for a credential. *)
Definition outputLine (credential : string * string) : string :=
  (credentialLine credential.1 credential.2 ++ String "010" "")%string.

(** ** data_cleaning_emails.go: the parts of an address *)

(** [strings.Index(s, "@")] for the one-byte separator, [-1] when the byte
    does not occur. *)
Fixpoint IndexByte (s : string) (c : ascii) : Z :=
  match s with
  | EmptyString => -1
  | String a rest =>
      if Ascii.eqb a c then 0
      else match IndexByte rest c with
           | -1 => -1
           | at_ => at_ + 1
           end
  end.

Definition atSign : ascii := "@"%char.

(** [email[:at]] and [email[at:]] *)
Definition sliceTo (s : string) (at_ : Z) : string :=
  substring 0 (Z.to_nat at_) s.

Definition sliceFrom (s : string) (at_ : Z) : string :=
  substring (Z.to_nat at_) (String.length s - Z.to_nat at_) s.

Definition getLocal (email : string) : string :=
  let at_ := IndexByte email atSign in
  if negb (at_ =? -1) then sliceTo email at_ else email.

Definition getDomain (email : string) : string :=
  let at_ := IndexByte email atSign in
  if negb (at_ =? -1) then sliceFrom email at_ else ""%string.

(** [slicesEqual]: [b[i]] panics ([None]) when the index is out of range,
    which the comparison of the lengths excludes. *)
Fixpoint slicesEqualFrom (b : list string) (i : nat) (a : list string) : option bool :=
  match a with
  | [] => Some true
  | s :: rest =>
      match b !! i with
      | None => None
      | Some t => if negb (String.eqb s t) then Some false
                  else slicesEqualFrom b (S i) rest
      end
  end.

Definition slicesEqual (a b : list string) : option bool :=
  if negb (len a =? len b) then Some false else slicesEqualFrom b 0 a.

Definition allEqual (slice : list string) : bool :=
  match slice with
  | [] => true
  | first :: _ => forallb (fun s => String.eqb s first) slice
  end.

Fixpoint contains (slice : list string) (item : string) : bool :=
  match slice with
  | [] => false
  | s :: rest => if String.eqb s item then true else contains rest item
  end.

Fixpoint containsInt (slice : list Z) (item : Z) : bool :=
  match slice with
  | [] => false
  | s :: rest => if s =? item then true else containsInt rest item
  end.

(** ** data_cleaning_emails.go: blocks of addresses *)

(** [s[k]] for an [int] index, which panics ([None]) out of range. *)
Definition elemAt {A} (s : list A) (k : Z) : option A :=
  if k <? 0 then None else s !! Z.to_nat k.

Definition suspiciousSequences : list (list string) :=
  [ ["@epost.de"; "@gmx.de"; "@lycos.de"; "@web.de"; "@yahoo.de"];
    ["@inbox.ru"; "@list.ru"; "@mail.ru"; "@rambler.ru"; "@yandex.ru"];
    ["@bk.ru"; "@gmail.com"; "@gmx.com"; "@inbox.ru"; "@list.ru"; "@mail.ru"]
  ]%string.

(** The largest [len(seq)+1] over the sequences. *)
Definition maxBlockSize : Z :=
  fold_left (fun maxBlockSize seq =>
               if wrap64 (len seq + 1) >? maxBlockSize
               then wrap64 (len seq + 1) else maxBlockSize)
            suspiciousSequences 0.

(** The loop that groups the addresses from index [j] on that have the
    local part [local], up to [maxBlockSize] of them.  [fuel] bounds the
    number of iterations; the loop itself stops by its third condition. *)
Fixpoint groupBlock (usernames : list string) (local : string) (fuel : nat)
    (j : Z) (blockIndices : list Z) : option (list Z * Z) :=
  if j <? len usernames then
    match elemAt usernames j with
    | None => None
    | Some username =>
        if String.eqb (getLocal username) local
           && (len blockIndices <? maxBlockSize)
        then match fuel with
             | O => None
             | S fuel' =>
                 groupBlock usernames local fuel' (wrap64 (j + 1))
                            (blockIndices ++ [j])
             end
        else Some (blockIndices, j)
    end
  else Some (blockIndices, j).

(** [getDomain(usernames[k])] for each index of a block. *)
Fixpoint domainsAt (usernames : list string) (indices : list Z)
    : option (list string) :=
  match indices with
  | [] => Some []
  | k :: rest =>
      match elemAt usernames k, domainsAt usernames rest with
      | Some username, Some domains => Some (getDomain username :: domains)
      | _, _ => None
      end
  end.

(** [passwords[k]] for each index of a block. *)
Fixpoint passwordsAt (passwords : list string) (indices : list Z)
    : option (list string) :=
  match indices with
  | [] => Some []
  | k :: rest =>
      match elemAt passwords k, passwordsAt passwords rest with
      | Some password, Some found => Some (password :: found)
      | _, _ => None
      end
  end.

(** The indices of a block whose domain is in the candidate sequence. *)
Fixpoint suspiciousAt (usernames : list string) (seq : list string)
    (blockIndices : list Z) : option (list Z) :=
  match blockIndices with
  | [] => Some []
  | k :: rest =>
      match elemAt usernames k, suspiciousAt usernames seq rest with
      | Some username, Some suspiciousIdx =>
          Some (if contains seq (getDomain username)
                then k :: suspiciousIdx else suspiciousIdx)
      | _, _ => None
      end
  end.

(** One candidate sequence against a block: [Some (Some (removed, kept))]
    when the block is processed, with the indices to remove and those to
    keep, and [Some None] when the sequence does not apply. *)
Definition matchSequence (usernames passwords : list string)
    (blockIndices : list Z) (seq : list string)
    : option (option (list Z * list Z)) :=
  let L := len seq in
  if len blockIndices =? L then
    blockDomains ← domainsAt usernames blockIndices;
    same ← slicesEqual blockDomains seq;
    if same : bool then
      blockPasswords ← passwordsAt passwords blockIndices;
      if allEqual blockPasswords then Some (Some (blockIndices, []))
      else Some None
    else Some None
  else if len blockIndices =? wrap64 (L + 1) then
    suspiciousIdx ← suspiciousAt usernames seq blockIndices;
    if len suspiciousIdx =? L then
      suspiciousBlockDomains ← domainsAt usernames suspiciousIdx;
      same ← slicesEqual suspiciousBlockDomains seq;
      if same : bool then
        suspiciousPasswords ← passwordsAt passwords suspiciousIdx;
        if allEqual suspiciousPasswords
        then Some (Some (suspiciousIdx,
                         List.filter (fun k => negb (containsInt suspiciousIdx k))
                                     blockIndices))
        else Some None
      else Some None
    else Some None
  else Some None.

(** The loop over the candidate sequences, left at the first one that
    processes the block. *)
Fixpoint firstMatch (usernames passwords : list string) (blockIndices : list Z)
    (sequences : list (list string)) : option (option (list Z * list Z)) :=
  match sequences with
  | [] => Some None
  | seq :: rest =>
      match matchSequence usernames passwords blockIndices seq with
      | None => None
      | Some (Some processed) => Some (Some processed)
      | Some None => firstMatch usernames passwords blockIndices rest
      end
  end.

(** Recording the credentials at the given indices as removed. *)
Fixpoint recordAt (usernames passwords : list string) (indices : list Z)
    (acc : Removal) : option Removal :=
  match indices with
  | [] => Some acc
  | k :: rest =>
      match elemAt usernames k, elemAt passwords k with
      | Some username, Some password =>
          recordAt usernames passwords rest
            (mkRemoval (keptUsernames acc) (keptPasswords acc)
                       (removedEntries acc ++ [credentialLine username password]))
      | _, _ => None
      end
  end.

(** Keeping the credentials at the given indices. *)
Fixpoint keepAt (usernames passwords : list string) (indices : list Z)
    (acc : Removal) : option Removal :=
  match indices with
  | [] => Some acc
  | k :: rest =>
      match elemAt usernames k, elemAt passwords k with
      | Some username, Some password =>
          keepAt usernames passwords rest
            (mkRemoval (keptUsernames acc ++ [username])
                       (keptPasswords acc ++ [password]) (removedEntries acc))
      | _, _ => None
      end
  end.

(** The loop [for i < n] of [removeSuspiciousEmails]: a block is grouped
    from [i], tried against the sequences, and the loop goes on after the
    block.  [fuel] bounds the number of blocks. *)
Fixpoint emailsFrom (fuel : nat) (usernames passwords : list string) (i : Z)
    (acc : Removal) : option Removal :=
  if i <? len usernames then
    match fuel with
    | O => None
    | S fuel' =>
        username ← elemAt usernames i;
        grouped ← groupBlock usernames (getLocal username)
                             (Z.to_nat maxBlockSize) i [];
        processed ← firstMatch usernames passwords grouped.1 suspiciousSequences;
        acc' ← match processed with
               | Some (removedIdx, keptIdx) =>
                   recordAt usernames passwords removedIdx acc
                     ≫= keepAt usernames passwords keptIdx
               | None => keepAt usernames passwords grouped.1 acc
               end;
        emailsFrom fuel' usernames passwords grouped.2 acc'
    end
  else Some acc.

Definition removeSuspiciousEmails (usernames passwords : list string)
    (removedSuspiciousEmail : list string) : option Removal :=
  emailsFrom (length usernames) usernames passwords 0
             (mkRemoval [] [] removedSuspiciousEmail).

(** The indices [j], [j+1], ... of a block of [m] credentials. *)
Fixpoint indicesFrom (j : Z) (m : nat) : list Z :=
  match m with
  | O => []
  | S m' => j :: indicesFrom (j + 1) m'
  end.

(** The credential at an index. *)
Definition credentialAt (usernames passwords : list string) (k : Z)
    : string * string :=
  (nth (Z.to_nat k) usernames ""%string, nth (Z.to_nat k) passwords ""%string).

(** ** Order of a sorted slice *)

(** [y] does not sort before [x]. *)
Definition notBefore (x y : float) : Prop := float64Less y x = false.

(** Every element of the slice is followed only by elements that do not
    sort before it. *)
Fixpoint ascending (l : list float) : Prop :=
  match l with
  | [] => True
  | x :: rest => (forall z, In z rest -> notBefore x z) /\ ascending rest
  end.

(** * Part II: properties *)

(** ** Wrap-around arithmetic *)

Section GoIntFacts.

Lemma wrap64_range z : in_range (wrap64 z).
Proof.
  unfold in_range, wrap64, min_int, max_int.
  pose proof (Z.mod_pos_bound (z + 2 ^ 63) (2 ^ 64) ltac:(lia)). lia.
Qed.

Lemma wrap64_id z : in_range z -> wrap64 z = z.
Proof.
  unfold in_range, wrap64, min_int, max_int. intros Hz.
  rewrite Z.mod_small by lia. lia.
Qed.

Lemma wrap64_add_l a b : wrap64 (wrap64 a + b) = wrap64 (a + b).
Proof.
  unfold wrap64. f_equal.
  replace ((a + 2 ^ 63) mod 2 ^ 64 - 2 ^ 63 + b + 2 ^ 63)
    with ((a + 2 ^ 63) mod 2 ^ 64 + b) by lia.
  rewrite Z.add_mod_idemp_l by lia. f_equal. lia.
Qed.

Lemma wrap64_add_r a b : wrap64 (a + wrap64 b) = wrap64 (a + b).
Proof. rewrite (Z.add_comm a), wrap64_add_l. f_equal. lia. Qed.

Lemma wrap64_idemp a : wrap64 (wrap64 a) = wrap64 a.
Proof. apply wrap64_id, wrap64_range. Qed.

(** Adding two numbers to an accumulator gives the same in either order. *)
Lemma wrap64_add_swap y a b :
  wrap64 (wrap64 (y + a) + b) = wrap64 (wrap64 (y + b) + a).
Proof. rewrite !wrap64_add_l. f_equal. lia. Qed.

Lemma wrap64_sub_r a b : wrap64 (a - wrap64 b) = wrap64 (a - b).
Proof.
  unfold wrap64. f_equal.
  replace (a - ((b + 2 ^ 63) mod 2 ^ 64 - 2 ^ 63) + 2 ^ 63)
    with (a + 2 ^ 64 - (b + 2 ^ 63) mod 2 ^ 64) by lia.
  rewrite Zminus_mod_idemp_r. f_equal. lia.
Qed.

Lemma wrap64_sub_l a b : wrap64 (wrap64 a - b) = wrap64 (a - b).
Proof. unfold Z.sub. apply wrap64_add_l. Qed.

Lemma len_nonneg {A} (l : list A) : 0 <= len l.
Proof. unfold len. lia. Qed.

Lemma len_cons {A} (x : A) (l : list A) : len (x :: l) = len l + 1.
Proof. unfold len. simpl. lia. Qed.

End GoIntFacts.

Create Rewrite HintDb wrap.
#[local] Hint Rewrite wrap64_add_l wrap64_add_r wrap64_idemp : wrap.

(** ** The trie *)

Section TrieFacts.

Implicit Types (node : TrieNode) (t : Trie) (w p : word) (ws : list word).

Lemma countWordsInSubTrie_eq node :
  countWordsInSubTrie node =
  map_fold (fun _ child count => wrap64 (count + countWordsInSubTrie child))
           (endOfWordCount node) (children node).
Proof. destruct node; reflexivity. Qed.

Lemma standaloneAt_newNode p : standaloneAt p newNode = 0.
Proof. destruct p; reflexivity. Qed.

Lemma subtreeAt_newNode p : subtreeAt p newNode = 0.
Proof. destruct p; reflexivity. Qed.

Lemma standaloneAt_cons a p node :
  standaloneAt (a :: p) node =
  match children node !! a with Some child => standaloneAt p child | None => 0 end.
Proof. unfold standaloneAt. simpl. destruct (children node !! a); reflexivity. Qed.

Lemma subtreeAt_cons a p node :
  subtreeAt (a :: p) node =
  match children node !! a with Some child => subtreeAt p child | None => 0 end.
Proof. unfold subtreeAt. simpl. destruct (children node !! a); reflexivity. Qed.

(** *** One insertion *)

Lemma standaloneAt_insertFrom w : forall p node,
  standaloneAt p (insertFrom w node) =
  if bool_decide (w = p) then wrap64 (standaloneAt p node + 1)
  else standaloneAt p node.
Proof.
  induction w as [|c w IH]; intros [|a p] node; try reflexivity.
  rewrite !standaloneAt_cons. simpl.
  destruct (decide (c = a)) as [->|Hne].
  - rewrite lookup_insert_eq, IH.
    destruct (decide (w = p)) as [->|Hp].
    + rewrite !bool_decide_eq_true_2 by reflexivity.
      destruct (children node !! a); [reflexivity|].
      now rewrite standaloneAt_newNode.
    + rewrite !bool_decide_eq_false_2 by congruence.
      destruct (children node !! a); [reflexivity|].
      now rewrite standaloneAt_newNode.
  - rewrite lookup_insert_ne by exact Hne.
    rewrite bool_decide_eq_false_2 by congruence. reflexivity.
Qed.

Lemma countWordsInSubTrie_insertFrom w : forall node,
  countWordsInSubTrie (insertFrom w node) = wrap64 (countWordsInSubTrie node + 1).
Proof.
  induction w as [|c w IH]; intros node; rewrite !countWordsInSubTrie_eq; simpl.
  - apply (map_fold_comm_acc _ (fun y => wrap64 (y + 1))).
    intros _ z y. apply wrap64_add_swap.
  - set (f := fun (_ : Z) child count => wrap64 (count + countWordsInSubTrie child)).
    assert (Hcomm : forall (j1 j2 : Z) z1 z2 y, f j1 z1 (f j2 z2 y) = f j2 z2 (f j1 z1 y)).
    { intros. apply wrap64_add_swap. }
    destruct (children node !! c) as [child|] eqn:Hc.
    + rewrite <- insert_delete_eq.
      rewrite map_fold_insert_L;
        [|intros; apply Hcomm|apply lookup_delete_eq].
      rewrite (map_fold_delete_L f _ c child (children node));
        [|intros; apply Hcomm|exact Hc].
      unfold f at 1 3. rewrite IH. autorewrite with wrap. f_equal. lia.
    + rewrite map_fold_insert_L; [|intros; apply Hcomm|exact Hc].
      unfold f at 1. rewrite IH. autorewrite with wrap. reflexivity.
Qed.

Lemma subtreeAt_insertFrom p : forall w node,
  subtreeAt p (insertFrom w node) =
  if isPrefixOf p w then wrap64 (subtreeAt p node + 1) else subtreeAt p node.
Proof.
  induction p as [|a p IH]; intros w node.
  - apply countWordsInSubTrie_insertFrom.
  - destruct w as [|c w]; [reflexivity|].
    rewrite !subtreeAt_cons. simpl.
    destruct (decide (a = c)) as [->|Hne].
    + rewrite lookup_insert_eq, IH, bool_decide_eq_true_2 by reflexivity. simpl.
      destruct (children node !! c); [reflexivity|].
      now rewrite subtreeAt_newNode.
    + rewrite lookup_insert_ne by congruence.
      rewrite bool_decide_eq_false_2 by exact Hne. reflexivity.
Qed.

(** A path of the trie after an insertion was there before, or runs along
    the inserted word. *)
Lemma findNode_insertFrom p : forall w node,
  is_Some (findNode p (insertFrom w node)) ->
  is_Some (findNode p node) \/ isPrefixOf p w = true.
Proof.
  induction p as [|a p IH]; intros w node H; [now right|].
  destruct w as [|c w]; [now left|].
  simpl in *. destruct (decide (a = c)) as [->|Hne].
  - rewrite lookup_insert_eq in H. rewrite bool_decide_eq_true_2 by reflexivity.
    apply IH in H. destruct (children node !! c).
    + exact H.
    + destruct H as [H|H]; [|now right].
      destruct p; [|destruct H; discriminate]. now right.
  - rewrite lookup_insert_ne in H by congruence. now left.
Qed.

(** *** A sequence of insertions *)

Lemma buildTrie_snoc ws w : buildTrie (ws ++ [w]) = Insert w (buildTrie ws).
Proof. unfold buildTrie, insertAll. now rewrite fold_left_app. Qed.

Lemma timesInserted_app p ws1 ws2 :
  timesInserted p (ws1 ++ ws2) = timesInserted p ws1 + timesInserted p ws2.
Proof. induction ws1 as [|v ws1 IH]; simpl; lia. Qed.

Lemma wordsWithPrefix_app p ws1 ws2 :
  wordsWithPrefix p (ws1 ++ ws2) = wordsWithPrefix p ws1 + wordsWithPrefix p ws2.
Proof. induction ws1 as [|v ws1 IH]; simpl; lia. Qed.

Lemma isPrefixOf_refl p : isPrefixOf p p = true.
Proof.
  induction p as [|a p IH]; [reflexivity|].
  simpl. now rewrite bool_decide_eq_true_2, IH.
Qed.

Lemma isPrefixOf_snoc p c : forall w,
  isPrefixOf (p ++ [c]) w = true -> isPrefixOf p w = true /\ w <> p.
Proof.
  induction p as [|a p IH]; intros [|b w] H; simpl in *; try discriminate.
  - split; [reflexivity|discriminate].
  - apply andb_true_iff in H as [Hab H]. apply IH in H as [H Hne].
    rewrite Hab, H. split; [reflexivity|congruence].
Qed.

Lemma timesInserted_bounds p ws :
  0 <= timesInserted p ws <= wordsWithPrefix p ws.
Proof.
  induction ws as [|v ws IH]; simpl; [lia|].
  destruct (decide (v = p)) as [->|Hne].
  - rewrite bool_decide_eq_true_2, isPrefixOf_refl by reflexivity. lia.
  - rewrite bool_decide_eq_false_2 by exact Hne. destruct (isPrefixOf p v); lia.
Qed.

Lemma wordsWithPrefix_bounds p ws : 0 <= wordsWithPrefix p ws <= len ws.
Proof.
  induction ws as [|v ws IH]; [unfold len; simpl; lia|].
  rewrite len_cons. simpl. destruct (isPrefixOf p v); lia.
Qed.

Lemma timesInserted_absent p ws : ~ In p ws -> timesInserted p ws = 0.
Proof.
  induction ws as [|v ws IH]; intros Hin; [reflexivity|]. simpl in *.
  rewrite bool_decide_eq_false_2 by tauto. rewrite IH by tauto. reflexivity.
Qed.

Lemma wordsFollowing_bounds p ws : 0 <= wordsFollowing p ws <= len ws.
Proof.
  unfold wordsFollowing.
  pose proof (timesInserted_bounds p ws). pose proof (wordsWithPrefix_bounds p ws). lia.
Qed.

(** A word that goes on after [p] is counted by [wordsFollowing]. *)
Lemma wordsFollowing_pos p c ws w :
  In w ws -> isPrefixOf (p ++ [c]) w = true -> 1 <= wordsFollowing p ws.
Proof.
  intros Hin Hpre. apply isPrefixOf_snoc in Hpre as [Hpre Hne].
  unfold wordsFollowing. induction ws as [|v ws IH]; [destruct Hin|].
  pose proof (timesInserted_bounds p ws). simpl.
  destruct Hin as [->|Hin].
  - rewrite Hpre, bool_decide_eq_false_2 by exact Hne. lia.
  - specialize (IH Hin). destruct (decide (v = p)) as [->|Hv].
    + rewrite bool_decide_eq_true_2, isPrefixOf_refl by reflexivity. lia.
    + rewrite bool_decide_eq_false_2 by exact Hv. destruct (isPrefixOf p v); lia.
Qed.

Lemma wordsWithPrefix_pos p ws w :
  In w ws -> isPrefixOf p w = true -> 1 <= wordsWithPrefix p ws.
Proof.
  intros Hin Hpre. induction ws as [|v ws IH]; [destruct Hin|].
  pose proof (wordsWithPrefix_bounds p ws). simpl.
  destruct Hin as [->|Hin].
  - rewrite Hpre. lia.
  - specialize (IH Hin). destruct (isPrefixOf p v); lia.
Qed.

(** The counts of a built trie, modulo 2^64. *)
Lemma standalone_buildTrie ws p :
  CountStandaloneOccurrences (buildTrie ws) p = wrap64 (timesInserted p ws).
Proof.
  induction ws as [|w ws IH] using rev_ind.
  - destruct p; reflexivity.
  - rewrite buildTrie_snoc, timesInserted_app.
    change (standaloneAt p (insertFrom w (root (buildTrie ws))) =
            wrap64 (timesInserted p ws + timesInserted p [w])).
    rewrite standaloneAt_insertFrom.
    change (standaloneAt p (root (buildTrie ws)))
      with (CountStandaloneOccurrences (buildTrie ws) p).
    rewrite IH. simpl. destruct (bool_decide (w = p)).
    + rewrite wrap64_add_l. f_equal; lia.
    + f_equal; lia.
Qed.

Lemma prefix_buildTrie ws p :
  CountWordsWithPrefix (buildTrie ws) p = wrap64 (wordsWithPrefix p ws).
Proof.
  induction ws as [|w ws IH] using rev_ind.
  - destruct p; reflexivity.
  - rewrite buildTrie_snoc, wordsWithPrefix_app.
    change (subtreeAt p (insertFrom w (root (buildTrie ws))) =
            wrap64 (wordsWithPrefix p ws + wordsWithPrefix p [w])).
    rewrite subtreeAt_insertFrom.
    change (subtreeAt p (root (buildTrie ws)))
      with (CountWordsWithPrefix (buildTrie ws) p).
    rewrite IH. simpl. destruct (isPrefixOf p w).
    + rewrite wrap64_add_l. f_equal; lia.
    + f_equal; lia.
Qed.

(** Every path of a built trie, the root apart, runs along an inserted word. *)
Lemma findNode_buildTrie ws p :
  is_Some (findNode p (root (buildTrie ws))) ->
  p = [] \/ exists w, In w ws /\ isPrefixOf p w = true.
Proof.
  induction ws as [|w ws IH] using rev_ind; intros H.
  - destruct p; [now left|]. destruct H; discriminate.
  - rewrite buildTrie_snoc in H. apply findNode_insertFrom in H as [H|H].
    + destruct (IH H) as [->|(v & Hin & Hv)]; [now left|].
      right. exists v. split; [apply in_or_app; now left|exact Hv].
    + right. exists w. split; [apply in_or_app; right; now left|exact H].
Qed.

Lemma small_count n ws : len ws <= max_int -> 0 <= n <= len ws -> wrap64 n = n.
Proof. intros Hlen Hn. apply wrap64_id. unfold in_range, min_int. lia. Qed.

End TrieFacts.

(** C2: in a trie built from the empty trie by a sequence of [Insert] calls,
    [CountStandaloneOccurrences W] is the number of times [W] was inserted;
    it is 0 for a word that was never inserted, and 0 when the path of [W]
    is not in the trie.  The sequence is shorter than 2^63, the largest Go
    [int]. *)
Theorem CountStandaloneOccurrences_correct (ws : list word) (W : word) :
  len ws <= max_int ->
  CountStandaloneOccurrences (buildTrie ws) W = timesInserted W ws
  /\ (~ In W ws -> CountStandaloneOccurrences (buildTrie ws) W = 0)
  /\ (findNode W (root (buildTrie ws)) = None ->
      CountStandaloneOccurrences (buildTrie ws) W = 0).
Proof.
  intros Hlen.
  assert (Heq : CountStandaloneOccurrences (buildTrie ws) W = timesInserted W ws).
  { rewrite standalone_buildTrie. apply (small_count _ ws Hlen).
    pose proof (timesInserted_bounds W ws). pose proof (wordsWithPrefix_bounds W ws). lia. }
  split; [exact Heq|split].
  - intros Hin. rewrite Heq. now apply timesInserted_absent.
  - intros Hnone. unfold CountStandaloneOccurrences. now rewrite Hnone.
Qed.

Lemma CountStandaloneOccurrences_witness :
  CountStandaloneOccurrences (buildTrie [[120]; [120; 97]; [120]]) [120]
  = timesInserted [120] [[120]; [120; 97]; [120]].
Proof.
  apply (CountStandaloneOccurrences_correct [[120]; [120; 97]; [120]] [120]).
  vm_compute. discriminate.
Defined.

(** C1: in a trie built from the empty trie by a sequence of [Insert] calls,
    [CountWordsWithPrefix P] is the number of inserted words that have [P] as
    a prefix, [P] itself included, and it is 0 when the path of [P] is not in
    the trie.  The sequence is shorter than 2^63. *)
Theorem CountWordsWithPrefix_correct (ws : list word) (P : word) :
  len ws <= max_int ->
  CountWordsWithPrefix (buildTrie ws) P = wordsWithPrefix P ws
  /\ (findNode P (root (buildTrie ws)) = None ->
      CountWordsWithPrefix (buildTrie ws) P = 0).
Proof.
  intros Hlen. split.
  - rewrite prefix_buildTrie. apply (small_count _ ws Hlen).
    apply wordsWithPrefix_bounds.
  - intros Hnone. unfold CountWordsWithPrefix. now rewrite Hnone.
Qed.

Lemma CountWordsWithPrefix_witness :
  CountWordsWithPrefix (buildTrie [[120]; [120; 97]; [98]; [120; 97; 98]]) [120; 97]
  = wordsWithPrefix [120; 97] [[120]; [120; 97]; [98]; [120; 97; 98]].
Proof.
  apply (CountWordsWithPrefix_correct [[120]; [120; 97]; [98]; [120; 97; 98]] [120; 97]).
  vm_compute. discriminate.
Defined.

(** ** Following characters *)

Section FollowingFacts.

Implicit Types (node : TrieNode) (t : Trie) (p : word) (ws : list word).

(** The map built by the loop of [collectFollowingChars] holds the subtree
    total of each child. *)
Lemma followingChars_children (ch : gmap Z TrieNode) :
  map_fold (fun childChar childNode (acc : gmap Z Z) =>
              <[childChar := countWordsInSubTrie childNode]> acc) ∅ ch
  = countWordsInSubTrie <$> ch.
Proof.
  apply (map_fold_weak_ind (fun r m => r = countWordsInSubTrie <$> m)).
  - now rewrite fmap_empty.
  - intros i x m r _ ->. now rewrite fmap_insert.
Qed.

Lemma collectFollowingChars_eq t p :
  collectFollowingChars t p =
  match findNode p (root t) with
  | Some node => countWordsInSubTrie <$> children node
  | None => ∅
  end.
Proof.
  unfold collectFollowingChars. destruct (findNode p (root t)); [|reflexivity].
  apply followingChars_children.
Qed.

Lemma findNode_snoc p c : forall node,
  findNode (p ++ [c]) node =
  match findNode p node with Some n => children n !! c | None => None end.
Proof.
  induction p as [|a p IH]; intros node; simpl.
  - destruct (children node !! c); reflexivity.
  - destruct (children node !! a); [apply IH|reflexivity].
Qed.

Lemma collectFollowingChars_lookup t p c :
  collectFollowingChars t p !! c =
  countWordsInSubTrie <$> findNode (p ++ [c]) (root t).
Proof.
  rewrite collectFollowingChars_eq, findNode_snoc.
  destruct (findNode p (root t)); [apply lookup_fmap|apply lookup_empty].
Qed.

Lemma totalFollowing_range (m : gmap Z Z) : in_range (totalFollowing m).
Proof.
  apply (map_fold_weak_ind (fun r _ => in_range r)).
  - unfold in_range, min_int, max_int. lia.
  - intros. apply wrap64_range.
Qed.

(** The subtree total of a node is its own count plus the total of the
    following characters, modulo 2^64. *)
Lemma countWordsInSubTrie_split node :
  wrap64 (countWordsInSubTrie node) =
  wrap64 (endOfWordCount node
          + totalFollowing (countWordsInSubTrie <$> children node)).
Proof.
  rewrite countWordsInSubTrie_eq. unfold totalFollowing. rewrite map_fold_fmap.
  set (f := fun (_ : Z) child count => wrap64 (count + countWordsInSubTrie child)).
  change (wrap64 (map_fold f (endOfWordCount node) (children node)) =
          wrap64 (endOfWordCount node + map_fold f 0 (children node))).
  assert (Hcomm : forall (j1 j2 : Z) z1 z2 y, f j1 z1 (f j2 z2 y) = f j2 z2 (f j1 z1 y)).
  { intros. apply wrap64_add_swap. }
  generalize (endOfWordCount node) as e. intros e.
  induction (children node) as [|i x m Hi IH] using map_ind.
  - rewrite !map_fold_empty. f_equal. lia.
  - rewrite !map_fold_insert_L; try (intros; apply Hcomm); try exact Hi.
    unfold f at 1 3. rewrite wrap64_idemp, wrap64_add_r.
    rewrite <- wrap64_add_l, IH, wrap64_add_l. f_equal. lia.
Qed.

(** In a built trie the total of the following characters of [p] is the
    number of inserted words that go on after [p], modulo 2^64. *)
Lemma totalFollowing_buildTrie ws p :
  totalFollowing (collectFollowingChars (buildTrie ws) p)
  = wrap64 (wordsFollowing p ws).
Proof.
  pose proof (standalone_buildTrie ws p) as Hs.
  pose proof (prefix_buildTrie ws p) as Hp.
  unfold CountStandaloneOccurrences, CountWordsWithPrefix in Hs, Hp.
  rewrite collectFollowingChars_eq. unfold wordsFollowing.
  destruct (findNode p (root (buildTrie ws))) as [node|].
  - rewrite <- (wrap64_id _ (totalFollowing_range _)).
    pose proof (countWordsInSubTrie_split node) as Hsplit.
    transitivity (wrap64 (countWordsInSubTrie node - endOfWordCount node)).
    + rewrite <- wrap64_sub_l, Hsplit, wrap64_sub_l. f_equal; lia.
    + rewrite Hs, Hp, wrap64_sub_l, wrap64_sub_r. reflexivity.
  - rewrite <- wrap64_sub_r, <- Hs, <- wrap64_sub_l, <- Hp. reflexivity.
Qed.

End FollowingFacts.

(** C10: in a trie built from the empty trie by [Insert] calls (fewer than
    2^63 of them), when the map returned by [collectFollowingChars] for a
    prefix is not empty, every count in it is at least 1 and the sum of the
    counts, the divisor of the Outlier Detector, is at least 1: it is the
    number of inserted words that go on after the prefix. *)
Theorem totalFollowing_positive (ws : list word) (prefix : word) :
  len ws <= max_int ->
  collectFollowingChars (buildTrie ws) prefix <> ∅ ->
  (forall c count,
     collectFollowingChars (buildTrie ws) prefix !! c = Some count -> 1 <= count)
  /\ totalFollowing (collectFollowingChars (buildTrie ws) prefix)
     = wordsFollowing prefix ws
  /\ 1 <= totalFollowing (collectFollowingChars (buildTrie ws) prefix).
Proof.
  intros Hlen Hne.
  assert (Hchild : forall c count,
    collectFollowingChars (buildTrie ws) prefix !! c = Some count ->
    count = wordsWithPrefix (prefix ++ [c]) ws /\
    exists w, In w ws /\ isPrefixOf (prefix ++ [c]) w = true).
  { intros c count Hc. rewrite collectFollowingChars_lookup in Hc.
    pose proof (prefix_buildTrie ws (prefix ++ [c])) as Hp.
    unfold CountWordsWithPrefix in Hp.
    pose proof (findNode_buildTrie ws (prefix ++ [c])) as Hfind.
    destruct (findNode (prefix ++ [c]) (root (buildTrie ws))) as [n|]; [|discriminate].
    injection Hc as <-. split.
    - rewrite Hp. apply (small_count _ ws Hlen), wordsWithPrefix_bounds.
    - destruct Hfind as [Hnil|Hw]; [now eexists| |exact Hw].
      destruct prefix; discriminate. }
  assert (Htotal : totalFollowing (collectFollowingChars (buildTrie ws) prefix)
                   = wordsFollowing prefix ws).
  { rewrite totalFollowing_buildTrie.
    apply (small_count _ ws Hlen), wordsFollowing_bounds. }
  split; [|split; [exact Htotal|]].
  - intros c count Hc. destruct (Hchild c count Hc) as [-> (w & Hin & Hw)].
    eapply wordsWithPrefix_pos; eassumption.
  - rewrite Htotal.
    destruct (map_choose _ Hne) as (c & count & Hc).
    destruct (Hchild c count Hc) as [_ (w & Hin & Hw)].
    eapply wordsFollowing_pos; eassumption.
Qed.

Lemma totalFollowing_positive_witness :
  1 <= totalFollowing
         (collectFollowingChars (buildTrie [[120]; [120; 97]; [120; 98]]) [120]).
Proof.
  apply (totalFollowing_positive [[120]; [120; 97]; [120; 98]] [120]).
  - vm_compute. discriminate.
  - intros H. apply (f_equal (fun m : gmap Z Z => m !! 97)) in H.
    vm_compute in H. discriminate.
Defined.

(** ** The order of [float64] *)

Section FloatOrder.

Local Open Scope float_scope.

Lemma compare_cont_Eq m1 m2 : PosDef.Pos.compare_cont Eq m1 m2 = Pos.compare m1 m2.
Proof. reflexivity. Qed.

(** Case analysis on every comparison of exponents and mantissas in sight. *)
Ltac compare_cases :=
  repeat first
    [ progress rewrite ?compare_cont_Eq in *
    | match goal with
      | |- context [Z.compare ?a ?b] => destruct (Z.compare_spec a b); subst
      | H : context [Z.compare ?a ?b] |- _ => destruct (Z.compare_spec a b); subst
      | |- context [Pos.compare ?a ?b] => destruct (Pos.compare_spec a b); subst
      | H : context [Pos.compare ?a ?b] |- _ => destruct (Pos.compare_spec a b); subst
      end ];
  simpl in *; try congruence; try lia; auto.

Ltac by_spec_cases3 x y z :=
  unfold SFltb, SFleb, SFcompare;
  destruct x as [[]|[]| |[] ?m ?e], y as [[]|[]| |[] ?m ?e], z as [[]|[]| |[] ?m ?e];
  try (intros; congruence); intros; compare_cases.

Ltac by_spec_cases2 x y :=
  unfold SFltb, SFleb, SFcompare;
  destruct x as [[]|[]| |[] ?m ?e], y as [[]|[]| |[] ?m ?e];
  try (intros; congruence); intros; compare_cases.

Lemma SFltb_trans x y z : SFltb x y = true -> SFltb y z = true -> SFltb x z = true.
Proof. by_spec_cases3 x y z. Qed.

Lemma SFltb_leb_trans x y z : SFltb x y = true -> SFleb y z = true -> SFltb x z = true.
Proof. by_spec_cases3 x y z. Qed.

Lemma SFltb_asym x y : SFltb x y = true -> SFltb y x = false.
Proof. by_spec_cases2 x y. Qed.

Lemma SFltb_leb_false x y : SFltb x y = true -> SFleb y x = false.
Proof. by_spec_cases2 x y. Qed.

Lemma ltb_trans x y z : (x <? y) = true -> (y <? z) = true -> (x <? z) = true.
Proof. rewrite !FloatAxioms.ltb_spec. apply SFltb_trans. Qed.

Lemma ltb_leb_trans x y z : (x <? y) = true -> (y <=? z) = true -> (x <? z) = true.
Proof. rewrite !FloatAxioms.ltb_spec, FloatAxioms.leb_spec. apply SFltb_leb_trans. Qed.

Lemma ltb_asym x y : (x <? y) = true -> (y <? x) = false.
Proof. rewrite !FloatAxioms.ltb_spec. apply SFltb_asym. Qed.

Lemma ltb_leb_false x y : (x <? y) = true -> (y <=? x) = false.
Proof. rewrite FloatAxioms.ltb_spec, FloatAxioms.leb_spec. apply SFltb_leb_false. Qed.

(** [x < a] and [b < x] cannot both hold when [b < a] does not. *)
Lemma ltb_between_false x a b :
  (b <? a) = false -> (x <? a) = true -> (b <? x) = false.
Proof.
  intros Hba Hxa. destruct (b <? x) eqn:Hbx; [|reflexivity].
  rewrite (ltb_trans b x a Hbx Hxa) in Hba. discriminate.
Qed.

Lemma leb_between_false x a b :
  (b <? a) = false -> (b <? x) = true -> (x <=? a) = false.
Proof.
  intros Hba Hbx. destruct (x <=? a) eqn:Hxa; [|reflexivity].
  rewrite (ltb_leb_trans b x a Hbx Hxa) in Hba. discriminate.
Qed.

End FloatOrder.

(** ** The ratio curve *)

(** C5: [calcCurve] flags a pair exactly when the follow-up count is below
    the minimum of the piecewise curve: never below 3000 standalone
    occurrences; minimum 1 from 3000 to 5000; [standalone/500 - 10] above
    5000 and up to 20000; [standalone/120 - 135] above 20000.  At 3000 a
    follow-up count of 0 is flagged and 1 is not; 20000 is on the middle
    branch, whose minimum there is 30. *)
Theorem calcCurve_piecewise (standalone followup : float) :
  ((standalone <? 3000)%float = true -> calcCurve standalone followup = false)
  /\ ((3000 <=? standalone)%float = true -> (standalone <=? 5000)%float = true ->
      calcCurve standalone followup = (followup <? 1)%float)
  /\ ((5000 <? standalone)%float = true -> (standalone <=? 20000)%float = true ->
      calcCurve standalone followup = (followup <? standalone / 500 - 10)%float)
  /\ ((20000 <? standalone)%float = true ->
      calcCurve standalone followup = (followup <? standalone / 120 - 135)%float)
  /\ calcCurve 3000 0 = true /\ calcCurve 3000 1 = false
  /\ calcCurve 2999 followup = false
  /\ (20000 / 500 - 10)%float = 30%float
  /\ calcCurve 20000 followup = (followup <? 30)%float.
Proof.
  unfold calcCurve. repeat split.
  - intros H.
    rewrite (ltb_leb_false _ _ H).
    rewrite (ltb_between_false standalone 3000 5000 eq_refl H).
    rewrite (ltb_between_false standalone 3000 20000 eq_refl H).
    reflexivity.
  - intros H1 H2. now rewrite H1, H2.
  - intros H1 H2. now rewrite (ltb_leb_false _ _ H1), H1, H2, andb_false_r.
  - intros H.
    rewrite (leb_between_false standalone 5000 20000 eq_refl H).
    rewrite (ltb_leb_false _ _ H), H. now rewrite !andb_false_r.
Qed.

Lemma calcCurve_piecewise_witness :
  calcCurve 2000 5 = false
  /\ calcCurve 4000 0 = (0 <? 1)%float
  /\ calcCurve 10000 9 = (9 <? 10000 / 500 - 10)%float
  /\ calcCurve 30000 100 = (100 <? 30000 / 120 - 135)%float.
Proof.
  split; [|split; [|split]].
  - apply (calcCurve_piecewise 2000 5); reflexivity.
  - apply (calcCurve_piecewise 4000 0); reflexivity.
  - apply (calcCurve_piecewise 10000 9); reflexivity.
  - apply (calcCurve_piecewise 30000 100); reflexivity.
Defined.

(** ** Percentiles *)

Section PercentileFacts.

Lemma insertFloat64_length x l : length (insertFloat64 x l) = S (length l).
Proof.
  induction l as [|y l IH]; simpl; [reflexivity|].
  destruct (float64Less x y); simpl; [reflexivity|now rewrite IH].
Qed.

Lemma SortFloat64s_length l : length (SortFloat64s l) = length l.
Proof.
  induction l as [|x l IH]; simpl; [reflexivity|].
  now rewrite insertFloat64_length, IH.
Qed.

Lemma calculatePercentile_index (data : list float) (percentile : Z) :
  data <> [] -> 0 <= percentile -> percentile * len data <= max_int ->
  calculatePercentile data percentile
  = data !! Z.to_nat (nearestRank percentile (len data))
  /\ 0 <= nearestRank percentile (len data) < len data.
Proof.
  intros Hne Hp Hmax. unfold calculatePercentile, nearestRank.
  assert (Hlen : 0 < len data).
  { unfold len. destruct data; [congruence|simpl; lia]. }
  assert (Hprod : 0 <= percentile * len data) by lia.
  rewrite (wrap64_id (percentile * len data)) by (unfold in_range, min_int; lia).
  rewrite Z.quot_div_nonneg by lia.
  pose proof (Z.div_pos (percentile * len data) 100 Hprod ltac:(lia)) as Hq.
  pose proof (Z.div_le_upper_bound (percentile * len data) 100
                (percentile * len data) ltac:(lia) ltac:(lia)) as Hle.
  destruct (Z.geb_spec (percentile * len data / 100) (len data)) as [Hge|Hlt].
  - rewrite (wrap64_id (len data - 1)) by (unfold in_range, min_int; lia).
    rewrite Z.min_r by lia.
    destruct (Z.ltb_spec (len data - 1) 0); [lia|]. split; [reflexivity|lia].
  - rewrite Z.min_l by lia.
    destruct (Z.ltb_spec (percentile * len data / 100) 0); [lia|].
    split; [reflexivity|lia].
Qed.

(** The two bounds of a character are read from its sorted samples at the
    nearest ranks of the percentiles 5 and 95. *)
Lemma characterRange_bounds (percentages : list float) :
  percentages <> [] -> 95 * len percentages <= max_int ->
  exists lower upper,
    characterRange percentages
    = Some (mkCharRange (calculateAverage (SortFloat64s percentages)) lower upper)
    /\ SortFloat64s percentages !! Z.to_nat (nearestRank 5 (len percentages))
       = Some lower
    /\ SortFloat64s percentages !! Z.to_nat (nearestRank 95 (len percentages))
       = Some upper.
Proof.
  intros Hne Hmax.
  assert (Hlen : len (SortFloat64s percentages) = len percentages).
  { unfold len. now rewrite SortFloat64s_length. }
  assert (Hsorted : SortFloat64s percentages <> []).
  { intros H. rewrite H in Hlen. destruct percentages; [congruence|discriminate]. }
  pose proof (len_nonneg percentages) as Hnonneg.
  destruct (calculatePercentile_index (SortFloat64s percentages) 5 Hsorted)
    as [H5 Hi5]; [lia|rewrite Hlen; lia|].
  destruct (calculatePercentile_index (SortFloat64s percentages) 95 Hsorted)
    as [H95 Hi95]; [lia|rewrite Hlen; lia|].
  rewrite Hlen in *.
  destruct (lookup_lt_is_Some_2 (SortFloat64s percentages)
              (Z.to_nat (nearestRank 5 (len percentages)))) as [lower Hlower].
  { rewrite SortFloat64s_length. unfold len in *. lia. }
  destruct (lookup_lt_is_Some_2 (SortFloat64s percentages)
              (Z.to_nat (nearestRank 95 (len percentages)))) as [upper Hupper].
  { rewrite SortFloat64s_length. unfold len in *. lia. }
  exists lower, upper. unfold characterRange.
  rewrite H5, H95, Hlower, Hupper. simpl. auto.
Qed.

End PercentileFacts.

(** C6: for a non-empty sample list of length N and a percentile p, the
    bound that [calculatePercentile] returns is the element at the
    nearest-rank index [floor (p * N / 100)], clamped to [N - 1]; it is an
    element of the list, not an interpolation.  For the sorted samples
    1..10 the 5th percentile is 1, at index 0, and the 95th is 10, at
    index 9, and these are the bounds that [calculateAverageAndRange]
    computes for a character with these ten samples. *)
Theorem calculatePercentile_nearest_rank (data : list float) (percentile : Z) :
  data <> [] -> 0 <= percentile -> percentile * len data <= max_int ->
  (exists value,
     calculatePercentile data percentile = Some value
     /\ data !! Z.to_nat (Z.min (percentile * len data / 100) (len data - 1))
        = Some value
     /\ In value data)
  /\ calculatePercentile [1; 2; 3; 4; 5; 6; 7; 8; 9; 10]%float 5 = Some 1%float
  /\ nearestRank 5 10 = 0
  /\ calculatePercentile [1; 2; 3; 4; 5; 6; 7; 8; 9; 10]%float 95 = Some 10%float
  /\ nearestRank 95 10 = 9
  /\ characterRange [3; 9; 1; 7; 5; 10; 2; 8; 4; 6]%float
     = Some (mkCharRange 5.5 1 10).
Proof.
  intros Hne Hp Hmax. split; [|repeat split].
  destruct (calculatePercentile_index data percentile Hne Hp Hmax) as [Heq Hidx].
  unfold nearestRank in *.
  destruct (lookup_lt_is_Some_2 data
              (Z.to_nat (Z.min (percentile * len data / 100) (len data - 1))))
    as [value Hvalue].
  { unfold len in *. lia. }
  exists value. rewrite Heq. repeat split; try exact Hvalue.
  apply list_elem_of_In. eapply list_elem_of_lookup_2. exact Hvalue.
Qed.

Lemma calculatePercentile_nearest_rank_witness :
  exists value,
    calculatePercentile [10; 20; 30]%float 50 = Some value
    /\ [10; 20; 30]%float !! Z.to_nat (Z.min (50 * len [10; 20; 30]%float / 100)
                                             (len [10; 20; 30]%float - 1))
       = Some value
    /\ In value [10; 20; 30]%float.
Proof.
  apply (calculatePercentile_nearest_rank [10; 20; 30]%float 50).
  - discriminate.
  - lia.
  - vm_compute. discriminate.
Defined.

(** ** Sorting the samples *)

Section SortFacts.

Local Open Scope float_scope.

Lemma is_nan_spec x : PrimFloat.is_nan x = SFisNan (Prim2SF x).
Proof.
  unfold PrimFloat.is_nan. rewrite FloatAxioms.eqb_spec. unfold SFeqb, SFcompare.
  destruct (Prim2SF x) as [[]|[]| |[] m e]; try reflexivity;
    rewrite Z.compare_refl, compare_cont_Eq, Pos.compare_refl; reflexivity.
Qed.

Lemma float64Less_spec x y : float64Less x y = SFless (Prim2SF x) (Prim2SF y).
Proof. unfold float64Less, SFless. now rewrite FloatAxioms.ltb_spec, !is_nan_spec. Qed.

Lemma SFless_trichotomy x y :
  x <> S754_zero true -> y <> S754_zero true ->
  SFless x y = true \/ x = y \/ SFless y x = true.
Proof.
  unfold SFless, SFltb, SFcompare.
  destruct x as [[]|[]| |[] mx ex], y as [[]|[]| |[] my ey]; simpl; intros Hx Hy;
    try congruence; try (now left); try (now right; left); try (now right; right);
    repeat first
      [ progress rewrite ?compare_cont_Eq
      | match goal with
        | |- context [Z.compare ?a ?b] => destruct (Z.compare_spec a b); subst
        | |- context [Pos.compare ?a ?b] => destruct (Pos.compare_spec a b); subst
        end ];
    simpl; try lia; auto.
Qed.

Lemma SFltb_not_nan x y : SFltb x y = true -> SFisNan x = false /\ SFisNan y = false.
Proof.
  unfold SFltb, SFcompare.
  destruct x as [[]|[]| |[] mx ex], y as [[]|[]| |[] my ey]; simpl;
    intros; try discriminate; now split.
Qed.

Lemma SFless_trans x y z : SFless x y = true -> SFless y z = true -> SFless x z = true.
Proof.
  unfold SFless. intros Hxy Hyz.
  apply orb_true_iff in Hxy as [Hxy|Hxy], Hyz as [Hyz|Hyz].
  - now rewrite (SFltb_trans _ _ _ Hxy Hyz).
  - apply SFltb_not_nan in Hxy as [_ Hy]. rewrite Hy in Hyz. discriminate.
  - apply SFltb_not_nan in Hyz as [_ Hz]. apply andb_true_iff in Hxy as [Hx _].
    rewrite Hx, Hz. apply orb_true_r.
  - apply andb_true_iff in Hxy as [_ Hy], Hyz as [Hy' _].
    rewrite Hy' in Hy. discriminate.
Qed.

Lemma SFless_asym x y : SFless x y = true -> SFless y x = false.
Proof.
  unfold SFless. intros Hxy. apply orb_true_iff in Hxy as [Hxy|Hxy].
  - rewrite (SFltb_asym _ _ Hxy). apply SFltb_not_nan in Hxy as [_ Hy].
    now rewrite Hy.
  - apply andb_true_iff in Hxy as [Hx Hy].
    destruct x; try discriminate. destruct y as [[]|[]| |[] m e]; try discriminate;
      reflexivity.
Qed.

Lemma Prim2SF_negZero x : Prim2SF x = S754_zero true -> x = negZero.
Proof. intros H. apply Prim2SF_inj. now rewrite H. Qed.

Lemma float64Less_trichotomy x y :
  x <> negZero -> y <> negZero ->
  float64Less x y = true \/ x = y \/ float64Less y x = true.
Proof.
  intros Hx Hy. rewrite !float64Less_spec.
  destruct (SFless_trichotomy (Prim2SF x) (Prim2SF y)) as [H|[H|H]]; auto.
  - intros H. now apply Hx, Prim2SF_negZero.
  - intros H. now apply Hy, Prim2SF_negZero.
  - right; left. now apply Prim2SF_inj.
Qed.

Lemma float64Less_trans x y z :
  float64Less x y = true -> float64Less y z = true -> float64Less x z = true.
Proof. rewrite !float64Less_spec. apply SFless_trans. Qed.

Lemma float64Less_asym x y : float64Less x y = true -> float64Less y x = false.
Proof. rewrite !float64Less_spec. apply SFless_asym. Qed.

(** Two insertions into the same slice commute. *)
Lemma insertFloat64_comm x y : x <> negZero -> y <> negZero -> forall l,
  insertFloat64 x (insertFloat64 y l) = insertFloat64 y (insertFloat64 x l).
Proof.
  intros Hx Hy.
  assert (Hpair : forall a b, float64Less a b = true ->
            insertFloat64 a [b] = [a; b] /\ insertFloat64 b [a] = [a; b]).
  { intros a b Hab. simpl. now rewrite Hab, (float64Less_asym _ _ Hab). }
  induction l as [|a l IH].
  - destruct (float64Less_trichotomy x y Hx Hy) as [H|[->|H]]; [|reflexivity|].
    + destruct (Hpair x y H) as [H1 H2]. simpl in *. congruence.
    + destruct (Hpair y x H) as [H1 H2]. simpl in *. congruence.
  - simpl.
    destruct (float64Less y a) eqn:Hya, (float64Less x a) eqn:Hxa; simpl.
    + rewrite Hya, Hxa.
      destruct (float64Less_trichotomy x y Hx Hy) as [H|[->|H]]; [|reflexivity|].
      * now rewrite H, (float64Less_asym _ _ H).
      * now rewrite H, (float64Less_asym _ _ H).
    + rewrite Hya, Hxa.
      destruct (float64Less x y) eqn:Hxy; [|reflexivity].
      rewrite (float64Less_trans _ _ _ Hxy Hya) in Hxa. discriminate.
    + rewrite Hya, Hxa.
      destruct (float64Less y x) eqn:Hyx; [|reflexivity].
      rewrite (float64Less_trans _ _ _ Hyx Hxa) in Hya. discriminate.
    + now rewrite Hya, Hxa, IH.
Qed.

Lemma noNegZero_Permutation l1 l2 :
  Permutation l1 l2 -> noNegZero l1 -> noNegZero l2.
Proof. intros Hperm. unfold noNegZero. now rewrite Hperm. Qed.

(** The sorted slice depends on the samples only, not on their order. *)
Lemma SortFloat64s_Permutation l1 l2 :
  Permutation l1 l2 -> noNegZero l1 -> SortFloat64s l1 = SortFloat64s l2.
Proof.
  induction 1 as [|x l1 l2 Hperm IH|x y l|l1 l2 l3 H12 IH12 H23 IH23]; intros Hnz.
  - reflexivity.
  - simpl. f_equal. apply IH. now inversion Hnz.
  - simpl. inversion Hnz as [|? ? Hy Hrest]; subst.
    inversion Hrest as [|? ? Hx _]; subst.
    now apply insertFloat64_comm.
  - rewrite IH12 by exact Hnz. apply IH23.
    now apply (noNegZero_Permutation l1).
Qed.

Lemma characterRange_Permutation l1 l2 :
  Permutation l1 l2 -> noNegZero l1 -> characterRange l1 = characterRange l2.
Proof.
  intros Hperm Hnz. unfold characterRange.
  now rewrite (SortFloat64s_Permutation l1 l2 Hperm Hnz).
Qed.

End SortFacts.

(** ** The aggregated samples *)

Section AggregatorFacts.

Lemma aggregateCharacterDistributions_lookup d total g c :
  aggregateCharacterDistributions d total g !! c =
  match d !! c with
  | Some count => Some (default [] (g !! c) ++ [percentageOf count total])
  | None => g !! c
  end.
Proof.
  unfold aggregateCharacterDistributions.
  apply (map_fold_weak_ind (fun r m =>
    r !! c = match m !! c with
             | Some count => Some (default [] (g !! c) ++ [percentageOf count total])
             | None => g !! c
             end)).
  - now rewrite lookup_empty.
  - intros i x m r Hi IH. destruct (decide (i = c)) as [->|Hne].
    + rewrite !lookup_insert_eq. rewrite Hi in IH. now rewrite IH.
    + now rewrite !lookup_insert_ne by exact Hne.
Qed.

Lemma aggregateAll_lookup calls : forall g c,
  aggregateAll calls g !! c =
  match samplesFor c calls with
  | [] => g !! c
  | _ :: _ => Some (default [] (g !! c) ++ samplesFor c calls)
  end.
Proof.
  induction calls as [|[d total] calls IH]; intros g c; [reflexivity|].
  change (aggregateAll ((d, total) :: calls) g)
    with (aggregateAll calls (aggregateCharacterDistributions d total g)).
  rewrite IH, aggregateCharacterDistributions_lookup. simpl.
  destruct (d !! c) as [count|]; simpl.
  - destruct (samplesFor c calls); simpl; [reflexivity|].
    now rewrite <- app_assoc.
  - reflexivity.
Qed.

Lemma samplesFor_Permutation c calls1 calls2 :
  Permutation calls1 calls2 -> Permutation (samplesFor c calls1) (samplesFor c calls2).
Proof. apply Permutation_flat_map. Qed.

Lemma ltb_zero_negZero x : PrimFloat.ltb 0 x = true -> x <> negZero.
Proof. intros H ->. discriminate H. Qed.

Lemma samplesFor_noNegZero c calls :
  positiveSamples calls -> noNegZero (samplesFor c calls).
Proof.
  unfold positiveSamples, noNegZero, samplesFor.
  induction 1 as [|[d total] calls Hd _ IH]; simpl; [constructor|].
  apply Forall_app. split; [|exact IH].
  destruct (d !! c) as [count|] eqn:Hc; constructor; [|constructor].
  apply ltb_zero_negZero. exact (Hd c count Hc).
Qed.

(** [calculateAverageAndRange] reads the samples through [characterRange]
    only. *)
Lemma calculateAverageAndRange_fmap g :
  calculateAverageAndRange g =
  map_fold (fun char (o : option CharRange) result =>
              r ← result; s ← o; Some (<[char := s]> r))
           (Some ∅) (characterRange <$> g).
Proof. unfold calculateAverageAndRange. now rewrite map_fold_fmap. Qed.

Lemma calculateAverageAndRange_calls calls1 calls2 :
  Permutation calls1 calls2 -> positiveSamples calls1 ->
  calculateAverageAndRange (aggregateAll calls1 ∅)
  = calculateAverageAndRange (aggregateAll calls2 ∅).
Proof.
  intros Hperm Hpos. rewrite !calculateAverageAndRange_fmap. f_equal.
  apply map_eq. intros c. rewrite !lookup_fmap, !aggregateAll_lookup.
  pose proof (samplesFor_Permutation c _ _ Hperm) as Hc.
  pose proof (samplesFor_noNegZero c _ Hpos) as Hnz.
  destruct (samplesFor c calls1) as [|x l1] eqn:H1.
  - apply Permutation_nil in Hc. now rewrite Hc.
  - destruct (samplesFor c calls2) as [|y l2] eqn:H2.
    + apply Permutation_sym, Permutation_nil in Hc. discriminate.
    + rewrite lookup_empty. simpl. f_equal.
      now apply characterRange_Permutation.
Qed.

Lemma fold_aggregatePrefix passTrie prefixes : forall g,
  fold_left (aggregatePrefix passTrie) prefixes g =
  aggregateAll
    (flat_map (fun prefix =>
                 let followingCharCount := collectFollowingChars passTrie prefix in
                 let totalFollowingCount := totalFollowing followingCharCount in
                 if 0 <? totalFollowingCount
                 then [(followingCharCount, totalFollowingCount)] else [])
              prefixes) g.
Proof.
  induction prefixes as [|prefix prefixes IH]; intros g; simpl; [reflexivity|].
  unfold aggregateAll in *. rewrite fold_left_app, IH. f_equal.
  unfold aggregatePrefix.
  destruct (0 <? totalFollowing (collectFollowingChars passTrie prefix));
    reflexivity.
Qed.

(** The walk of [ScanForCharacterDistributions] makes the calls of
    [scanCalls], entry after entry, and its callback returns no error. *)
Lemma Walk_scanDistributions T entries : forall s,
  Walk (scanDistributionsFn T) entries s =
  (mkScan (aggregateAll (flat_map (scanCalls T) entries) (globalCharDistributions s))
          (scanTrace s ++ flat_map walkEvents entries), None).
Proof.
  induction entries as [|e entries IH]; intros s; simpl.
  - rewrite app_nil_r. now destruct s.
  - unfold scanDistributionsFn at 1, scanCalls at 1, walkEvents at 1.
    destruct (accessErr e); simpl.
    { rewrite IH. simpl. now rewrite <- app_assoc. }
    destruct (HasSuffix (Name e) passwordsSuffix); [|apply IH].
    destruct (LoadCredentialsFromFile (path e) (content e) NewTrie)
      as [passTrie diags]; simpl.
    rewrite IH. simpl. unfold aggregateAll at 2.
    rewrite fold_left_app, fold_aggregatePrefix, <- app_assoc. reflexivity.
Qed.

End AggregatorFacts.

(** C8: the Global Baseline does not depend on the order in which the
    samples were appended.  When the corpus files are walked in another
    order, [ScanForCharacterDistributions] completes with the same
    averages and lower and upper bounds for every character; the samples
    are percentages above zero. *)
Theorem baseline_order_independent (occurrenceThreshold : Z)
    (srcDir1 srcDir2 : list WalkEntry) :
  Permutation srcDir1 srcDir2 ->
  positiveSamples (flat_map (scanCalls occurrenceThreshold) srcDir1) ->
  exists trace1 trace2 baseline,
    ScanForCharacterDistributions srcDir1 occurrenceThreshold
    = Completed trace1 baseline
    /\ ScanForCharacterDistributions srcDir2 occurrenceThreshold
       = Completed trace2 baseline.
Proof.
  intros Hperm Hpos. unfold ScanForCharacterDistributions.
  rewrite !Walk_scanDistributions.
  do 3 eexists. split; [reflexivity|]. simpl. f_equal.
  symmetry. apply calculateAverageAndRange_calls; [|exact Hpos].
  now apply Permutation_flat_map.
Qed.

Lemma baseline_order_independent_witness :
  exists trace1 trace2 baseline,
    ScanForCharacterDistributions
      [mkEntry "d/a_passwords.txt" "a_passwords.txt" false
         (Opened [[117; 58; 120]; [117; 58; 120]; [117; 58; 120; 97];
                  [117; 58; 120; 98]] false);
       mkEntry "d/b_passwords.txt" "b_passwords.txt" false
         (Opened [[118; 58; 121]; [118; 58; 121]; [118; 58; 121; 97];
                  [118; 58; 121; 97]; [118; 58; 121; 97]] false)] 1
    = Completed trace1 baseline
    /\ ScanForCharacterDistributions
         [mkEntry "d/b_passwords.txt" "b_passwords.txt" false
            (Opened [[118; 58; 121]; [118; 58; 121]; [118; 58; 121; 97];
                     [118; 58; 121; 97]; [118; 58; 121; 97]] false);
          mkEntry "d/a_passwords.txt" "a_passwords.txt" false
            (Opened [[117; 58; 120]; [117; 58; 120]; [117; 58; 120; 97];
                     [117; 58; 120; 98]] false)] 1
       = Completed trace2 baseline.
Proof.
  apply baseline_order_independent.
  - apply perm_swap.
  - apply (bool_decide_unpack _). vm_compute. exact I.
Defined.

(** ** The outlier detector *)

Section DetectorFacts.

Local Open Scope float_scope.

Lemma findOutliers_spec G (followingCharCount : gmap Z Z) total :
  (forall c v,
     In (c, v) (findOutliers G followingCharCount total).2 <->
     exists count,
       followingCharCount !! c = Some count
       /\ isOutlier G c count total
       /\ v = observedOf count total * 100)
  /\ ((findOutliers G followingCharCount total).1 = true <->
      (findOutliers G followingCharCount total).2 <> []).
Proof.
  unfold findOutliers.
  apply (map_fold_weak_ind (fun (acc : bool * list (Z * float)) (m : gmap Z Z) =>
    (forall c v,
       In (c, v) acc.2 <->
       exists count, m !! c = Some count /\ isOutlier G c count total
                     /\ v = observedOf count total * 100)
    /\ (acc.1 = true <-> acc.2 <> []))).
  - split.
    + intros c v. simpl. split; [tauto|].
      intros (count & H & _). rewrite lookup_empty in H. discriminate.
    + simpl. split; [discriminate|congruence].
  - intros i x m [found chars] Hi [IHin IHfound]. simpl in *.
    assert (Hold : forall c v,
      (exists count, m !! c = Some count /\ isOutlier G c count total
                     /\ v = observedOf count total * 100) ->
      exists count, <[i:=x]> m !! c = Some count /\ isOutlier G c count total
                    /\ v = observedOf count total * 100).
    { intros c v (count & Hc & Hrest). exists count. split; [|exact Hrest].
      rewrite lookup_insert_ne; [exact Hc|]. intros ->. congruence. }
    assert (Hskip : ~ isOutlier G i x total ->
      (forall c v,
         In (c, v) chars <->
         exists count, <[i:=x]> m !! c = Some count /\ isOutlier G c count total
                       /\ v = observedOf count total * 100)
      /\ (found = true <-> chars <> [])).
    { intros Hno. split; [|exact IHfound]. intros c v. rewrite IHin.
      split; [apply Hold|]. intros (count & Hc & Hout & Hv).
      destruct (decide (i = c)) as [->|Hne].
      - rewrite lookup_insert_eq in Hc. injection Hc as ->. contradiction.
      - rewrite lookup_insert_ne in Hc by exact Hne. now exists count. }
    unfold isDistributionOutlier.
    destruct (G !! i) as [stats|] eqn:HG.
    + destruct (MaxRange stats <? observedOf x total) eqn:Hmax.
      * destruct (0.005 <? observedOf x total) eqn:Hfloor.
        -- simpl. split.
           ++ intros c v. rewrite in_app_iff, IHin. simpl. split.
              ** intros [H|[H|[]]]; [now apply Hold|].
                 injection H as <- <-. exists x. rewrite lookup_insert_eq.
                 split; [reflexivity|]. split; [|reflexivity].
                 exists stats. auto.
              ** intros (count & Hc & Hout & Hv).
                 destruct (decide (i = c)) as [->|Hne].
                 --- rewrite lookup_insert_eq in Hc. injection Hc as ->.
                     right. left. now rewrite Hv.
                 --- rewrite lookup_insert_ne in Hc by exact Hne.
                     left. now exists count.
           ++ split; [|reflexivity]. intros _ H.
              now apply app_eq_nil in H as [_ H].
        -- apply Hskip. intros (stats' & Hs & _ & H). congruence.
      * apply Hskip. intros (stats' & Hs & H & _). congruence.
    + apply Hskip. intros (stats' & Hs & _). congruence.
Qed.

End DetectorFacts.

(** C3: in the Outlier Detector a following character of a prefix is an
    outlier exactly when its observed value is strictly above the upper
    bound that the baseline has for this character and strictly above the
    floor 0.005, that is 0.5%; a value equal to either bound is not above
    it.  A block is written for the prefix exactly when one of its following
    characters is an outlier. *)
Theorem outlier_strict_and_reported (G : gmap Z CharacterStats) (passTrie : Trie)
    (prefix : word) :
  let followingCharCount := collectFollowingChars passTrie prefix in
  let total := totalFollowing followingCharCount in
  (forall c,
     (exists v, In (c, v) (findOutliers G followingCharCount total).2) <->
     (exists count stats,
        followingCharCount !! c = Some count
        /\ G !! c = Some stats
        /\ (MaxRange stats <? observedOf count total)%float = true
        /\ (0.005 <? observedOf count total)%float = true))
  /\ (is_Some (reportPrefix G passTrie prefix) <->
      exists c v, In (c, v) (findOutliers G followingCharCount total).2)
  /\ (forall record,
        reportPrefix G passTrie prefix = Some record ->
        sp_outlierChars record = (findOutliers G followingCharCount total).2)
  /\ (forall c percentage stats,
        MaxRange stats = percentage ->
        isDistributionOutlier c percentage stats = false)
  /\ (0.005 <? 0.005)%float = false.
Proof.
  intros followingCharCount total.
  destruct (findOutliers_spec G followingCharCount total) as [Hin Hfound].
  split; [|split; [|split; [|split]]].
  - intros c. split.
    + intros (v & Hv). apply Hin in Hv as (count & Hc & (stats & HG & H1 & H2) & _).
      now exists count, stats.
    + intros (count & stats & Hc & HG & H1 & H2).
      exists (observedOf count total * 100)%float. apply Hin.
      exists count. split; [exact Hc|]. split; [now exists stats|reflexivity].
  - unfold reportPrefix. fold followingCharCount. fold total.
    destruct (findOutliers G followingCharCount total) as [found chars].
    simpl in *. destruct found.
    + split; [|now eexists]. intros _.
      destruct chars as [|[c v] chars]; [exfalso; now apply (proj1 Hfound eq_refl)|].
      exists c, v. now left.
    + split; [intros [? H]; discriminate|].
      intros (c & v & Hv). destruct chars; [destruct Hv|].
      assert (false = true) by (apply Hfound; discriminate). discriminate.
  - intros record. unfold reportPrefix. fold followingCharCount. fold total.
    destruct (findOutliers G followingCharCount total) as [found chars].
    destruct found; [|discriminate]. now intros [= <-].
  - intros c percentage stats Heq. unfold isDistributionOutlier. rewrite Heq.
    destruct (percentage <? percentage)%float eqn:H; [|reflexivity].
    now rewrite (ltb_asym _ _ H) in H.
  - reflexivity.
Qed.

(** C4, as stated, fails: the value that the Outlier Detector compares with
    the upper bound is [count/totalFollowing], without the factor 100 of the
    Distribution Aggregator.  With the words x, x, xa, xb the character a
    after x is observed at 0.5 by the detector and at 50 by the
    aggregator; against an upper bound of 0.6 the detector writes no
    block. *)
Lemma observed_is_not_percentage :
  let passTrie := buildTrie [[120]; [120]; [120; 97]; [120; 98]] in
  let followingCharCount := collectFollowingChars passTrie [120] in
  let total := totalFollowing followingCharCount in
  followingCharCount !! 97 = Some 1
  /\ total = 2
  /\ aggregatePrefix passTrie ∅ [120] !! 97 = Some [50%float]
  /\ observedOf 1 total = 0.5%float
  /\ observedOf 1 total <> percentageOf 1 total
  /\ reportPrefix {[ 97 := mkStats 0.3 0.1 0.6 ]} passTrie [120] = None.
Proof.
  vm_compute. repeat split.
  intros H. apply (f_equal (fun x => PrimFloat.ltb x 1)) in H.
  vm_compute in H. discriminate.
Qed.

(** C4, amended: for every trie, prefix and following character, the value
    that the Distribution Aggregator appends to the samples of the
    character is 100 times the value that the Outlier Detector compares
    with the upper bound and with the floor; the detector multiplies by 100
    only the value that it writes into the report. *)
Theorem percentage_is_observed_times_100 (passTrie : Trie) (prefix : word)
    (c count : Z) :
  let followingCharCount := collectFollowingChars passTrie prefix in
  let total := totalFollowing followingCharCount in
  followingCharCount !! c = Some count ->
  (forall g,
     aggregateCharacterDistributions followingCharCount total g !! c
     = Some (default [] (g !! c) ++ [(observedOf count total * 100)%float]))
  /\ (forall G,
        (exists v, In (c, v) (findOutliers G followingCharCount total).2) <->
        (exists stats,
           G !! c = Some stats
           /\ isDistributionOutlier c (observedOf count total) stats = true
           /\ (0.005 <? observedOf count total)%float = true))
  /\ (forall G v,
        In (c, v) (findOutliers G followingCharCount total).2 ->
        v = percentageOf count total).
Proof.
  intros followingCharCount total Hc. split; [|split].
  - intros g. rewrite aggregateCharacterDistributions_lookup, Hc. reflexivity.
  - intros G.
    destruct (findOutliers_spec G followingCharCount total) as [Hin _]. split.
    + intros (v & Hv). apply Hin in Hv as (count' & Hc' & Hout & _).
      rewrite Hc in Hc'. injection Hc' as <-. exact Hout.
    + intros Hout. exists (observedOf count total * 100)%float.
      apply Hin. now exists count.
  - intros G v Hv.
    destruct (findOutliers_spec G followingCharCount total) as [Hin _].
    apply Hin in Hv as (count' & Hc' & _ & ->).
    rewrite Hc in Hc'. injection Hc' as <-. reflexivity.
Qed.

Lemma percentage_is_observed_times_100_witness :
  aggregateCharacterDistributions
    (collectFollowingChars (buildTrie [[120]; [120; 97]; [120; 98]]) [120])
    (totalFollowing
       (collectFollowingChars (buildTrie [[120]; [120; 97]; [120; 98]]) [120]))
    ∅ !! 97
  = Some (default [] ((∅ : gmap Z (list float)) !! 97) ++
          [PrimFloat.mul
             (observedOf 1
                (totalFollowing
                   (collectFollowingChars
                      (buildTrie [[120]; [120; 97]; [120; 98]]) [120])))
             100%float]).
Proof.
  apply (percentage_is_observed_times_100
           (buildTrie [[120]; [120; 97]; [120; 98]]) [120] 97 1).
  vm_compute. reflexivity.
Defined.

(** ** Reading a line *)

Section LineFacts.

Lemma Split_colon line :
  Split line colon =
  upToColon line ::
  match afterFirstColon line with Some rest => Split rest colon | None => [] end.
Proof.
  induction line as [|c line IH]; simpl; [reflexivity|].
  destruct (bool_decide (c = colon)); [reflexivity|]. now rewrite IH.
Qed.

Lemma upToColon_no_colon s : afterFirstColon s = None -> upToColon s = s.
Proof.
  induction s as [|c s IH]; simpl; [reflexivity|].
  destruct (bool_decide (c = colon)); [discriminate|]. intros H. now rewrite IH.
Qed.

Lemma loadLine_eq passTrie line :
  loadLine passTrie line =
  match afterFirstColon line with
  | None => passTrie
  | Some rest =>
      if bool_decide (TrimSpace (upToColon rest) = []) then passTrie
      else Insert (TrimSpace (upToColon rest)) passTrie
  end.
Proof.
  unfold loadLine. rewrite Split_colon.
  destruct (afterFirstColon line) as [rest|]; [|reflexivity].
  rewrite (Split_colon rest), !len_cons.
  destruct (Z.ltb_spec (len match afterFirstColon rest with
                            | Some rest0 => Split rest0 colon
                            | None => []
                            end + 1 + 1) 2) as [Hlt|_].
  - pose proof (len_nonneg match afterFirstColon rest with
                           | Some rest0 => Split rest0 colon
                           | None => []
                           end). lia.
  - reflexivity.
Qed.

End LineFacts.

(** C7, as stated, fails: the password is not the whole text after the
    first colon.  From the line u:p:q the text after the first colon is
    p:q, and [LoadCredentialsFromFile] inserts p. *)
Lemma password_stops_at_second_colon :
  let line := [117; 58; 112; 58; 113] in
  afterFirstColon line = Some [112; 58; 113]
  /\ TrimSpace [112; 58; 113] = [112; 58; 113]
  /\ loadLine NewTrie line = Insert [112] NewTrie
  /\ CountStandaloneOccurrences (loadLine NewTrie line) [112; 58; 113] = 0
  /\ loadLine NewTrie line <> Insert (TrimSpace [112; 58; 113]) NewTrie.
Proof.
  repeat split; try reflexivity.
  intros H.
  apply (f_equal (fun t => CountStandaloneOccurrences t [112; 58; 113])) in H.
  vm_compute in H. discriminate.
Qed.

(** C7, amended: for a line with at least one colon, the password inserted
    into the trie is the whitespace-trimmed text between the first colon and
    the next colon, or the end of the line when there is no other colon, in
    which case it is the trimmed text after the first colon.  A line with no
    colon, and a line whose password is empty after trimming, insert
    nothing. *)
Theorem loadLine_password (passTrie : Trie) (line : word) :
  loadLine passTrie line =
    match afterFirstColon line with
    | None => passTrie
    | Some rest =>
        if bool_decide (TrimSpace (upToColon rest) = []) then passTrie
        else Insert (TrimSpace (upToColon rest)) passTrie
    end
  /\ (afterFirstColon line = None -> loadLine passTrie line = passTrie)
  /\ (forall rest,
        afterFirstColon line = Some rest -> TrimSpace (upToColon rest) = [] ->
        loadLine passTrie line = passTrie)
  /\ (forall rest,
        afterFirstColon line = Some rest -> afterFirstColon rest = None ->
        TrimSpace rest <> [] ->
        loadLine passTrie line = Insert (TrimSpace rest) passTrie).
Proof.
  rewrite loadLine_eq. split; [reflexivity|split; [|split]].
  - now intros ->.
  - intros rest -> ->. reflexivity.
  - intros rest -> Hnone Hne. rewrite (upToColon_no_colon rest Hnone).
    now rewrite bool_decide_eq_false_2.
Qed.

(** ** The directory walk *)

Section WalkFacts.

Lemma Walk_scanSuspicious G T entries : forall s,
  exists written,
    Walk (scanSuspiciousFn G T) entries s =
    (mkDetect written (detectTrace s ++ flat_map walkEvents entries), None).
Proof.
  induction entries as [|e entries IH]; intros s; simpl.
  - exists (report s). rewrite app_nil_r. now destruct s.
  - unfold scanSuspiciousFn at 1, walkEvents at 1.
    destruct (accessErr e); simpl.
    { match goal with
      | |- context [Walk _ entries ?s'] => destruct (IH s') as [written ->]
      end.
      exists written. simpl. now rewrite <- app_assoc. }
    destruct (HasSuffix (Name e) passwordsSuffix); [|apply IH].
    destruct (LoadCredentialsFromFile (path e) (content e) NewTrie)
      as [passTrie diags]; simpl.
    match goal with
    | |- context [Walk _ entries ?s'] => destruct (IH s') as [written ->]
    end.
    exists written. simpl. now rewrite <- app_assoc.
Qed.



(** The baseline-build and outlier-detect modes are never ended by the
    walk: an entry that cannot be accessed is logged, a file that cannot be
    opened or read is logged, and every other corpus file is processed. *)
Lemma tolerant_modes_complete (G : gmap Z CharacterStats) (T : Z)
    (srcDir : list WalkEntry) :
  (exists baseline,
     ScanForCharacterDistributions srcDir T
     = Completed (flat_map walkEvents srcDir) baseline)
  /\ (exists written,
        ScanForSuspiciousPrefixes G srcDir T
        = Completed (flat_map walkEvents srcDir) written).
Proof.
  split.
  - unfold ScanForCharacterDistributions. rewrite Walk_scanDistributions.
    now eexists.
  - unfold ScanForSuspiciousPrefixes.
    destruct (Walk_scanSuspicious G T srcDir (mkDetect [] [])) as [written ->].
    now eexists.
Qed.

(** [GeneratePrefixStatistics] ends at the first entry that the walk could
    not access; the entries after it are not visited. *)
Lemma Walk_prefixStatistics_accessErr T before e after : forall s,
  Forall (fun e' => accessErr e' = false) before -> accessErr e = true ->
  exists s',
    Walk (prefixStatisticsFn T) (before ++ e :: after) s
    = (s', Some (ErrorAccessingFile (path e)))
    /\ Walk (prefixStatisticsFn T) before s = (s', None).
Proof.
  induction before as [|b before IH]; intros s Hbefore Herr; simpl.
  - exists s. unfold prefixStatisticsFn. now rewrite Herr.
  - inversion Hbefore as [|? ? Hb Hrest]; subst.
    unfold prefixStatisticsFn at 1 3. rewrite Hb.
    destruct (HasSuffix (Name b) passwordsSuffix); [|now apply IH].
    destruct (LoadCredentialsFromFile (path b) (content b) NewTrie)
      as [passTrie diags].
    now apply IH.
Qed.

Lemma GeneratePrefixStatistics_fatal T before e after :
  Forall (fun e' => accessErr e' = false) before -> accessErr e = true ->
  exists trace,
    GeneratePrefixStatistics (before ++ e :: after) T
    = Fatal trace (ErrorAccessingFile (path e)).
Proof.
  intros Hbefore Herr. unfold GeneratePrefixStatistics.
  destruct (Walk_prefixStatistics_accessErr T before e after (mkStatsState ∅ [])
              Hbefore Herr) as (s' & -> & _).
  now eexists.
Qed.

(** Without an entry that the walk cannot access, the ratio-statistics mode
    completes as the other two do: a file that cannot be opened or read is
    logged and the next files are processed. *)
Lemma Walk_prefixStatistics T entries : forall s,
  Forall (fun e => accessErr e = false) entries ->
  exists stats,
    Walk (prefixStatisticsFn T) entries s
    = (mkStatsState stats (statsTrace s ++ flat_map walkEvents entries), None).
Proof.
  induction entries as [|e entries IH]; intros s Hall; simpl.
  - exists (allStats s). rewrite app_nil_r. now destruct s.
  - inversion Hall as [|? ? He Hrest]; subst.
    unfold prefixStatisticsFn at 1, walkEvents at 1. rewrite He.
    destruct (HasSuffix (Name e) passwordsSuffix); [|now apply IH].
    destruct (LoadCredentialsFromFile (path e) (content e) NewTrie)
      as [passTrie diags]; simpl.
    match goal with
    | |- context [Walk _ entries ?s'] => destruct (IH s' Hrest) as [stats ->]
    end.
    exists stats. simpl. now rewrite <- app_assoc.
Qed.

Lemma GeneratePrefixStatistics_completes T srcDir :
  Forall (fun e => accessErr e = false) srcDir ->
  exists stats,
    GeneratePrefixStatistics srcDir T = Completed (flat_map walkEvents srcDir) stats.
Proof.
  intros Hall. unfold GeneratePrefixStatistics.
  destruct (Walk_prefixStatistics T srcDir (mkStatsState ∅ []) Hall) as [stats ->].
  now eexists.
Qed.

End WalkFacts.

(** C9: a corpus file that cannot be accessed or read is to be skipped with
    a diagnostic, in every run mode, and the walk is to go on with the other
    files.  The ratio-statistics mode does not: with a corpus file that the
    walk cannot access followed by a readable one,
    [GeneratePrefixStatistics] ends the run at the first and never processes
    the second, where the baseline-build and outlier-detect modes log the
    first and process the second.  A file that cannot be opened is logged
    and skipped in the three modes. *)
Theorem access_failure_ends_prefix_statistics :
  let bad := mkEntry "d/a_passwords.txt" "a_passwords.txt" true OpenFails in
  let locked := mkEntry "d/a_passwords.txt" "a_passwords.txt" false OpenFails in
  let good := mkEntry "d/b_passwords.txt" "b_passwords.txt" false
                (Opened [[117; 58; 120]; [117; 58; 120]] false) in
  GeneratePrefixStatistics [bad; good] 1
  = Fatal [] (ErrorAccessingFile "d/a_passwords.txt")
  /\ GeneratePrefixStatistics [locked; good] 1
     = Completed [Processing "a_passwords.txt";
                  Logged (ErrorOpeningFile "d/a_passwords.txt");
                  Processing "b_passwords.txt"]
                 {[ "a"%string := []; "b"%string := [mkPrefixStats [120] 2 0] ]}
  /\ (exists baseline,
        ScanForCharacterDistributions [bad; good] 1
        = Completed [Logged (ErrorAccessingFile "d/a_passwords.txt");
                     Processing "b_passwords.txt"] baseline)
  /\ (exists written,
        ScanForSuspiciousPrefixes ∅ [bad; good] 1
        = Completed [Logged (ErrorAccessingFile "d/a_passwords.txt");
                     Processing "b_passwords.txt"] written).
Proof.
  intros bad locked good. split; [|split; [|split]].
  - reflexivity.
  - vm_compute. reflexivity.
  - apply (tolerant_modes_complete ∅ 1 [bad; good]).
  - apply (tolerant_modes_complete ∅ 1 [bad; good]).
Qed.

(** * Part III: further properties of the code *)

(** ** The trie, for any trie *)

Section TrieApi.

Implicit Types (node : TrieNode) (t : Trie) (w p : word) (ws : list word).

Lemma insertFrom_comm w1 : forall w2 node,
  insertFrom w1 (insertFrom w2 node) = insertFrom w2 (insertFrom w1 node).
Proof.
  induction w1 as [|a w1 IH]; intros [|b w2] node; try reflexivity.
  simpl. destruct (decide (a = b)) as [->|Hne].
  - rewrite !lookup_insert_eq, !insert_insert_eq. now rewrite IH.
  - rewrite !lookup_insert_ne by congruence.
    f_equal. apply insert_insert_ne. congruence.
Qed.

Lemma insertAll_Permutation ws1 ws2 :
  Permutation ws1 ws2 -> forall t, insertAll ws1 t = insertAll ws2 t.
Proof.
  induction 1 as [|w ws1 ws2 _ IH|w1 w2 ws|ws1 ws2 ws3 _ IH12 _ IH23]; intros t.
  - reflexivity.
  - apply IH.
  - simpl. unfold Insert. simpl. now rewrite insertFrom_comm.
  - now rewrite IH12.
Qed.

Lemma findNode_insertFrom_keeps p : forall w node,
  is_Some (findNode p node) -> is_Some (findNode p (insertFrom w node)).
Proof.
  induction p as [|a p IH]; intros w node H; [now eexists|].
  destruct w as [|c w]; [exact H|]. simpl in *.
  destruct (decide (c = a)) as [->|Hne].
  - rewrite lookup_insert_eq. destruct (children node !! a); [now apply IH|].
    destruct H; discriminate.
  - now rewrite lookup_insert_ne.
Qed.

Lemma findNode_insertFrom_prefix p : forall w node,
  isPrefixOf p w = true -> is_Some (findNode p (insertFrom w node)).
Proof.
  induction p as [|a p IH]; intros w node H; [now eexists|].
  destruct w as [|c w]; [discriminate|]. simpl in *.
  apply andb_true_iff in H as [Hac H]. apply bool_decide_eq_true_1 in Hac as ->.
  rewrite lookup_insert_eq. now apply IH.
Qed.

Lemma isPrefixOf_app p q : forall w,
  isPrefixOf (p ++ q) w = true -> isPrefixOf p w = true.
Proof.
  induction p as [|a p IH]; intros [|b w] H; simpl in *; try reflexivity;
    try discriminate.
  apply andb_true_iff in H as [Hab H]. now rewrite Hab, (IH w H).
Qed.

Lemma wordsWithPrefix_app_le p q ws :
  wordsWithPrefix (p ++ q) ws <= wordsWithPrefix p ws.
Proof.
  induction ws as [|v ws IH]; simpl; [lia|].
  destruct (isPrefixOf (p ++ q) v) eqn:H.
  - rewrite (isPrefixOf_app p q v H). lia.
  - destruct (isPrefixOf p v); lia.
Qed.

Lemma wordsWithPrefix_nil ws : wordsWithPrefix [] ws = len ws.
Proof.
  induction ws as [|v ws IH]; [reflexivity|]. rewrite len_cons. simpl. lia.
Qed.

End TrieApi.

(** X1: one [Insert], on any trie: the standalone count of the inserted word
    goes up by one and no other standalone count changes; the prefix count
    of every prefix of the inserted word goes up by one and no other prefix
    count changes. *)
Theorem Insert_then_count (t : Trie) (w p : word) :
  CountStandaloneOccurrences (Insert w t) p
  = (if bool_decide (w = p) then wrap64 (CountStandaloneOccurrences t p + 1)
     else CountStandaloneOccurrences t p)
  /\ CountWordsWithPrefix (Insert w t) p
     = (if isPrefixOf p w then wrap64 (CountWordsWithPrefix t p + 1)
        else CountWordsWithPrefix t p).
Proof.
  split.
  - apply (standaloneAt_insertFrom w p (root t)).
  - apply (subtreeAt_insertFrom p w (root t)).
Qed.

(** X2: the trie does not depend on the order of the insertions: two
    [Insert] calls commute, and inserting the same words in another order
    builds the same trie. *)
Theorem buildTrie_order_independent (ws1 ws2 : list word) :
  Permutation ws1 ws2 ->
  buildTrie ws1 = buildTrie ws2
  /\ (forall t w1 w2, Insert w1 (Insert w2 t) = Insert w2 (Insert w1 t)).
Proof.
  intros Hperm. split.
  - now apply insertAll_Permutation.
  - intros t w1 w2. unfold Insert. simpl. now rewrite insertFrom_comm.
Qed.

Lemma buildTrie_order_independent_witness :
  buildTrie [[120; 97]; [120]; [98]] = buildTrie [[98]; [120; 97]; [120]].
Proof.
  apply (buildTrie_order_independent [[120; 97]; [120]; [98]]
                                      [[98]; [120; 97]; [120]]).
  change [[120; 97]; [120]; [98]] with ([[120; 97]; [120]] ++ [[98]]).
  apply Permutation_app_comm.
Defined.

(** X3: the nodes of a built trie are the prefixes of the inserted words:
    the path of [p] exists exactly when [p] is empty (the root) or a prefix
    of an inserted word.  [Insert] creates the whole path of its word and
    removes no path. *)
Theorem findNode_buildTrie_iff (ws : list word) (p : word) :
  (is_Some (findNode p (root (buildTrie ws))) <->
   p = [] \/ exists w, In w ws /\ isPrefixOf p w = true)
  /\ (forall t w, is_Some (findNode p (root t)) ->
                  is_Some (findNode p (root (Insert w t))))
  /\ (forall t w, isPrefixOf p w = true ->
                  is_Some (findNode p (root (Insert w t)))).
Proof.
  split; [|split].
  - split; [apply findNode_buildTrie|].
    intros [->|(w & Hin & Hpre)]; [now eexists|].
    induction ws as [|v ws IH] using rev_ind; [destruct Hin|].
    rewrite buildTrie_snoc. apply in_app_or in Hin as [Hin|[->|[]]].
    + apply findNode_insertFrom_keeps. now apply IH.
    + now apply findNode_insertFrom_prefix.
  - intros t w. apply findNode_insertFrom_keeps.
  - intros t w. apply findNode_insertFrom_prefix.
Qed.

(** X4: in a built trie (fewer than 2^63 insertions) a longer prefix never
    counts more words than a shorter one, a word never occurs more often
    alone than as a prefix, and the empty prefix counts every insertion. *)
Theorem prefix_counts_decrease (ws : list word) (p q : word) :
  len ws <= max_int ->
  CountWordsWithPrefix (buildTrie ws) (p ++ q) <= CountWordsWithPrefix (buildTrie ws) p
  /\ 0 <= CountStandaloneOccurrences (buildTrie ws) p
       <= CountWordsWithPrefix (buildTrie ws) p
  /\ CountWordsWithPrefix (buildTrie ws) [] = len ws.
Proof.
  intros Hlen.
  assert (Hpre : forall r,
    CountWordsWithPrefix (buildTrie ws) r = wordsWithPrefix r ws).
  { intros r. rewrite prefix_buildTrie.
    apply (small_count _ ws Hlen), wordsWithPrefix_bounds. }
  rewrite !Hpre, standalone_buildTrie.
  pose proof (timesInserted_bounds p ws) as Hb.
  pose proof (wordsWithPrefix_bounds p ws) as Hw.
  rewrite (small_count (timesInserted p ws) ws Hlen) by lia.
  split; [apply wordsWithPrefix_app_le|]. split; [lia|apply wordsWithPrefix_nil].
Qed.

Lemma prefix_counts_decrease_witness :
  CountWordsWithPrefix (buildTrie [[120]; [120; 97]; [120; 98]]) ([120] ++ [97])
  <= CountWordsWithPrefix (buildTrie [[120]; [120; 97]; [120; 98]]) [120].
Proof.
  apply (prefix_counts_decrease [[120]; [120; 97]; [120; 98]] [120] [97]).
  vm_compute. discriminate.
Defined.

(** X5: the count that [collectFollowingChars] gives for a character [c]
    after [prefix] is [CountWordsWithPrefix] of the prefix extended by [c];
    the map has an entry exactly for the children of the prefix node, and it
    is empty when the path of the prefix is missing. *)
Theorem collectFollowingChars_counts (t : Trie) (prefix : word) (c : Z) :
  collectFollowingChars t prefix !! c
  = match findNode (prefix ++ [c]) (root t) with
    | Some _ => Some (CountWordsWithPrefix t (prefix ++ [c]))
    | None => None
    end
  /\ (findNode prefix (root t) = None -> collectFollowingChars t prefix = ∅)
  /\ (forall node, findNode prefix (root t) = Some node ->
        dom (collectFollowingChars t prefix) = dom (children node)).
Proof.
  split; [|split].
  - rewrite collectFollowingChars_lookup. unfold CountWordsWithPrefix.
    now destruct (findNode (prefix ++ [c]) (root t)).
  - intros H. rewrite collectFollowingChars_eq. now rewrite H.
  - intros node H. rewrite collectFollowingChars_eq, H. apply dom_fmap_L.
Qed.

(** ** Induction on the nodes of a trie *)

Section TrieInduction.

Lemma height_child node c child :
  children node !! c = Some child -> (height child < height node)%nat.
Proof.
  destruct node as [ch e]. simpl. intros Hc.
  enough (height child <= map_fold (fun _ x h => Nat.max h (height x)) 0%nat ch)%nat
    by lia.
  revert c child Hc.
  apply (map_fold_weak_ind (fun r (m : gmap Z TrieNode) =>
    forall c child, m !! c = Some child -> (height child <= r)%nat)).
  - intros c child H. rewrite lookup_empty in H. discriminate.
  - intros i x m r Hi IH c child Hc. destruct (decide (i = c)) as [->|Hne].
    + rewrite lookup_insert_eq in Hc. injection Hc as ->. lia.
    + rewrite lookup_insert_ne in Hc by exact Hne. specialize (IH c child Hc). lia.
Qed.

(** A property holds of every node when it holds of a node as soon as it
    holds of its children. *)
Lemma TrieNode_child_ind (P : TrieNode -> Prop) :
  (forall node,
     (forall c child, children node !! c = Some child -> P child) -> P node) ->
  forall node, P node.
Proof.
  intros Hstep node.
  remember (height node) as k eqn:Hk. revert node Hk.
  induction k as [k IH] using lt_wf_ind. intros node ->.
  apply Hstep. intros c child Hc.
  apply (IH (height child)); [now apply (height_child node c)|reflexivity].
Qed.

(** Induction on a loop over a map whose entries satisfy [Q]. *)
Lemma map_fold_entries_ind {A B} (Q : Z -> A -> Prop)
    (P : B -> gmap Z A -> Prop) (f : Z -> A -> B -> B) (b : B) :
  P b ∅ ->
  (forall i x m r, m !! i = None -> Q i x -> P r m -> P (f i x r) (<[i:=x]> m)) ->
  forall m, map_Forall Q m -> P (map_fold f b m) m.
Proof.
  intros Hemp Hins m. induction m as [|i x m Hi Hfirst IH] using map_first_key_ind.
  - intros _. now rewrite map_fold_empty.
  - intros Hall. rewrite map_fold_insert_first_key by assumption.
    apply Hins; [exact Hi| |].
    + apply Hall. apply lookup_insert_eq.
    + apply IH. intros j y Hj. apply Hall.
      rewrite lookup_insert_ne; [exact Hj|]. intros ->. congruence.
Qed.


End TrieInduction.

(** ** Qualifying prefixes *)

Section QualifyingFacts.

Implicit Types (node : TrieNode) (t : Trie) (cur p q s : word).

Lemma qualifiesAt_nil T ch c : qualifiesAt T (mkNode ch c) [] <-> T < c.
Proof.
  unfold qualifiesAt. simpl. split.
  - now intros (n & [= <-] & H).
  - intros H. now eexists.
Qed.

Lemma qualifiesAt_cons T ch c i s :
  qualifiesAt T (mkNode ch c) (i :: s) <->
  exists child, ch !! i = Some child /\ qualifiesAt T child s.
Proof.
  unfold qualifiesAt. simpl. destruct (ch !! i) as [child|].
  - split; [intros H; now exists child|now intros (child' & [= <-] & H)].
  - split; [now intros (n & H & _)|now intros (child & H & _)].
Qed.

Lemma app_cons_snoc {A} (l k : list A) (y : A) : l ++ y :: k = (l ++ [y]) ++ k.
Proof. now rewrite <- app_assoc. Qed.

Lemma app_not_self {A} (l k : list A) (y : A) : l <> l ++ y :: k.
Proof.
  intros H. apply (f_equal (@length A)) in H. rewrite length_app in H.
  simpl in H. lia.
Qed.

(** [collectHighStandaloneRecursive] appends to [results], once each, the
    paths below [node] that end at a node above the threshold. *)
Lemma collectHighStandaloneRecursive_spec T : forall node cur results,
  exists new,
    collectHighStandaloneRecursive node cur T results = results ++ new
    /\ NoDup new
    /\ (forall q, In q new <-> exists s, q = cur ++ s /\ qualifiesAt T node s).
Proof.
  intros node. induction node as [[ch c] IH] using TrieNode_child_ind.
  intros cur results. simpl in IH. simpl.
  set (results' := if T <? c then results ++ [cur] else results).
  assert (Hfold : forall m : gmap Z TrieNode,
    map_Forall (fun i x => ch !! i = Some x) m ->
    exists new,
      map_fold (fun char child acc =>
                  collectHighStandaloneRecursive child (cur ++ [char]) T acc)
               results' m = results' ++ new
      /\ NoDup new
      /\ (forall q, In q new <->
            exists i child s, m !! i = Some child /\ q = cur ++ i :: s
                              /\ qualifiesAt T child s)).
  {
    apply (map_fold_entries_ind (fun i x => ch !! i = Some x)
      (fun r (m : gmap Z TrieNode) => exists new,
         r = results' ++ new /\ NoDup new
         /\ (forall q, In q new <->
               exists i child s, m !! i = Some child /\ q = cur ++ i :: s
                                 /\ qualifiesAt T child s))).
    - exists []. rewrite app_nil_r. split; [reflexivity|]. split; [constructor|].
      intros q. split; [intros []|].
      intros (i & child & s & H & _). rewrite lookup_empty in H. discriminate.
    - intros i x m r Hi Hx (new & -> & Hnd & Hnew).
      destruct (IH i x Hx (cur ++ [i]) (results' ++ new)) as (newx & -> & Hndx & Hnewx).
      exists (new ++ newx). rewrite app_assoc. split; [reflexivity|]. split.
      + apply NoDup_app. split; [exact Hnd|]. split; [|exact Hndx].
        intros q Hq Hq'. apply list_elem_of_In in Hq, Hq'.
        apply Hnew in Hq as (j & child & s1 & Hj & -> & _).
        apply Hnewx in Hq' as (s2 & Heq & _).
        rewrite <- app_cons_snoc in Heq. apply app_inv_head in Heq.
        injection Heq as -> _. congruence.
      + intros q. rewrite in_app_iff, Hnew, Hnewx. split.
        * intros [(j & child & s & Hj & -> & Hq)|(s & -> & Hq)].
          -- exists j, child, s. split; [|now split].
             rewrite lookup_insert_ne; [exact Hj|]. intros ->. congruence.
          -- exists i, x, s. split; [apply lookup_insert_eq|].
             split; [symmetry; apply app_cons_snoc|exact Hq].
        * intros (j & child & s & Hj & -> & Hq).
          destruct (decide (i = j)) as [->|Hne].
          -- rewrite lookup_insert_eq in Hj. injection Hj as ->.
             right. exists s. now rewrite app_cons_snoc.
          -- rewrite lookup_insert_ne in Hj by exact Hne.
             left. now exists j, child, s. }
  destruct (Hfold ch) as (new & -> & Hnd & Hnew); [intros i x H; exact H|].
  unfold results'.
  assert (Hcur : ~ In cur new).
  { intros H. apply Hnew in H as (i & child & s & _ & H & _).
    now apply app_not_self in H. }
  assert (Hchildren : forall q,
    In q new <-> exists s, s <> [] /\ q = cur ++ s /\ qualifiesAt T (mkNode ch c) s).
  { intros q. rewrite Hnew. split.
    - intros (i & child & s & Hi & -> & Hq). exists (i :: s).
      split; [discriminate|]. split; [reflexivity|].
      apply qualifiesAt_cons. now exists child.
    - intros ([|i s] & Hne & -> & Hq); [congruence|].
      apply qualifiesAt_cons in Hq as (child & Hi & Hq). now exists i, child, s. }
  destruct (Z.ltb_spec T c) as [Hlt|Hge].
  - exists (cur :: new). rewrite <- app_assoc. split; [reflexivity|].
    split; [constructor; [now rewrite list_elem_of_In|exact Hnd]|].
    intros q. simpl. rewrite Hchildren. split.
    + intros [<-|(s & _ & -> & Hq)].
      * exists []. rewrite app_nil_r. split; [reflexivity|]. now apply qualifiesAt_nil.
      * now exists s.
    + intros ([|i s] & -> & Hq).
      * left. now rewrite app_nil_r.
      * right. exists (i :: s). now repeat split.
  - exists new. split; [reflexivity|]. split; [exact Hnd|].
    intros q. rewrite Hchildren. split.
    + intros (s & _ & -> & Hq). now exists s.
    + intros ([|i s] & -> & Hq).
      * apply qualifiesAt_nil in Hq. lia.
      * exists (i :: s). now repeat split.
Qed.

Lemma collectHighStandalone_In t T p :
  In p (collectHighStandalone t T) <->
  exists n, findNode p (root t) = Some n /\ T < endOfWordCount n.
Proof.
  unfold collectHighStandalone.
  destruct (collectHighStandaloneRecursive_spec T (root t) [] [])
    as (new & -> & _ & Hnew).
  simpl. rewrite Hnew. split.
  - now intros (s & -> & Hq).
  - intros Hq. now exists p.
Qed.

Lemma collectHighStandalone_NoDup t T : List.NoDup (collectHighStandalone t T).
Proof.
  unfold collectHighStandalone.
  destruct (collectHighStandaloneRecursive_spec T (root t) [] [])
    as (new & -> & Hnd & _).
  now apply NoDup_ListNoDup.
Qed.

Lemma collectHighStandalone_In_count t T p :
  0 <= T ->
  In p (collectHighStandalone t T) <-> T < CountStandaloneOccurrences t p.
Proof.
  intros HT. rewrite collectHighStandalone_In. unfold CountStandaloneOccurrences.
  destruct (findNode p (root t)) as [n|].
  - split; [now intros (n' & [= <-] & H)|intros H; now exists n].
  - split; [now intros (n' & H & _)|lia].
Qed.


Lemma followingCount_eq (ch : gmap Z TrieNode) :
  map_fold (fun _ child total => wrap64 (total + countWordsInSubTrie child)) 0 ch
  = totalFollowing (countWordsInSubTrie <$> ch).
Proof. unfold totalFollowing. now rewrite map_fold_fmap. Qed.

(** A record of [collectPrefixStats] was among [stats] or describes a node
    below [node]. *)
Lemma collectPrefixStats_fields T : forall node cur stats r,
  In r (collectPrefixStats node cur T stats) ->
  In r stats
  \/ exists s n,
       Prefix r = cur ++ s /\ findNode s node = Some n
       /\ StandaloneCount r = endOfWordCount n /\ T < endOfWordCount n
       /\ FollowingCount r = totalFollowing (countWordsInSubTrie <$> children n).
Proof.
  intros node. induction node as [[ch c] IH] using TrieNode_child_ind.
  intros cur stats r. simpl in IH. simpl.
  set (stats' := if T <? c then _ else stats).
  assert (Hstats' : forall r0, In r0 stats' ->
    In r0 stats
    \/ exists s n,
         Prefix r0 = cur ++ s /\ findNode s (mkNode ch c) = Some n
         /\ StandaloneCount r0 = endOfWordCount n /\ T < endOfWordCount n
         /\ FollowingCount r0 = totalFollowing (countWordsInSubTrie <$> children n)).
  { intros r0. unfold stats'. destruct (Z.ltb_spec T c) as [Hlt|Hge]; [|now left].
    rewrite in_app_iff. intros [H|[<-|[]]]; [now left|]. right.
    exists [], (mkNode ch c). simpl. rewrite app_nil_r, followingCount_eq.
    now repeat split. }
  revert r.
  apply (map_fold_entries_ind (fun i x => ch !! i = Some x)
    (fun acc (_ : gmap Z TrieNode) => forall r0, In r0 acc ->
       In r0 stats
       \/ exists s n,
            Prefix r0 = cur ++ s /\ findNode s (mkNode ch c) = Some n
            /\ StandaloneCount r0 = endOfWordCount n /\ T < endOfWordCount n
            /\ FollowingCount r0
               = totalFollowing (countWordsInSubTrie <$> children n))).
  - exact Hstats'.
  - intros i x m acc _ Hx Hacc r0 Hr0.
    apply (IH i x Hx) in Hr0 as [Hr0|(s & n & Hp & Hf & Hrest)].
    + now apply Hacc.
    + right. exists (i :: s), n. rewrite app_cons_snoc. split; [exact Hp|].
      split; [|exact Hrest]. simpl. now rewrite Hx.
  - intros i x H. exact H.
Qed.

End QualifyingFacts.

(** X6: [collectHighStandalone] returns, once each, the prefixes whose node
    exists in the trie with an end-of-word count above the threshold, and
    nothing else; for a threshold that is not negative these are the
    prefixes whose [CountStandaloneOccurrences] is above the threshold. *)
Theorem collectHighStandalone_spec (t : Trie) (occurrenceThreshold : Z) :
  List.NoDup (collectHighStandalone t occurrenceThreshold)
  /\ (forall p,
        In p (collectHighStandalone t occurrenceThreshold) <->
        exists n, findNode p (root t) = Some n
                  /\ occurrenceThreshold < endOfWordCount n)
  /\ (0 <= occurrenceThreshold ->
      forall p,
        In p (collectHighStandalone t occurrenceThreshold) <->
        occurrenceThreshold < CountStandaloneOccurrences t p).
Proof.
  split; [apply collectHighStandalone_NoDup|].
  split; [intros p; apply collectHighStandalone_In|].
  intros HT p. now apply collectHighStandalone_In_count.
Qed.

(** X7: in a trie built by fewer than 2^63 insertions, with a threshold that
    is not negative, the qualifying prefixes are exactly the words inserted
    more than threshold times; the empty trie has none. *)
Theorem collectHighStandalone_buildTrie (ws : list word) (occurrenceThreshold : Z) :
  len ws <= max_int -> 0 <= occurrenceThreshold ->
  (forall p,
     In p (collectHighStandalone (buildTrie ws) occurrenceThreshold) <->
     occurrenceThreshold < timesInserted p ws)
  /\ (forall p, In p (collectHighStandalone (buildTrie ws) occurrenceThreshold) ->
                In p ws)
  /\ collectHighStandalone NewTrie occurrenceThreshold = [].
Proof.
  intros Hlen HT.
  assert (Hiff : forall p,
    In p (collectHighStandalone (buildTrie ws) occurrenceThreshold) <->
    occurrenceThreshold < timesInserted p ws).
  { intros p. rewrite (collectHighStandalone_In_count _ _ _ HT).
    rewrite standalone_buildTrie.
    pose proof (timesInserted_bounds p ws). pose proof (wordsWithPrefix_bounds p ws).
    now rewrite (small_count (timesInserted p ws) ws Hlen) by lia. }
  split; [exact Hiff|split].
  - intros p Hp. apply Hiff in Hp.
    destruct (decide (p ∈ ws)) as [Hin|Hout]; [now apply list_elem_of_In|].
    rewrite (timesInserted_absent p ws) in Hp; [lia|].
    now rewrite <- list_elem_of_In.
  - destruct (collectHighStandalone NewTrie occurrenceThreshold) as [|p l] eqn:H;
      [reflexivity|].
    assert (Hp : In p (collectHighStandalone NewTrie occurrenceThreshold))
      by (rewrite H; now left).
    apply (collectHighStandalone_In_count _ _ _ HT) in Hp.
    change (CountStandaloneOccurrences NewTrie p) with (standaloneAt p newNode) in Hp.
    rewrite standaloneAt_newNode in Hp. lia.
Qed.

Lemma collectHighStandalone_buildTrie_witness :
  In [120] (collectHighStandalone (buildTrie [[120]; [120]; [120; 97]]) 1) <->
  1 < timesInserted [120] [[120]; [120]; [120; 97]].
Proof.
  apply (collectHighStandalone_buildTrie [[120]; [120]; [120; 97]] 1).
  - vm_compute. discriminate.
  - lia.
Defined.


(** X9: for a trie built by fewer than 2^63 insertions, a record of
    [collectPrefixStats] gives the number of times its prefix was inserted
    and the number of inserted words that go on after the prefix. *)
Theorem collectPrefixStats_buildTrie (ws : list word) (threshold : Z) (r : PrefixStats) :
  len ws <= max_int ->
  In r (collectPrefixStats (root (buildTrie ws)) [] threshold []) ->
  StandaloneCount r = timesInserted (Prefix r) ws
  /\ FollowingCount r = wordsFollowing (Prefix r) ws
  /\ FollowingCount r
     = CountWordsWithPrefix (buildTrie ws) (Prefix r) - StandaloneCount r.
Proof.
  intros Hlen Hr.
  apply collectPrefixStats_fields in Hr as [[]|(s & n & Hp & Hf & Hs & HT & Hfc)].
  simpl in Hp. subst s.
  pose proof (standalone_buildTrie ws (Prefix r)) as Hst.
  pose proof (totalFollowing_buildTrie ws (Prefix r)) as Htot.
  pose proof (prefix_buildTrie ws (Prefix r)) as Hpre.
  rewrite collectFollowingChars_eq in Htot.
  unfold CountStandaloneOccurrences in Hst. rewrite Hf in Hst, Htot.
  pose proof (timesInserted_bounds (Prefix r) ws).
  pose proof (wordsWithPrefix_bounds (Prefix r) ws).
  pose proof (wordsFollowing_bounds (Prefix r) ws).
  rewrite (small_count (timesInserted (Prefix r) ws) ws Hlen) in Hst by lia.
  rewrite (small_count (wordsFollowing (Prefix r) ws) ws Hlen) in Htot by lia.
  rewrite (small_count (wordsWithPrefix (Prefix r) ws) ws Hlen) in Hpre by lia.
  rewrite Hpre, Hs, Hfc, Hst, Htot. unfold wordsFollowing. auto.
Qed.

Lemma collectPrefixStats_buildTrie_witness :
  StandaloneCount (mkPrefixStats [120] 2 1)
  = timesInserted (Prefix (mkPrefixStats [120] 2 1)) [[120]; [120]; [120; 97]].
Proof.
  apply (collectPrefixStats_buildTrie [[120]; [120]; [120; 97]] 1
           (mkPrefixStats [120] 2 1)).
  - vm_compute. discriminate.
  - vm_compute. now left.
Defined.

(** ** The baseline *)

Section BaselineFacts.

Local Open Scope float_scope.

(** [calculateAverageAndRange] panics as soon as one character does, and
    otherwise maps every character to its range. *)
Lemma calculateAverageAndRange_closed (g : gmap Z (list float)) :
  calculateAverageAndRange g =
  if decide (map_Forall (fun _ l => is_Some (characterRange l)) g)
  then Some (omap characterRange g) else None.
Proof.
  unfold calculateAverageAndRange.
  set (f := fun (char : Z) (percentages : list float)
                (result : option (gmap Z CharRange)) =>
              r ← result; s ← characterRange percentages; Some (<[char := s]> r)).
  assert (Hcomm : forall j1 j2 z1 z2 y, j1 <> j2 ->
            f j1 z1 (f j2 z2 y) = f j2 z2 (f j1 z1 y)).
  { intros j1 j2 z1 z2 [r|] Hne; unfold f; simpl; [|reflexivity].
    destruct (characterRange z1), (characterRange z2); simpl; try reflexivity.
    f_equal. now apply insert_insert_ne. }
  induction g as [|i x m Hi IH] using map_ind.
  - rewrite map_fold_empty, omap_empty.
    rewrite decide_True; [reflexivity|apply map_Forall_empty].
  - rewrite map_fold_insert_L; [|intros; now apply Hcomm|exact Hi].
    fold f in IH. rewrite IH. unfold f at 1.
    destruct (decide (map_Forall (fun _ l => is_Some (characterRange l)) m))
      as [Hall|Hnot]; simpl.
    + destruct (characterRange x) as [s|] eqn:Hx; simpl.
      * rewrite decide_True.
        -- f_equal. symmetry. now apply omap_insert_Some.
        -- apply map_Forall_insert; [exact Hi|]. split; [|exact Hall].
           rewrite Hx. now eexists.
      * rewrite decide_False; [reflexivity|].
        intros H. apply map_Forall_insert in H as [[s Hs] _]; [|exact Hi].
        congruence.
    + rewrite decide_False; [reflexivity|].
      intros H. apply map_Forall_insert in H as [_ H]; [|exact Hi]. contradiction.
Qed.

Lemma characterRange_nil : characterRange [] = None.
Proof. reflexivity. Qed.

Lemma samplesFor_length c calls : (length (samplesFor c calls) <= length calls)%nat.
Proof.
  induction calls as [|[d total] calls IH]; simpl; [lia|].
  rewrite length_app. destruct (d !! c); simpl; lia.
Qed.

End BaselineFacts.

(** X10: one call of [aggregateCharacterDistributions] appends exactly one
    percentage to the samples of every character of the map it is given,
    creates the sample list of a character seen for the first time, and
    leaves the samples of every other character as they are; no sample is
    ever removed. *)
Theorem aggregateCharacterDistributions_appends (distributions : gmap Z Z)
    (total : Z) (g : gmap Z (list float)) (c : Z) :
  aggregateCharacterDistributions distributions total g !! c
  = match distributions !! c with
    | Some count => Some (default [] (g !! c) ++ [percentageOf count total])
    | None => g !! c
    end
  /\ (forall samples, g !! c = Some samples ->
        exists added,
          aggregateCharacterDistributions distributions total g !! c
          = Some (samples ++ added)
          /\ (length added <= 1)%nat)
  /\ dom (aggregateCharacterDistributions distributions total g)
     = dom g ∪ dom distributions.
Proof.
  split; [apply aggregateCharacterDistributions_lookup|split].
  - intros samples Hc. rewrite aggregateCharacterDistributions_lookup, Hc.
    destruct (distributions !! c) as [count|]; simpl.
    + eexists. split; [reflexivity|]. simpl. lia.
    + exists []. rewrite app_nil_r. split; [reflexivity|]. simpl. lia.
  - apply set_eq. intros k. rewrite elem_of_union, !elem_of_dom.
    rewrite aggregateCharacterDistributions_lookup.
    destruct (distributions !! k) as [count|]; simpl.
    + split; [intros _; right; now eexists|intros _; now eexists].
    + split; [now left|]. intros [H|[? H]]; [exact H|discriminate].
Qed.

(** X11: after any sequence of aggregation calls, fewer than 2^63/95 of
    them, [calculateAverageAndRange] does not panic: the baseline has an
    entry exactly for the characters that received a sample, computed from
    these samples.  On a map that holds an empty sample list it panics (an
    index out of range). *)
Theorem calculateAverageAndRange_defined (calls : list (gmap Z Z * Z)) :
  95 * len calls <= max_int ->
  exists baseline,
    calculateAverageAndRange (aggregateAll calls ∅) = Some baseline
    /\ (forall c,
          baseline !! c =
          match samplesFor c calls with
          | [] => None
          | samples => characterRange samples
          end)
    /\ (forall c, is_Some (baseline !! c) <-> samplesFor c calls <> [])
    /\ calculateAverageAndRange {[ 0 := [] ]} = None.
Proof.
  intros Hmax.
  assert (Hsome : forall c, samplesFor c calls <> [] ->
                            is_Some (characterRange (samplesFor c calls))).
  { intros c Hne.
    destruct (characterRange_bounds (samplesFor c calls) Hne) as (lo & hi & H & _).
    - pose proof (samplesFor_length c calls). unfold len in *. lia.
    - rewrite H. now eexists. }
  assert (Hlookup : forall c,
    aggregateAll calls ∅ !! c =
    match samplesFor c calls with [] => None | samples => Some samples end).
  { intros c. rewrite aggregateAll_lookup, lookup_empty.
    now destruct (samplesFor c calls). }
  rewrite calculateAverageAndRange_closed. rewrite decide_True.
  - eexists. split; [reflexivity|].
    assert (Hb : forall c,
      omap characterRange (aggregateAll calls ∅) !! c =
      match samplesFor c calls with
      | [] => None
      | samples => characterRange samples
      end).
    { intros c. rewrite lookup_omap, Hlookup. now destruct (samplesFor c calls). }
    split; [exact Hb|]. split; [|reflexivity].
    intros c. rewrite Hb. specialize (Hsome c).
    destruct (samplesFor c calls) as [|x l].
    + split; [intros [? H]; discriminate|congruence].
    + split; [discriminate|]. intros _. now apply Hsome.
  - intros c l Hl. rewrite Hlookup in Hl. specialize (Hsome c).
    destruct (samplesFor c calls) as [|x l']; [discriminate|].
    injection Hl as <-. now apply Hsome.
Qed.

Lemma calculateAverageAndRange_defined_witness :
  exists baseline,
    calculateAverageAndRange
      (aggregateAll [({[97 := 1; 98 := 3]}, 4); ({[97 := 2]}, 2)] ∅)
    = Some baseline.
Proof.
  destruct (calculateAverageAndRange_defined
              [({[97 := 1; 98 := 3]}, 4); ({[97 := 2]}, 2)]) as (b & Hb & _).
  - vm_compute. discriminate.
  - now exists b.
Defined.

(** ** Order of the bounds *)

Section BoundsFacts.

Local Open Scope float_scope.

Lemma float64Less_irrefl x : float64Less x x = false.
Proof.
  destruct (float64Less x x) eqn:H; [|reflexivity].
  now rewrite (float64Less_asym _ _ H) in H.
Qed.

Lemma insertFloat64_In x l z : In z (insertFloat64 x l) <-> z = x \/ In z l.
Proof.
  induction l as [|y l IH]; simpl; [intuition congruence|].
  destruct (float64Less x y); simpl; [intuition congruence|].
  rewrite IH. intuition congruence.
Qed.

Lemma SortFloat64s_In l z : In z (SortFloat64s l) <-> In z l.
Proof.
  induction l as [|x l IH]; simpl; [reflexivity|].
  rewrite insertFloat64_In, IH. intuition congruence.
Qed.

Lemma insertFloat64_ascending x l : ascending l -> ascending (insertFloat64 x l).
Proof.
  induction l as [|y l IH]; simpl; [now split|].
  intros [Hy Hl]. destruct (float64Less x y) eqn:Hxy; simpl.
  - split; [|now split]. intros z [<-|Hz].
    + now apply float64Less_asym.
    + unfold notBefore. destruct (float64Less z x) eqn:Hzx; [|reflexivity].
      rewrite <- (Hy z Hz). symmetry. now apply (float64Less_trans z x y).
  - split; [|now apply IH]. intros z Hz.
    apply insertFloat64_In in Hz as [->|Hz]; [exact Hxy|now apply Hy].
Qed.

Lemma SortFloat64s_ascending l : ascending (SortFloat64s l).
Proof.
  induction l as [|x l IH]; simpl; [exact I|]. now apply insertFloat64_ascending.
Qed.

Lemma ascending_lookup l : forall i j x y,
  ascending l -> (i <= j)%nat -> l !! i = Some x -> l !! j = Some y ->
  notBefore x y.
Proof.
  induction l as [|a l IH]; intros i j x y Hasc Hij Hi Hj; [discriminate|].
  destruct Hasc as [Ha Hl]. destruct i as [|i], j as [|j]; simpl in *; try lia.
  - injection Hi as ->. injection Hj as ->. apply float64Less_irrefl.
  - injection Hi as ->. apply Ha. apply list_elem_of_In.
    eapply list_elem_of_lookup_2. exact Hj.
  - apply (IH i j); auto. lia.
Qed.

Lemma nearestRank_mono p1 p2 n :
  0 <= n -> p1 <= p2 -> nearestRank p1 n <= nearestRank p2 n.
Proof.
  intros Hn Hp. unfold nearestRank.
  assert (p1 * n / 100 <= p2 * n / 100) by (apply Z.div_le_mono; nia). lia.
Qed.

Lemma SFleb_of_not_ltb x y :
  SFisNan x = false -> SFisNan y = false -> SFltb y x = false -> SFleb x y = true.
Proof.
  unfold SFltb, SFleb, SFcompare.
  destruct x as [[]|[]| |[] mx ex], y as [[]|[]| |[] my ey]; simpl;
    try (intros; congruence);
    intros _ _;
    repeat first
      [ progress rewrite ?compare_cont_Eq
      | match goal with
        | |- context [Z.compare ?a ?b] => destruct (Z.compare_spec a b); subst
        | |- context [Pos.compare ?a ?b] => destruct (Pos.compare_spec a b); subst
        end ];
    simpl; try congruence; try lia.
Qed.

Lemma leb_of_notBefore x y :
  PrimFloat.is_nan x = false -> PrimFloat.is_nan y = false ->
  notBefore x y -> (x <=? y) = true.
Proof.
  unfold notBefore. rewrite float64Less_spec, !is_nan_spec, FloatAxioms.leb_spec.
  unfold SFless. intros Hx Hy H. apply orb_false_iff in H as [H _].
  now apply SFleb_of_not_ltb.
Qed.

End BoundsFacts.

(** X12: for a character with at least one sample (and fewer than 2^63/95),
    [calculateAverageAndRange] gives two bounds that are samples of the
    character, and the upper bound never sorts before the lower bound; when
    no sample is a NaN the lower bound is at most the upper bound. *)
Theorem characterRange_bounds_ordered (percentages : list float) :
  percentages <> [] -> 95 * len percentages <= max_int ->
  exists r,
    characterRange percentages = Some r
    /\ In (lower_quartile r) percentages
    /\ In (upper_quartile r) percentages
    /\ float64Less (upper_quartile r) (lower_quartile r) = false
    /\ (Forall (fun x => PrimFloat.is_nan x = false) percentages ->
        (lower_quartile r <=? upper_quartile r)%float = true).
Proof.
  intros Hne Hmax.
  destruct (characterRange_bounds percentages Hne Hmax) as (lo & hi & Hr & Hlo & Hhi).
  eexists. split; [exact Hr|]. simpl.
  assert (Hinlo : In lo percentages).
  { apply SortFloat64s_In, list_elem_of_In. eapply list_elem_of_lookup_2. exact Hlo. }
  assert (Hinhi : In hi percentages).
  { apply SortFloat64s_In, list_elem_of_In. eapply list_elem_of_lookup_2. exact Hhi. }
  assert (Hord : notBefore lo hi).
  { apply (ascending_lookup (SortFloat64s percentages)
             (Z.to_nat (nearestRank 5 (len percentages)))
             (Z.to_nat (nearestRank 95 (len percentages))));
      [apply SortFloat64s_ascending| |exact Hlo|exact Hhi].
    pose proof (nearestRank_mono 5 95 (len percentages) (len_nonneg _)). lia. }
  repeat split; [exact Hinlo|exact Hinhi|exact Hord|].
  intros Hnan. rewrite Forall_forall in Hnan.
  apply leb_of_notBefore; [| |exact Hord].
  - apply Hnan. now apply list_elem_of_In.
  - apply Hnan. now apply list_elem_of_In.
Qed.

Lemma characterRange_bounds_ordered_witness :
  exists r,
    characterRange [50; 12.5; 100; 25]%float = Some r
    /\ float64Less (upper_quartile r) (lower_quartile r) = false.
Proof.
  destruct (characterRange_bounds_ordered [50; 12.5; 100; 25]%float)
    as (r & Hr & _ & _ & Hord & _).
  - discriminate.
  - vm_compute. discriminate.
  - now exists r.
Defined.

(** X13: [calculatePercentile] at its edges.  On an empty slice it panics
    for every percentile.  On a non-empty slice percentile 0 gives the
    first element and a percentile of 100 or more gives the last one; a
    negative percentile gives the first element as long as the product with
    the length stays above -100, because the division truncates towards
    zero, and panics from -100 down. *)
Theorem calculatePercentile_edges (data : list float) (percentile : Z) :
  calculatePercentile [] percentile = None
  /\ (data <> [] -> calculatePercentile data 0 = head data)
  /\ (data <> [] -> 100 <= percentile -> percentile * len data <= max_int ->
      calculatePercentile data percentile = last data)
  /\ (data <> [] -> -100 < percentile * len data <= 0 ->
      calculatePercentile data percentile = head data)
  /\ (min_int <= percentile * len data <= -100 ->
      calculatePercentile data percentile = None).
Proof.
  assert (Hpos : data <> [] -> 0 < len data).
  { intros H. unfold len. destruct data; [congruence|simpl; lia]. }
  assert (Hhead : data <> [] -> data !! Z.to_nat 0 = head data).
  { intros _. now destruct data. }
  split; [|split; [|split; [|split]]].
  - unfold calculatePercentile. rewrite Z.mul_0_r. reflexivity.
  - intros Hne. specialize (Hpos Hne). unfold calculatePercentile.
    rewrite Z.mul_0_l. change (wrap64 0 ÷ 100) with 0.
    destruct (Z.geb_spec 0 (len data)); [lia|]. now apply Hhead.
  - intros Hne Hp Hmax. specialize (Hpos Hne).
    destruct (calculatePercentile_index data percentile Hne) as [-> _]; [lia|lia|].
    unfold nearestRank.
    assert (len data <= percentile * len data / 100).
    { apply Z.div_le_lower_bound; nia. }
    rewrite Z.min_r by lia. rewrite last_lookup. f_equal. unfold len. lia.
  - intros Hne Hp. specialize (Hpos Hne). unfold calculatePercentile.
    rewrite wrap64_id by (unfold in_range, min_int, max_int; lia).
    assert (Hq : percentile * len data ÷ 100 = 0).
    { apply Z.quot_small_iff; lia. }
    rewrite Hq. destruct (Z.geb_spec 0 (len data)); [lia|]. now apply Hhead.
  - intros Hp. unfold calculatePercentile.
    rewrite wrap64_id by (unfold in_range, min_int, max_int in *; lia).
    assert (Hq : percentile * len data ÷ 100 <= -1).
    { rewrite <- (Z.opp_involutive (percentile * len data)), Z.quot_opp_l by lia.
      assert (1 <= - (percentile * len data) ÷ 100).
      { rewrite Z.quot_div_nonneg by lia. apply Z.div_le_lower_bound; lia. }
      lia. }
    pose proof (len_nonneg data).
    destruct (Z.geb_spec (percentile * len data ÷ 100) (len data)); [lia|].
    destruct (Z.ltb_spec (percentile * len data ÷ 100) 0); [reflexivity|lia].
Qed.

(** ** More on the outlier detector *)

Section ReportFacts.

Lemma findOutliers_chars G (followingCharCount : gmap Z Z) total :
  NoDup (map fst (findOutliers G followingCharCount total).2)
  /\ (forall c, In c (map fst (findOutliers G followingCharCount total).2) ->
                is_Some (followingCharCount !! c)).
Proof.
  unfold findOutliers.
  apply (map_fold_weak_ind (fun (acc : bool * list (Z * float)) (m : gmap Z Z) =>
    NoDup (map fst acc.2) /\ (forall c, In c (map fst acc.2) -> is_Some (m !! c)))).
  - simpl. split; [constructor|intros c []].
  - intros i x m acc Hi [Hnd Hkeys].
    assert (Hkeep : NoDup (map fst acc.2)
                    /\ (forall c, In c (map fst acc.2) -> is_Some (<[i:=x]> m !! c))).
    { split; [exact Hnd|]. intros c Hc. destruct (decide (i = c)) as [->|Hne].
      - rewrite lookup_insert_eq. now eexists.
      - rewrite lookup_insert_ne by exact Hne. now apply Hkeys. }
    destruct (G !! i) as [stats|]; [|exact Hkeep].
    destruct (isDistributionOutlier i (observedOf x total) stats); [|exact Hkeep].
    destruct (0.005 <? observedOf x total)%float; [|exact Hkeep].
    simpl. rewrite map_app. simpl. split.
    + apply NoDup_app. split; [exact Hnd|]. split; [|repeat constructor; intros H; inversion H].
      intros c Hc Hc'. apply list_elem_of_In in Hc, Hc'.
      destruct Hc' as [<-|[]]. apply Hkeys in Hc as [? Hc]. congruence.
    + intros c Hc. apply in_app_iff in Hc as [Hc|[<-|[]]].
      * now apply Hkeep.
      * rewrite lookup_insert_eq. now eexists.
Qed.

Lemma LoadCharacterStats_lookup stats G0 r :
  (LoadCharacterStats (Some stats) G0).1 !! r
  = if bool_decide (0 <= r < 256) then stats !! statsKey r else None.
Proof.
  simpl. revert r.
  apply (map_fold_weak_ind
    (fun (acc : gmap Z CharacterStats) (m : gmap string CharacterStats) =>
       forall r, acc !! r
                 = if bool_decide (0 <= r < 256) then m !! statsKey r else None)).
  - intros r. rewrite !lookup_empty. now destruct (bool_decide _).
  - intros key value m acc Hkey IH r.
    assert (Hother : (forall b, key <> String b EmptyString) ->
      acc !! r = if bool_decide (0 <= r < 256)
                 then <[key:=value]> m !! statsKey r else None).
    { intros Hno. rewrite IH. destruct (bool_decide (0 <= r < 256)); [|reflexivity].
      rewrite lookup_insert_ne; [reflexivity|]. unfold statsKey. apply Hno. }
    destruct key as [|b [|b' rest]];
      [apply Hother; discriminate| |apply Hother; discriminate].
    pose proof (N_ascii_bounded b) as Hb.
    destruct (decide (Z.of_N (N_of_ascii b) = r)) as [<-|Hne].
    + rewrite lookup_insert_eq. rewrite bool_decide_eq_true_2 by lia.
      unfold statsKey. rewrite N2Z.id, ascii_N_embedding.
      now rewrite lookup_insert_eq.
    + rewrite lookup_insert_ne by exact Hne. rewrite IH.
      destruct (bool_decide (0 <= r < 256)) eqn:Hr; [|reflexivity].
      apply bool_decide_eq_true_1 in Hr.
      rewrite lookup_insert_ne; [reflexivity|]. unfold statsKey.
      intros [= Heq]. apply Hne. rewrite Heq.
      rewrite N_ascii_embedding by lia. lia.
Qed.

End ReportFacts.

(** X14: a block written by the Outlier Detector carries its prefix, the
    [CountStandaloneOccurrences] of the prefix and the total of its
    following characters; its outlier list is not empty, names no character
    twice, and names only characters that follow the prefix and have an
    entry in the baseline. *)
Theorem reportPrefix_record (G : gmap Z CharacterStats) (passTrie : Trie)
    (prefix : word) (record : SuspiciousPrefix) :
  reportPrefix G passTrie prefix = Some record ->
  sp_prefix record = prefix
  /\ sp_standaloneCount record = CountStandaloneOccurrences passTrie prefix
  /\ sp_totalFollowingCount record
     = totalFollowing (collectFollowingChars passTrie prefix)
  /\ sp_outlierChars record <> []
  /\ List.NoDup (map fst (sp_outlierChars record))
  /\ (forall c v, In (c, v) (sp_outlierChars record) ->
        is_Some (collectFollowingChars passTrie prefix !! c)
        /\ is_Some (G !! c)).
Proof.
  unfold reportPrefix.
  pose proof (findOutliers_spec G (collectFollowingChars passTrie prefix)
                (totalFollowing (collectFollowingChars passTrie prefix)))
    as [Hin Hfound].
  pose proof (findOutliers_chars G (collectFollowingChars passTrie prefix)
                (totalFollowing (collectFollowingChars passTrie prefix)))
    as [Hnd _].
  destruct (findOutliers G (collectFollowingChars passTrie prefix)
              (totalFollowing (collectFollowingChars passTrie prefix)))
    as [found chars].
  simpl in *. destruct found; [|discriminate]. intros [= <-]. simpl.
  repeat split.
  - now apply Hfound.
  - now apply NoDup_ListNoDup.
  - apply Hin in H as (count & Hc & _). rewrite Hc. now eexists.
  - apply Hin in H as (count & _ & (stats & HG & _) & _). rewrite HG. now eexists.
Qed.

Lemma reportPrefix_record_witness :
  sp_standaloneCount
    (mkSuspicious [120] 2 2 [(97, 50%float)])
  = CountStandaloneOccurrences (buildTrie [[120]; [120]; [120; 97]; [120; 98]]) [120].
Proof.
  apply (reportPrefix_record {[ 97 := mkStats 0.3 0.1 0.4 ]}
           (buildTrie [[120]; [120]; [120; 97]; [120; 98]]) [120]
           (mkSuspicious [120] 2 2 [(97, 50%float)])).
  vm_compute. reflexivity.
Defined.

(** X15: the Outlier Detector writes no block for a prefix that has no
    following character, none when the baseline is empty, and none when the
    path of the prefix is missing from the trie. *)
Theorem reportPrefix_silent (G : gmap Z CharacterStats) (passTrie : Trie)
    (prefix : word) :
  (collectFollowingChars passTrie prefix = ∅ -> reportPrefix G passTrie prefix = None)
  /\ (findNode prefix (root passTrie) = None -> reportPrefix G passTrie prefix = None)
  /\ reportPrefix ∅ passTrie prefix = None.
Proof.
  assert (Hnone : forall G',
    (forall c v, ~ In (c, v)
       (findOutliers G' (collectFollowingChars passTrie prefix)
          (totalFollowing (collectFollowingChars passTrie prefix))).2) ->
    reportPrefix G' passTrie prefix = None).
  { intros G' Hno. unfold reportPrefix.
    pose proof (findOutliers_spec G' (collectFollowingChars passTrie prefix)
                  (totalFollowing (collectFollowingChars passTrie prefix)))
      as [_ Hfound].
    destruct (findOutliers G' (collectFollowingChars passTrie prefix)
                (totalFollowing (collectFollowingChars passTrie prefix)))
      as [found chars].
    simpl in *. destruct found; [|reflexivity].
    destruct chars as [|[c v] chars]; [exfalso; now apply (proj1 Hfound eq_refl)|].
    exfalso. apply (Hno c v). now left. }
  assert (Hempty : collectFollowingChars passTrie prefix = ∅ ->
                   reportPrefix G passTrie prefix = None).
  { intros Hfc. apply Hnone. intros c v Hv.
    apply findOutliers_spec in Hv as (count & Hc & _).
    rewrite Hfc, lookup_empty in Hc. discriminate. }
  split; [exact Hempty|split].
  - intros Hfind. apply Hempty. rewrite collectFollowingChars_eq. now rewrite Hfind.
  - apply Hnone. intros c v Hv.
    apply findOutliers_spec in Hv as (count & _ & (stats & HG & _) & _).
    rewrite lookup_empty in HG. discriminate.
Qed.

(** X16: [LoadCharacterStats] keeps only the keys of one byte: after a
    successful load the baseline has an entry for the character [r] exactly
    when [r] is a byte and the decoded object has the one-byte key of [r],
    whatever the baseline held before; after a failed load the baseline is
    what it was.  A following character that is not a byte is therefore
    never an outlier. *)
Theorem LoadCharacterStats_keys (stats : gmap string CharacterStats)
    (G0 : gmap Z CharacterStats) (r : Z) :
  (LoadCharacterStats (Some stats) G0).1 !! r
  = (if bool_decide (0 <= r < 256) then stats !! statsKey r else None)
  /\ LoadCharacterStats None G0 = (G0, true)
  /\ (~ 0 <= r < 256 ->
      forall followingCharCount total v,
        ~ In (r, v) (findOutliers (LoadCharacterStats (Some stats) G0).1
                       followingCharCount total).2).
Proof.
  split; [apply LoadCharacterStats_lookup|split; [reflexivity|]].
  intros Hr followingCharCount total v Hv.
  apply findOutliers_spec in Hv as (count & _ & (s & HG & _) & _).
  rewrite LoadCharacterStats_lookup in HG.
  rewrite bool_decide_eq_false_2 in HG by exact Hr. discriminate.
Qed.

(** ** More on the runs *)

Section RunFacts.






End RunFacts.

Section RunReports.




End RunReports.




(** ** Loading a file *)

Section LoadFacts.

Lemma loadLine_linePassword passTrie line :
  loadLine passTrie line
  = match linePassword line with
    | Some password => Insert password passTrie
    | None => passTrie
    end.
Proof.
  rewrite loadLine_eq. unfold linePassword.
  destruct (afterFirstColon line) as [rest|]; [|reflexivity].
  simpl. now destruct (bool_decide (TrimSpace (upToColon rest) = [])).
Qed.

Lemma fold_loadLine lines : forall passTrie,
  fold_left loadLine lines passTrie = insertAll (omap linePassword lines) passTrie.
Proof.
  induction lines as [|line lines IH]; intros passTrie; [reflexivity|].
  csimpl. rewrite IH, loadLine_linePassword.
  now destruct (linePassword line).
Qed.

Lemma length_omap_le {A B} (f : A -> option B) (l : list A) :
  (length (omap f l) <= length l)%nat.
Proof. induction l as [|x l IH]; csimpl; [lia|]. destruct (f x); csimpl; lia. Qed.

(** [TrimLeftSpace] drops a run of white space and nothing else. *)
Lemma TrimLeftSpace_split s :
  exists spaces, s = spaces ++ TrimLeftSpace s
                 /\ Forall (fun c => IsSpace c = true) spaces.
Proof.
  induction s as [|c s (spaces & Hs & Hall)]; simpl.
  - exists []. split; [reflexivity|constructor].
  - destruct (IsSpace c) eqn:Hc.
    + exists (c :: spaces). split; [simpl; now f_equal|now constructor].
    + exists []. split; [reflexivity|constructor].
Qed.

Lemma TrimLeftSpace_head s c :
  head (TrimLeftSpace s) = Some c -> IsSpace c = false.
Proof.
  induction s as [|a s IH]; simpl; [discriminate|].
  destruct (IsSpace a) eqn:Ha; [exact IH|]. simpl. now intros [= <-].
Qed.

(** [TrimSpace] returns a segment of its argument that neither starts nor
    ends with white space. *)
Lemma TrimSpace_split s :
  exists before after,
    s = before ++ TrimSpace s ++ after
    /\ Forall (fun c => IsSpace c = true) before
    /\ Forall (fun c => IsSpace c = true) after.
Proof.
  unfold TrimSpace.
  destruct (TrimLeftSpace_split s) as (before & Hs & Hb).
  destruct (TrimLeftSpace_split (rev (TrimLeftSpace s))) as (spaces & Hr & Ha).
  exists before, (rev spaces). split; [|split; [exact Hb|]].
  - rewrite <- rev_app_distr, <- Hr, rev_involutive. exact Hs.
  - apply List.Forall_forall. intros c Hc. apply in_rev in Hc.
    revert c Hc. now apply List.Forall_forall.
Qed.

Lemma last_rev_head {A} (l : list A) : last (rev l) = head l.
Proof. destruct l as [|a l]; [reflexivity|]. simpl. apply last_snoc. Qed.

Lemma TrimSpace_ends s :
  (forall c, head (TrimSpace s) = Some c -> IsSpace c = false)
  /\ (forall c, last (TrimSpace s) = Some c -> IsSpace c = false).
Proof.
  unfold TrimSpace. split; intros c Hc.
  - destruct (TrimLeftSpace_split (rev (TrimLeftSpace s))) as (spaces & Hr & _).
    apply (f_equal (@rev Z)) in Hr. rewrite rev_involutive, rev_app_distr in Hr.
    destruct (rev (TrimLeftSpace (rev (TrimLeftSpace s)))) as [|a l] eqn:Hl;
      [discriminate|].
    simpl in Hc. injection Hc as ->.
    apply (TrimLeftSpace_head s). now rewrite Hr.
  - rewrite last_rev_head in Hc.
    now apply (TrimLeftSpace_head (rev (TrimLeftSpace s))).
Qed.

Lemma upToColon_no_colon_in s : ~ In colon (upToColon s).
Proof.
  induction s as [|c s IH]; simpl; [tauto|].
  destruct (bool_decide (c = colon)) eqn:Hc; simpl; [tauto|].
  apply bool_decide_eq_false_1 in Hc. intros [H|H]; [congruence|now apply IH].
Qed.

Lemma linePassword_shape line password :
  linePassword line = Some password ->
  password <> [] /\ ~ In colon password
  /\ (forall c, head password = Some c -> IsSpace c = false)
  /\ (forall c, last password = Some c -> IsSpace c = false).
Proof.
  unfold linePassword. destruct (afterFirstColon line) as [rest|]; [|discriminate].
  simpl. destruct (bool_decide (TrimSpace (upToColon rest) = [])) eqn:He;
    [discriminate|].
  intros [= <-]. apply bool_decide_eq_false_1 in He.
  split; [exact He|]. split; [|apply TrimSpace_ends].
  destruct (TrimSpace_split (upToColon rest)) as (before & after & Hs & _).
  intros Hin. apply (upToColon_no_colon_in rest). rewrite Hs.
  apply in_or_app. right. apply in_or_app. now left.
Qed.

Lemma isPrefixOf_In p : forall w c,
  isPrefixOf p w = true -> In c p -> In c w.
Proof.
  induction p as [|a p IH]; intros [|b w] c H Hc; simpl in *; try tauto;
    try discriminate.
  apply andb_true_iff in H as [Hab H]. apply bool_decide_eq_true_1 in Hab as ->.
  destruct Hc as [->|Hc]; [now left|right; now apply (IH w)].
Qed.

End LoadFacts.

(** X20: the trie that [LoadCredentialsFromFile] builds from a file is the
    trie of the passwords of its lines, a line without password giving
    nothing; so, for a file of fewer than 2^63 lines, the standalone count
    of a word is the number of lines whose password it is, and lines in
    another order give the same trie.  When the file cannot be opened the
    trie is left as it was and one diagnostic is logged. *)
Theorem LoadCredentialsFromFile_trie (filePath : string) (lines : list word)
    (scanErr : bool) :
  (LoadCredentialsFromFile filePath (Opened lines scanErr) NewTrie).1
  = buildTrie (omap linePassword lines)
  /\ (len lines <= max_int ->
      forall W,
        CountStandaloneOccurrences
          (LoadCredentialsFromFile filePath (Opened lines scanErr) NewTrie).1 W
        = timesInserted W (omap linePassword lines))
  /\ (forall lines',
        Permutation lines lines' ->
        (LoadCredentialsFromFile filePath (Opened lines' scanErr) NewTrie).1
        = (LoadCredentialsFromFile filePath (Opened lines scanErr) NewTrie).1)
  /\ (forall passTrie,
        LoadCredentialsFromFile filePath OpenFails passTrie
        = (passTrie, [ErrorOpeningFile filePath])).
Proof.
  assert (Hbuild : forall ls,
    (LoadCredentialsFromFile filePath (Opened ls scanErr) NewTrie).1
    = buildTrie (omap linePassword ls)).
  { intros ls. simpl. apply fold_loadLine. }
  split; [apply Hbuild|split; [|split; [|reflexivity]]].
  - intros Hlen W. rewrite Hbuild, standalone_buildTrie.
    pose proof (length_omap_le linePassword lines) as Hle.
    assert (Hlen' : len (omap linePassword lines) <= max_int)
      by (unfold len in *; lia).
    pose proof (timesInserted_bounds W (omap linePassword lines)).
    pose proof (wordsWithPrefix_bounds W (omap linePassword lines)).
    apply (small_count _ _ Hlen'). lia.
  - intros lines' Hperm. rewrite !Hbuild. symmetry.
    apply insertAll_Permutation. now apply omap_Permutation.
Qed.

(** X21: a password that [LoadCredentialsFromFile] inserts is never empty,
    contains no colon, and neither starts nor ends with white space; so the
    trie of a file has no path through a colon. *)
Theorem loaded_passwords_shape (filePath : string) (lines : list word)
    (scanErr : bool) :
  (forall line password,
     linePassword line = Some password ->
     password <> [] /\ ~ In colon password
     /\ (forall c, head password = Some c -> IsSpace c = false)
     /\ (forall c, last password = Some c -> IsSpace c = false))
  /\ (forall p,
        In colon p ->
        findNode p
          (root (LoadCredentialsFromFile filePath (Opened lines scanErr) NewTrie).1)
        = None)
  /\ (forall p,
        In colon p ->
        CountWordsWithPrefix
          (LoadCredentialsFromFile filePath (Opened lines scanErr) NewTrie).1 p
        = 0).
Proof.
  assert (Hnone : forall p,
    In colon p ->
    findNode p
      (root (LoadCredentialsFromFile filePath (Opened lines scanErr) NewTrie).1)
    = None).
  { intros p Hp. simpl. rewrite fold_loadLine.
    destruct (findNode p (root (insertAll (omap linePassword lines) NewTrie)))
      as [n|] eqn:Hfind; [|reflexivity].
    exfalso.
    destruct (findNode_buildTrie (omap linePassword lines) p) as [->|(w & Hw & Hpre)].
    - unfold buildTrie. rewrite Hfind. now eexists.
    - destruct Hp.
    - apply list_elem_of_In, list_elem_of_omap in Hw as (line & _ & Hline).
      apply linePassword_shape in Hline as (_ & Hcolon & _).
      apply Hcolon. now apply (isPrefixOf_In p w). }
  split; [apply linePassword_shape|split; [exact Hnone|]].
  intros p Hp. unfold CountWordsWithPrefix. now rewrite (Hnone p Hp).
Qed.

(** ** The ratio classifier and the filter that uses it *)

Section ClassifierFacts.

Local Open Scope float_scope.

Lemma SFleb_ltb_trans x y z :
  SFleb x y = true -> SFltb y z = true -> SFltb x z = true.
Proof.
  unfold SFltb, SFleb, SFcompare.
  destruct x as [[]|[]| |[] mx ex], y as [[]|[]| |[] my ey],
           z as [[]|[]| |[] mz ez];
    try (intros; congruence); intros;
    repeat first
      [ progress rewrite ?compare_cont_Eq in *
      | match goal with
        | |- context [Z.compare ?a ?b] => destruct (Z.compare_spec a b); subst
        | H : context [Z.compare ?a ?b] |- _ => destruct (Z.compare_spec a b); subst
        | |- context [Pos.compare ?a ?b] => destruct (Pos.compare_spec a b); subst
        | H : context [Pos.compare ?a ?b] |- _ => destruct (Pos.compare_spec a b); subst
        end ];
    simpl in *; try congruence; try lia.
Qed.

Lemma leb_ltb_trans x y z : (x <=? y) = true -> (y <? z) = true -> (x <? z) = true.
Proof. rewrite !FloatAxioms.ltb_spec, FloatAxioms.leb_spec. apply SFleb_ltb_trans. Qed.

Lemma is_nan_Prim2SF x : PrimFloat.is_nan x = true -> Prim2SF x = S754_nan.
Proof. rewrite is_nan_spec. now destruct (Prim2SF x). Qed.

Lemma nan_compare x y :
  PrimFloat.is_nan x = true ->
  (x <? y) = false /\ (y <? x) = false /\ (x <=? y) = false /\ (y <=? x) = false.
Proof.
  intros H. apply is_nan_Prim2SF in H.
  rewrite !FloatAxioms.ltb_spec, !FloatAxioms.leb_spec, H.
  unfold SFltb, SFleb, SFcompare. now destruct (Prim2SF y).
Qed.

End ClassifierFacts.

(** X22: [calcCurve] in its second argument.  A pair that is flagged stays
    flagged with a smaller follow-up count; a pair is never flagged when the
    standalone count or the follow-up count is a NaN. *)
Theorem calcCurve_fewer_followers (standalone followup followup' : float) :
  ((followup' <=? followup)%float = true ->
   calcCurve standalone followup = true ->
   calcCurve standalone followup' = true)
  /\ (PrimFloat.is_nan standalone = true -> calcCurve standalone followup = false)
  /\ (PrimFloat.is_nan followup = true -> calcCurve standalone followup = false).
Proof.
  unfold calcCurve. split; [|split].
  - intros Hle.
    destruct ((3000 <=? standalone) && (standalone <=? 5000))%float;
      [now apply leb_ltb_trans|].
    destruct ((5000 <? standalone) && (standalone <=? 20000))%float;
      [now apply leb_ltb_trans|].
    destruct (20000 <? standalone)%float; [now apply leb_ltb_trans|discriminate].
  - intros Hnan.
    destruct (nan_compare standalone 3000 Hnan) as (_ & _ & _ & ->).
    destruct (nan_compare standalone 5000 Hnan) as (_ & -> & _ & _).
    destruct (nan_compare standalone 20000 Hnan) as (_ & -> & _ & _).
    reflexivity.
  - intros Hnan.
    assert (H : forall y, (followup <? y)%float = false)
      by (intros y; now apply (nan_compare followup y)).
    rewrite !H. now repeat destruct (_ && _); try destruct (_ <? _)%float.
Qed.

Lemma calcCurve_fewer_followers_witness : calcCurve 10000 3 = true.
Proof.
  apply (calcCurve_fewer_followers 10000 9 3); reflexivity.
Defined.

Section FlaggedFacts.

Import ForIdentify.

Lemma gathered_records (allStats : gmap string (list PrefixRecord)) r :
  In r (map_fold (fun _ stats prefixRecords => prefixRecords ++ stats) [] allStats)
  <-> exists file stats, allStats !! file = Some stats /\ In r stats.
Proof.
  apply (map_fold_weak_ind
    (fun (acc : list PrefixRecord) (m : gmap string (list PrefixRecord)) =>
       In r acc <-> exists file stats, m !! file = Some stats /\ In r stats)).
  - split; [intros []|]. intros (file & stats & H & _).
    rewrite lookup_empty in H. discriminate.
  - intros i x m acc Hi IH. rewrite in_app_iff, IH. split.
    + intros [(file & stats & Hf & Hr)|Hr].
      * exists file, stats. split; [|exact Hr].
        rewrite lookup_insert_ne; [exact Hf|]. intros ->. congruence.
      * exists i, x. now rewrite lookup_insert_eq.
    + intros (file & stats & Hf & Hr). destruct (decide (i = file)) as [->|Hne].
      * rewrite lookup_insert_eq in Hf. injection Hf as ->. now right.
      * rewrite lookup_insert_ne in Hf by exact Hne. left. now exists file, stats.
Qed.

Lemma flagged_fold (records : list PrefixRecord) : forall (S0 : gset word) p,
  p ∈ fold_left
        (fun (suspiciousPasswords : gset word) record =>
           if calcCurve (StandaloneCount record) (FollowingCount record)
           then {[ Prefix record ]} ∪ suspiciousPasswords
           else suspiciousPasswords) records S0
  <-> p ∈ S0
      \/ exists r, In r records /\ Prefix r = p
                   /\ calcCurve (StandaloneCount r) (FollowingCount r) = true.
Proof.
  induction records as [|a records IH]; intros S0 p; simpl.
  - split; [now left|]. now intros [H|(r & [] & _)].
  - rewrite IH. split.
    + intros [H|(r & Hr & Hrest)].
      * destruct (calcCurve (StandaloneCount a) (FollowingCount a)) eqn:Ha;
          [|now left].
        apply elem_of_union in H as [H|H]; [|now left].
        apply elem_of_singleton in H. right. exists a. auto.
      * right. exists r. auto.
    + intros [H|(r & [<-|Hr] & Hp & Hc)].
      * left. destruct (calcCurve (StandaloneCount a) (FollowingCount a));
          [|exact H]. apply elem_of_union. now right.
      * left. rewrite Hc. apply elem_of_union. left. now apply elem_of_singleton.
      * right. now exists r.
Qed.

End FlaggedFacts.

(** X23: [identifySuspiciousPasswords] returns the set of the prefixes that
    have, in the statistics of some file, a record that [calcCurve] flags,
    and nothing else; it returns the error when the statistics cannot be
    opened or decoded. *)
Theorem identifySuspiciousPasswords_spec
    (allStats : gmap string (list ForIdentify.PrefixRecord)) :
  (exists suspiciousPasswords,
     ForIdentify.identifySuspiciousPasswords (Some allStats)
     = Some suspiciousPasswords
     /\ forall p,
          p ∈ suspiciousPasswords <->
          exists file stats r,
            allStats !! file = Some stats /\ In r stats
            /\ ForIdentify.Prefix r = p
            /\ calcCurve (ForIdentify.StandaloneCount r)
                         (ForIdentify.FollowingCount r) = true)
  /\ ForIdentify.identifySuspiciousPasswords None = None.
Proof.
  split; [|reflexivity]. eexists. split; [reflexivity|].
  intros p. rewrite flagged_fold. split.
  - intros [H|(r & Hr & Hp & Hc)]; [now apply elem_of_empty in H|].
    apply gathered_records in Hr as (file & stats & Hf & Hr).
    now exists file, stats, r.
  - intros (file & stats & r & Hf & Hr & Hp & Hc). right. exists r.
    split; [|now split]. apply gathered_records. now exists file, stats.
Qed.

Section RemovalFacts.

Lemma removeFlagged_spec (S : gset string) usernames : forall passwords idx acc,
  (idx + length passwords <= length usernames)%nat ->
  removeFlagged S usernames idx passwords acc
  = Some (mkForResult
            (newUsernames acc
             ++ map fst (List.filter (fun c => negb (bool_decide (c.2 ∈ S)))
                                     (combine (drop idx usernames) passwords)))
            (newPasswords acc
             ++ map snd (List.filter (fun c => negb (bool_decide (c.2 ∈ S)))
                                     (combine (drop idx usernames) passwords)))
            (match passwords with [] => forError acc | _ => false end)
            (removedFor acc
             ++ map (fun c => credentialLine c.1 c.2)
                    (List.filter (fun c => bool_decide (c.2 ∈ S))
                                 (combine (drop idx usernames) passwords)))).
Proof.
  induction passwords as [|pwd rest IH]; intros idx acc Hlen; simpl.
  - destruct (drop idx usernames); simpl; rewrite !app_nil_r; now destruct acc.
  - simpl in Hlen.
    destruct (lookup_lt_is_Some_2 usernames idx) as [username Hu]; [lia|].
    rewrite Hu, (drop_S _ _ _ Hu). simpl.
    rewrite IH by lia.
    destruct (bool_decide (pwd ∈ S)); simpl; f_equal; f_equal;
      try (now rewrite <- app_assoc); now destruct rest.
Qed.

Lemma removeFlagged_panics (S : gset string) usernames : forall passwords idx acc,
  (idx <= length usernames)%nat ->
  (length usernames < idx + length passwords)%nat ->
  removeFlagged S usernames idx passwords acc = None.
Proof.
  induction passwords as [|pwd rest IH]; intros idx acc Hidx Hlen; simpl in *; [lia|].
  destruct (usernames !! idx) as [username|] eqn:Hu; [|reflexivity].
  apply lookup_lt_Some in Hu. apply IH; lia.
Qed.

Lemma filter_snd_combine (f : string -> bool) : forall usernames passwords,
  (length passwords <= length usernames)%nat ->
  map snd (List.filter (fun c : string * string => f c.2)
                       (combine usernames passwords))
  = List.filter f passwords.
Proof.
  induction usernames as [|u usernames IH]; intros [|p passwords] Hlen;
    simpl in *; try reflexivity; try lia.
  destruct (f p); simpl; rewrite IH by lia; reflexivity.
Qed.

Lemma combine_length_le : forall usernames passwords : list string,
  (length passwords <= length usernames)%nat ->
  length (combine usernames passwords) = length passwords.
Proof.
  induction usernames as [|u usernames IHu]; intros [|p passwords] Hlen;
    simpl in *; try reflexivity; try lia.
  rewrite IHu by lia. reflexivity.
Qed.

Lemma filter_split_length {A} (f : A -> bool) (l : list A) :
  (length (List.filter (fun c => negb (f c)) l) + length (List.filter f l)
   = length l)%nat.
Proof.
  induction l as [|c l IHl]; [reflexivity|].
  simpl. destruct (f c); simpl; lia.
Qed.

End RemovalFacts.

(** X24: [removeSuspiciousFollowOnRatios], with a user name for every
    password and a list of flagged passwords that could be read.  It keeps,
    in order, the credentials whose password is not in the list, and appends
    the others to the removed entries as [username:password]; a password is
    removed only when it is equal to a flagged entry, so every credential is
    kept or removed and none is both. *)
Theorem removeSuspiciousFollowOnRatios_partition (usernames passwords : list string)
    (removed flagged : list string) :
  (length passwords <= length usernames)%nat -> passwords <> [] ->
  exists result,
    removeSuspiciousFollowOnRatios usernames passwords removed (Some flagged)
    = Some result
    /\ forError result = false
    /\ combine (newUsernames result) (newPasswords result)
       = List.filter (fun c => negb (isFlagged flagged c))
                     (credentials usernames passwords)
    /\ length (newUsernames result) = length (newPasswords result)
    /\ newPasswords result
       = List.filter (fun pwd => negb (bool_decide (pwd ∈ flagged))) passwords
    /\ removedFor result
       = removed ++ map (fun c => credentialLine c.1 c.2)
                        (List.filter (isFlagged flagged)
                                     (credentials usernames passwords))
    /\ (length (newPasswords result)
        + (length (removedFor result) - length removed)
        = length passwords)%nat.
Proof.
  intros Hlen Hne. unfold removeSuspiciousFollowOnRatios.
  rewrite bool_decide_eq_false_2 by exact Hne.
  rewrite removeFlagged_spec by (simpl; lia).
  eexists. split; [reflexivity|]. simpl. rewrite drop_0.
  assert (Hext : forall c : string * string,
    bool_decide (c.2 ∈ (list_to_set flagged : gset string)) = isFlagged flagged c).
  { intros c. unfold isFlagged. apply bool_decide_ext. apply elem_of_list_to_set. }
  rewrite !(filter_ext _ (fun c => negb (isFlagged flagged c)))
    by (intros c; now rewrite Hext).
  rewrite !(filter_ext (fun c : string * string =>
                          bool_decide (c.2 ∈ (list_to_set flagged : gset string)))
                       (isFlagged flagged)) by exact Hext.
  unfold credentials.
  set (kept := List.filter (fun c => negb (isFlagged flagged c))
                           (combine usernames passwords)).
  set (gone := List.filter (isFlagged flagged) (combine usernames passwords)).
  assert (Hparts : (length kept + length gone = length passwords)%nat).
  { unfold kept, gone.
    rewrite <- (combine_length_le usernames passwords Hlen).
    apply filter_split_length. }
  split; [now destruct passwords|]. split.
  - clear Hparts. induction kept as [|[u p] kept IHk]; [reflexivity|].
    simpl. now rewrite IHk.
  - split; [now rewrite !length_map|]. split.
    + unfold kept.
      exact (filter_snd_combine (fun pwd => negb (bool_decide (pwd ∈ flagged)))
                                usernames passwords Hlen).
    + split; [reflexivity|]. rewrite !length_map, length_app, length_map. lia.
Qed.

Lemma removeSuspiciousFollowOnRatios_partition_witness :
  exists result,
    removeSuspiciousFollowOnRatios ["ann"; "bob"; "cy"]%string
                                   ["hunter2"; "123456"; "hunter22"]%string
                                   [] (Some ["hunter2"; "qwerty"]%string)
    = Some result
    /\ forError result = false
    /\ combine (newUsernames result) (newPasswords result)
       = [("bob", "123456"); ("cy", "hunter22")]%string
    /\ removedFor result = ["ann:hunter2"]%string.
Proof.
  destruct (removeSuspiciousFollowOnRatios_partition
              ["ann"; "bob"; "cy"]%string
              ["hunter2"; "123456"; "hunter22"]%string
              [] ["hunter2"; "qwerty"]%string)
    as (result & Hrun & Herr & Hkept & _ & _ & Hgone & _);
    [simpl; lia | discriminate |].
  exists result. split; [exact Hrun|]. split; [exact Herr|].
  split; [exact Hkept | exact Hgone].
Defined.

(** X25: [removeSuspiciousFollowOnRatios] fails with an index out of range
    exactly when there are passwords, the list of flagged passwords could be
    read, and the user names are fewer than the passwords; in every other
    case it returns.  Without passwords it returns its inputs and never looks
    at the list, and when the list cannot be read it returns the error with
    no credential kept and nothing recorded as removed. *)
Theorem removeSuspiciousFollowOnRatios_failure (usernames passwords : list string)
    (removed : list string) (decoded : option (list string)) :
  (removeSuspiciousFollowOnRatios usernames passwords removed decoded = None
   <-> passwords <> [] /\ is_Some decoded
       /\ (length usernames < length passwords)%nat)
  /\ (passwords = [] ->
      removeSuspiciousFollowOnRatios usernames passwords removed decoded
      = Some (mkForResult usernames passwords false removed))
  /\ (passwords <> [] -> decoded = None ->
      removeSuspiciousFollowOnRatios usernames passwords removed decoded
      = Some (mkForResult [] [] true removed)).
Proof.
  unfold removeSuspiciousFollowOnRatios.
  destruct (decide (passwords = [])) as [He|Hne].
  - rewrite bool_decide_eq_true_2 by exact He.
    split; [|split; [reflexivity|contradiction]].
    split; [discriminate|]. now intros [Hne _].
  - rewrite bool_decide_eq_false_2 by exact Hne.
    split; [|split; [contradiction|]].
    + destruct decoded as [flagged|].
      * destruct (le_lt_dec (length passwords) (length usernames)) as [Hle|Hlt].
        -- rewrite removeFlagged_spec by (simpl; lia).
           split; [discriminate|]. intros (_ & _ & Hlt). lia.
        -- rewrite removeFlagged_panics by (simpl; lia).
           split; [|reflexivity]. intros _. split; [exact Hne|].
           split; [now exists flagged|exact Hlt].
      * split; [discriminate|]. intros (_ & [x Hx] & _). discriminate.
    + intros _ ->. reflexivity.
Qed.

Section StageFacts.

Lemma combine_fst_snd {A B} (l : list (A * B)) :
  combine (map fst l) (map snd l) = l.
Proof.
  induction l as [|[a b] l IHl]; [reflexivity|]. simpl. now rewrite IHl.
Qed.

Lemma filter_filter_andb {A} (f g : A -> bool) (l : list A) :
  List.filter g (List.filter f l) = List.filter (fun x => f x && g x) l.
Proof.
  induction l as [|x l IHl]; [reflexivity|].
  simpl. destruct (f x); simpl; [destruct (g x)|]; now rewrite ?IHl.
Qed.

Lemma filter_negb_rejected {A} (f : A -> bool) (l : list A) :
  List.filter f (List.filter (fun x => negb (f x)) l) = [].
Proof.
  induction l as [|x l IHl]; [reflexivity|].
  simpl. destruct (f x) eqn:Hf; simpl; [exact IHl|]. now rewrite Hf.
Qed.

Lemma filter_negb_kept {A} (f : A -> bool) (l : list A) :
  List.filter (fun x => negb (f x)) (List.filter (fun x => negb (f x)) l)
  = List.filter (fun x => negb (f x)) l.
Proof.
  induction l as [|x l IHl]; [reflexivity|].
  simpl. destruct (f x) eqn:Hf; simpl; [exact IHl|]. rewrite Hf. simpl.
  now rewrite IHl.
Qed.

Lemma removeWhere_spec reject usernames : forall passwords idx acc,
  (idx + length passwords <= length usernames)%nat ->
  removeWhere reject usernames idx passwords acc
  = Some (mkRemoval
            (keptUsernames acc
             ++ map fst (List.filter (fun c => negb (reject c.2))
                                     (combine (drop idx usernames) passwords)))
            (keptPasswords acc
             ++ map snd (List.filter (fun c => negb (reject c.2))
                                     (combine (drop idx usernames) passwords)))
            (removedEntries acc
             ++ map (fun c => credentialLine c.1 c.2)
                    (List.filter (fun c => reject c.2)
                                 (combine (drop idx usernames) passwords)))).
Proof.
  induction passwords as [|pwd rest IH]; intros idx acc Hlen; simpl.
  - destruct (drop idx usernames); simpl; rewrite !app_nil_r; now destruct acc.
  - simpl in Hlen.
    destruct (lookup_lt_is_Some_2 usernames idx) as [username Hu]; [lia|].
    rewrite Hu, (drop_S _ _ _ Hu). simpl.
    rewrite IH by lia.
    destruct (reject pwd); simpl; f_equal; f_equal; now rewrite <- app_assoc.
Qed.

Lemma removeWhere_panics reject usernames : forall passwords idx acc,
  (idx <= length usernames)%nat ->
  (length usernames < idx + length passwords)%nat ->
  removeWhere reject usernames idx passwords acc = None.
Proof.
  induction passwords as [|pwd rest IH]; intros idx acc Hidx Hlen; simpl in *; [lia|].
  destruct (usernames !! idx) as [username|] eqn:Hu; [|reflexivity].
  apply lookup_lt_Some in Hu. apply IH; lia.
Qed.

(** A stage applied to credentials that are already paired. *)
Lemma removeWhere_paired reject (l : list (string * string)) removed :
  removeWhere reject (map fst l) 0 (map snd l) (mkRemoval [] [] removed)
  = Some (mkRemoval
            (map fst (List.filter (fun c => negb (reject c.2)) l))
            (map snd (List.filter (fun c => negb (reject c.2)) l))
            (removed ++ map (fun c => credentialLine c.1 c.2)
                            (List.filter (fun c => reject c.2) l))).
Proof.
  rewrite removeWhere_spec by (rewrite !length_map; simpl; lia).
  simpl. now rewrite drop_0, combine_fst_snd.
Qed.

Lemma paired (usernames passwords : list string) :
  length usernames = length passwords ->
  usernames = map fst (combine usernames passwords)
  /\ passwords = map snd (combine usernames passwords).
Proof.
  revert passwords.
  induction usernames as [|u usernames IHu]; intros [|p passwords] Hlen;
    simpl in *; try discriminate; [now split|].
  destruct (IHu passwords) as [Hu Hp]; [lia|]. now rewrite <- Hu, <- Hp.
Qed.

Lemma checkFBOBFrom_spec usernames : forall passwords idx removed count,
  (idx + length passwords <= length usernames)%nat ->
  0 <= count -> count + len passwords <= max_int ->
  checkFBOBFrom usernames idx passwords removed count
  = Some (removed
          ++ map (fun c => credentialLine c.1 c.2)
                 (List.filter (fun c => HasPrefix c.2 fbobPrefix)
                              (combine (drop idx usernames) passwords)),
          count + len (List.filter (fun c : string * string => HasPrefix c.2 fbobPrefix)
                                   (combine (drop idx usernames) passwords))).
Proof.
  induction passwords as [|pwd rest IH]; intros idx removed count Hlen H0 Hmax;
    simpl.
  - destruct (drop idx usernames); simpl; rewrite app_nil_r;
      unfold len; simpl; now rewrite Z.add_0_r.
  - simpl in Hlen. rewrite len_cons in Hmax.
    pose proof (len_nonneg rest) as Hrest.
    destruct (lookup_lt_is_Some_2 usernames idx) as [username Hu]; [lia|].
    rewrite Hu, (drop_S _ _ _ Hu). simpl.
    destruct (HasPrefix pwd fbobPrefix); simpl.
    + rewrite wrap64_id by (unfold in_range, min_int, max_int in *; lia).
      rewrite IH by lia. rewrite len_cons, <- app_assoc. simpl.
      f_equal. f_equal. lia.
    + now rewrite IH by lia.
Qed.

Lemma kept_not_rejected (reject : string -> bool) (l : list (string * string)) :
  List.Forall (fun pwd => reject pwd = false)
              (map snd (List.filter (fun c => negb (reject c.2)) l)).
Proof.
  induction l as [|[u p] l IHl]; [constructor|].
  simpl. destruct (reject p) eqn:Hr; simpl; [exact IHl|].
  constructor; [exact Hr | exact IHl].
Qed.

Lemma prefix_append (p s : string) :
  String.prefix p s = true <-> exists rest, s = (p ++ rest)%string.
Proof.
  revert s. induction p as [|a p IHp]; intros s; simpl.
  - split; [intros _; now exists s | now destruct s].
  - destruct s as [|b s]; [split; [discriminate | intros [rest Hr]; discriminate]|].
    simpl. destruct (ascii_dec a b) as [->|Hab].
    + rewrite IHp. split; intros [rest Hr]; exists rest; [now rewrite Hr|].
      now injection Hr.
    + split; [discriminate|]. intros [rest Hr]. injection Hr as Hb _.
      now symmetry in Hb.
Qed.

Lemma removePass_iff (pwd : string) :
  removePass pwd = true
  <-> In pwd removePasswordsSpecific
      \/ exists prefix rest, In prefix removePasswordsAll
                             /\ pwd = (prefix ++ rest)%string.
Proof.
  unfold removePass. rewrite orb_true_iff, bool_decide_eq_true, elem_of_list_to_set,
    list_elem_of_In, existsb_exists.
  apply or_iff_compat_l. split.
  - intros (prefix & Hin & Hp). apply prefix_append in Hp as [rest Hr].
    now exists prefix, rest.
  - intros (prefix & rest & Hin & Hr). exists prefix. split; [exact Hin|].
    apply prefix_append. now exists rest.
Qed.

Lemma writeFrom_paired : forall (l pre : list (string * string)),
  writeFrom (map snd (pre ++ l)) (length pre) (map fst l)
  = Some (map outputLine l).
Proof.
  induction l as [|[u p] l IHl]; intros pre; [reflexivity|].
  simpl. rewrite map_app. simpl.
  rewrite (lookup_app_r (map snd pre)) by (now rewrite length_map).
  rewrite length_map, Nat.sub_diag. simpl.
  specialize (IHl (pre ++ [(u, p)])).
  rewrite <- app_assoc, length_app, Nat.add_1_r, map_app in IHl. simpl in IHl.
  now rewrite IHl.
Qed.

Lemma removeSuspiciousFollowOnRatios_paired (l : list (string * string))
    (removed flagged : list string) :
  removeSuspiciousFollowOnRatios (map fst l) (map snd l) removed (Some flagged)
  = Some (mkForResult
            (map fst (List.filter (fun c => negb (isFlagged flagged c)) l))
            (map snd (List.filter (fun c => negb (isFlagged flagged c)) l))
            false
            (removed ++ map (fun c => credentialLine c.1 c.2)
                            (List.filter (isFlagged flagged) l))).
Proof.
  unfold removeSuspiciousFollowOnRatios.
  destruct l as [|c l]; [simpl; now rewrite app_nil_r|].
  rewrite bool_decide_eq_false_2 by discriminate.
  rewrite removeFlagged_spec by (rewrite !length_map; simpl; lia).
  rewrite drop_0, combine_fst_snd.
  assert (Hext : forall c : string * string,
    bool_decide (c.2 ∈ (list_to_set flagged : gset string)) = isFlagged flagged c).
  { intros c'. unfold isFlagged. apply bool_decide_ext. apply elem_of_list_to_set. }
  rewrite !(filter_ext _ (fun c => negb (isFlagged flagged c)))
    by (intros c'; now rewrite Hext).
  rewrite !(filter_ext (fun c : string * string =>
                          bool_decide (c.2 ∈ (list_to_set flagged : gset string)))
                       (isFlagged flagged)) by exact Hext.
  reflexivity.
Qed.

End StageFacts.

(** X26: [removeFBOB] and [checkFBOB], with a user name for every password.
    [removeFBOB] keeps, in order, the credentials whose password does not
    start with [fbobh_] and records the others, so no password it keeps has
    the prefix and a second pass over its result removes nothing;
    [checkFBOB] records the same entries and returns how many credentials
    [removeFBOB] drops. *)
Theorem removeFBOB_partition (usernames passwords removed : list string) :
  (length passwords <= length usernames)%nat ->
  len passwords <= max_int ->
  exists result,
    removeFBOB usernames passwords removed = Some result
    /\ combine (keptUsernames result) (keptPasswords result)
       = List.filter (fun c => negb (HasPrefix c.2 fbobPrefix))
                     (credentials usernames passwords)
    /\ List.Forall (fun pwd => HasPrefix pwd fbobPrefix = false)
                   (keptPasswords result)
    /\ removedEntries result
       = removed ++ map (fun c => credentialLine c.1 c.2)
                        (List.filter (fun c => HasPrefix c.2 fbobPrefix)
                                     (credentials usernames passwords))
    /\ checkFBOB usernames passwords removed
       = Some (removedEntries result, len passwords - len (keptPasswords result))
    /\ removeFBOB (keptUsernames result) (keptPasswords result) []
       = Some (mkRemoval (keptUsernames result) (keptPasswords result) []).
Proof.
  intros Hlen Hmax. unfold removeFBOB, checkFBOB, credentials.
  rewrite removeWhere_spec by (simpl; lia).
  eexists. split; [reflexivity|]. simpl. rewrite drop_0.
  set (l := combine usernames passwords).
  split; [apply combine_fst_snd|].
  split; [apply (kept_not_rejected (fun pwd => HasPrefix pwd fbobPrefix))|].
  split; [reflexivity|]. split.
  - rewrite checkFBOBFrom_spec by (simpl; lia). rewrite drop_0. fold l.
    f_equal. f_equal. unfold len. rewrite length_map.
    pose proof (filter_split_length
                  (fun c : string * string => HasPrefix c.2 fbobPrefix) l) as Hs.
    unfold l in Hs at 3. rewrite (combine_length_le _ _ Hlen) in Hs. lia.
  - rewrite removeWhere_paired.
    rewrite (filter_negb_kept (fun c : string * string => HasPrefix c.2 fbobPrefix)).
    rewrite (filter_negb_rejected
               (fun c : string * string => HasPrefix c.2 fbobPrefix)).
    reflexivity.
Qed.

Lemma removeFBOB_partition_witness :
  exists result,
    removeFBOB ["ann"; "bob"]%string ["fbobh_12"; "fbob"]%string [] = Some result
    /\ combine (keptUsernames result) (keptPasswords result)
       = [("bob", "fbob")]%string
    /\ removedEntries result = ["ann:fbobh_12"]%string
    /\ checkFBOB ["ann"; "bob"]%string ["fbobh_12"; "fbob"]%string []
       = Some (["ann:fbobh_12"]%string, 1).
Proof.
  destruct (removeFBOB_partition ["ann"; "bob"]%string
                                 ["fbobh_12"; "fbob"]%string [])
    as (result & Hrun & Hkept & _ & Hgone & Hcheck & _);
    [simpl; lia | vm_compute; discriminate |].
  exists result. split; [exact Hrun|]. split; [exact Hkept|].
  split; [exact Hgone|].
  rewrite Hcheck. injection Hrun as <-. reflexivity.
Defined.

(** X27: [removeSuspiciousFollowOnDistribution], with a user name for every
    password.  A password is removed exactly when it is one of the ten
    listed passwords or begins with one of the eighteen listed prefixes; the
    credentials with the other passwords are kept in order, and every
    removed credential is recorded. *)
Theorem removeSuspiciousFollowOnDistribution_partition
    (usernames passwords removed : list string) :
  (length passwords <= length usernames)%nat ->
  exists result,
    removeSuspiciousFollowOnDistribution usernames passwords removed = Some result
    /\ combine (keptUsernames result) (keptPasswords result)
       = List.filter (fun c => negb (removePass c.2))
                     (credentials usernames passwords)
    /\ removedEntries result
       = removed ++ map (fun c => credentialLine c.1 c.2)
                        (List.filter (fun c => removePass c.2)
                                     (credentials usernames passwords))
    /\ (forall pwd, In pwd (keptPasswords result) <->
          In pwd passwords
          /\ ~ In pwd removePasswordsSpecific
          /\ forall prefix rest, In prefix removePasswordsAll ->
                                 pwd <> (prefix ++ rest)%string).
Proof.
  intros Hlen. unfold removeSuspiciousFollowOnDistribution, credentials.
  rewrite removeWhere_spec by (simpl; lia).
  eexists. split; [reflexivity|]. simpl. rewrite drop_0.
  split; [apply combine_fst_snd|]. split; [reflexivity|].
  intros pwd.
  rewrite (filter_snd_combine (fun p => negb (removePass p)) _ _ Hlen).
  rewrite filter_In, negb_true_iff.
  apply and_iff_compat_l. split.
  - intros Hr. split.
    + intros Hin. assert (removePass pwd = true) as Ht;
        [apply removePass_iff; now left | congruence].
    + intros prefix rest Hin Heq. assert (removePass pwd = true) as Ht;
        [apply removePass_iff; right; now exists prefix, rest | congruence].
  - intros [Hs Hp]. destruct (removePass pwd) eqn:Hr; [|reflexivity].
    apply removePass_iff in Hr as [Hin|(prefix & rest & Hin & Heq)];
      [contradiction | now destruct (Hp prefix rest Hin)].
Qed.

Lemma removeSuspiciousFollowOnDistribution_partition_witness :
  exists result,
    removeSuspiciousFollowOnDistribution
      ["ann"; "bob"; "cy"]%string ["NULLIFY"; "Status"; "Status1"]%string []
    = Some result
    /\ combine (keptUsernames result) (keptPasswords result)
       = [("cy", "Status1")]%string
    /\ removedEntries result = ["ann:NULLIFY"; "bob:Status"]%string.
Proof.
  destruct (removeSuspiciousFollowOnDistribution_partition
              ["ann"; "bob"; "cy"]%string
              ["NULLIFY"; "Status"; "Status1"]%string [])
    as (result & Hrun & Hkept & Hgone & _); [simpl; lia|].
  exists result. split; [exact Hrun|]. split; [exact Hkept | exact Hgone].
Defined.

(** X28: the last three stages of the cleaning [processFile] on paired
    credentials.  When the list of flagged passwords is read, the lines
    written are the credentials that pass all three tests, in order, and
    every credential is written or recorded by exactly one stage.  When the
    list cannot be read, the error is dropped with the credentials: nothing
    is written, and the credentials that passed the first stage are
    recorded nowhere. *)
Theorem processFileStages_outcome (usernames passwords : list string)
    (decoded : option (list string)) :
  length usernames = length passwords ->
  exists cleaned,
    processFileStages usernames passwords decoded = Some cleaned
    /\ loggedFod cleaned
       = map (fun c => credentialLine c.1 c.2)
             (List.filter (fun c => removePass c.2)
                          (credentials usernames passwords))
    /\ (forall flagged, decoded = Some flagged ->
          written cleaned
          = map outputLine
                (List.filter (fun c => negb (removePass c.2)
                                       && negb (isFlagged flagged c)
                                       && negb (HasPrefix c.2 fbobPrefix))
                             (credentials usernames passwords))
          /\ (length (written cleaned) + length (loggedFod cleaned)
              + length (loggedFor cleaned) + length (loggedFBOB cleaned)
              = length passwords)%nat)
    /\ (decoded = None ->
          written cleaned = [] /\ loggedFor cleaned = []
          /\ loggedFBOB cleaned = []).
Proof.
  intros Hlen. unfold processFileStages, removeSuspiciousFollowOnDistribution,
    removeFBOB, credentials.
  destruct (paired usernames passwords Hlen) as [Hu Hp].
  revert Hu Hp. generalize (combine usernames passwords) as l.
  intros l -> ->. clear Hlen.
  rewrite removeWhere_paired. cbn [mbind option_bind keptUsernames keptPasswords
                                   removedEntries app].
  destruct decoded as [flagged|].
  - rewrite removeSuspiciousFollowOnRatios_paired.
    cbn [mbind option_bind newUsernames newPasswords removedFor app].
    rewrite removeWhere_paired.
    cbn [mbind option_bind keptUsernames keptPasswords removedEntries app].
    pose proof (writeFrom_paired
      (List.filter (fun c : string * string => negb (HasPrefix c.2 fbobPrefix))
         (List.filter (fun c => negb (isFlagged flagged c))
            (List.filter (fun c : string * string => negb (removePass c.2)) l)))
      []) as Hw.
    simpl in Hw. rewrite Hw. clear Hw.
    cbn [mbind option_bind]. eexists. split; [reflexivity|]. simpl.
    split; [reflexivity|]. split; [|discriminate].
    intros flagged' [= <-]. rewrite !filter_filter_andb.
    split; [f_equal; apply filter_ext; intros c; now rewrite andb_assoc|].
    rewrite !length_map. clear.
    induction l as [|c l IHl]; [reflexivity|].
    simpl. destruct (removePass c.2); simpl; [lia|].
    destruct (isFlagged flagged c); simpl; [lia|].
    destruct (HasPrefix c.2 fbobPrefix); simpl; lia.
  - set (k := List.filter (fun c : string * string => negb (removePass c.2)) l).
    unfold removeSuspiciousFollowOnRatios.
    destruct k as [|c k]; simpl.
    + eexists. split; [reflexivity|]. simpl.
      split; [reflexivity|]. split; [discriminate|]. now intros _.
    + eexists. split; [reflexivity|]. simpl.
      split; [reflexivity|]. split; [discriminate|]. now intros _.
Qed.

Lemma processFileStages_outcome_witness :
  (exists cleaned,
     processFileStages ["ann"; "bob"; "cy"; "dee"]%string
                       ["tinkle9"; "hunter2"; "fbobh_1"; "correct"]%string
                       (Some ["hunter2"]%string) = Some cleaned
     /\ written cleaned = [String.append "dee:correct" (String "010" "")]
     /\ loggedFod cleaned = ["ann:tinkle9"]%string
     /\ loggedFor cleaned = ["bob:hunter2"]%string
     /\ loggedFBOB cleaned = ["cy:fbobh_1"]%string)
  /\ (exists cleaned,
        processFileStages ["ann"; "bob"; "cy"; "dee"]%string
                          ["tinkle9"; "hunter2"; "fbobh_1"; "correct"]%string
                          None = Some cleaned
        /\ written cleaned = [] /\ loggedFod cleaned = ["ann:tinkle9"]%string
        /\ loggedFor cleaned = [] /\ loggedFBOB cleaned = []).
Proof.
  split.
  - destruct (processFileStages_outcome
                ["ann"; "bob"; "cy"; "dee"]%string
                ["tinkle9"; "hunter2"; "fbobh_1"; "correct"]%string
                (Some ["hunter2"]%string))
      as (cleaned & Hrun & Hfod & Hsome & _); [reflexivity|].
    destruct (Hsome _ eq_refl) as [Hw _].
    exists cleaned. split; [exact Hrun|]. split; [exact Hw|].
    split; [exact Hfod|]. injection Hrun as <-. now split.
  - destruct (processFileStages_outcome
                ["ann"; "bob"; "cy"; "dee"]%string
                ["tinkle9"; "hunter2"; "fbobh_1"; "correct"]%string None)
      as (cleaned & Hrun & Hfod & _ & Hnone); [reflexivity|].
    destruct (Hnone eq_refl) as (Hw & Hfor & Hfb).
    exists cleaned. split; [exact Hrun|]. split; [exact Hw|].
    split; [exact Hfod|]. now split.
Defined.

Section AddressFacts.

Lemma IndexByte_cons (a c : ascii) (s : string) :
  IndexByte (String a s) c
  = if Ascii.eqb a c then 0
    else if IndexByte s c =? -1 then -1 else IndexByte s c + 1.
Proof.
  simpl. destruct (Ascii.eqb a c); [reflexivity|].
  destruct (IndexByte s c) as [|p|[p|p|]]; reflexivity.
Qed.

Lemma IndexByte_range (c : ascii) (s : string) :
  IndexByte s c = -1 \/ 0 <= IndexByte s c < Z.of_nat (String.length s).
Proof.
  induction s as [|a s IHs]; [now left|].
  rewrite IndexByte_cons. cbn [String.length].
  destruct (Ascii.eqb a c); [right; lia|].
  destruct (Z.eqb_spec (IndexByte s c) (-1)); [now left | right; lia].
Qed.

Lemma getLocal_cons (a : ascii) (s : string) :
  getLocal (String a s)
  = if Ascii.eqb a atSign then ""%string else String a (getLocal s).
Proof.
  unfold getLocal, sliceTo. rewrite IndexByte_cons.
  destruct (Ascii.eqb a atSign); [reflexivity|].
  destruct (IndexByte_range atSign s) as [Hr|Hr].
  - rewrite Hr. reflexivity.
  - destruct (Z.eqb_spec (IndexByte s atSign) (-1)) as [He|Hne]; [lia|].
    destruct (Z.eqb_spec (IndexByte s atSign + 1) (-1)) as [He'|_]; [lia|].
    simpl negb. cbv iota.
    replace (Z.to_nat (IndexByte s atSign + 1))
      with (S (Z.to_nat (IndexByte s atSign))) by lia.
    reflexivity.
Qed.

Lemma substring_all (s : string) : substring 0 (String.length s) s = s.
Proof. induction s as [|a s IHs]; [reflexivity|]. simpl. now rewrite IHs. Qed.

Lemma getDomain_cons (a : ascii) (s : string) :
  getDomain (String a s)
  = if Ascii.eqb a atSign then String a s else getDomain s.
Proof.
  unfold getDomain, sliceFrom. rewrite IndexByte_cons.
  destruct (Ascii.eqb a atSign).
  - simpl negb. cbv iota. change (Z.to_nat 0) with 0%nat.
    rewrite Nat.sub_0_r. apply substring_all.
  - destruct (IndexByte_range atSign s) as [Hr|Hr].
    + rewrite Hr. reflexivity.
    + destruct (Z.eqb_spec (IndexByte s atSign) (-1)) as [He|Hne]; [lia|].
      destruct (Z.eqb_spec (IndexByte s atSign + 1) (-1)) as [He'|_]; [lia|].
      simpl negb. cbv iota.
      replace (Z.to_nat (IndexByte s atSign + 1))
        with (S (Z.to_nat (IndexByte s atSign))) by lia.
      reflexivity.
Qed.

Lemma getLocal_getDomain_app (email : string) :
  (getLocal email ++ getDomain email)%string = email.
Proof.
  induction email as [|a s IHs]; [reflexivity|].
  rewrite getLocal_cons, getDomain_cons.
  destruct (Ascii.eqb a atSign); [reflexivity|].
  change (String a (getLocal s ++ getDomain s)%string = String a s).
  now rewrite IHs.
Qed.

Lemma getLocal_no_at (email : string) : IndexByte (getLocal email) atSign = -1.
Proof.
  induction email as [|a s IHs]; [reflexivity|].
  rewrite getLocal_cons. destruct (Ascii.eqb a atSign) eqn:Ha; [reflexivity|].
  rewrite IndexByte_cons, Ha, IHs. reflexivity.
Qed.

Lemma getLocal_getDomain_join : forall (local rest : string),
  IndexByte local atSign = -1 ->
  getLocal (local ++ String atSign rest) = local
  /\ getDomain (local ++ String atSign rest) = String atSign rest.
Proof.
  induction local as [|a s IHs]; intros rest Hno.
  - change (""%string ++ String atSign rest)%string with (String atSign rest).
    now rewrite getLocal_cons, getDomain_cons.
  - rewrite IndexByte_cons in Hno.
    destruct (Ascii.eqb a atSign) eqn:Ha; [discriminate|].
    destruct (Z.eqb_spec (IndexByte s atSign) (-1)) as [He|Hne];
      [|destruct (IndexByte_range atSign s); lia].
    destruct (IHs rest He) as [Hl Hd].
    change (String a s ++ String atSign rest)%string
      with (String a (s ++ String atSign rest)%string).
    rewrite getLocal_cons, getDomain_cons, Ha, Hl, Hd. now split.
Qed.

End AddressFacts.

(** X29: [getLocal] and [getDomain] cut an address at its first [@]: the
    two parts put together give the address back, the local part holds no
    [@], and the domain is empty exactly when the address holds no [@] and
    otherwise starts with it.  Conversely an address made of a local part
    without [@], an [@] and any rest is cut into that local part and the
    rest with its [@]. *)
Theorem getLocal_getDomain_split (email : string) :
  (getLocal email ++ getDomain email)%string = email
  /\ IndexByte (getLocal email) atSign = -1
  /\ (IndexByte email atSign = -1 -> getLocal email = email /\ getDomain email = ""%string)
  /\ (IndexByte email atSign <> -1 ->
      exists rest, getDomain email = String atSign rest)
  /\ (forall local rest, IndexByte local atSign = -1 ->
        getLocal (local ++ String atSign rest) = local
        /\ getDomain (local ++ String atSign rest) = String atSign rest).
Proof.
  split; [apply getLocal_getDomain_app|].
  split; [apply getLocal_no_at|].
  split; [|split; [|apply getLocal_getDomain_join]].
  - intros Hno. unfold getLocal, getDomain. now rewrite Hno.
  - induction email as [|a s IHs]; [intros H; now elim H|].
    rewrite IndexByte_cons, getDomain_cons.
    destruct (Ascii.eqb_spec a atSign) as [->|Ha]; [intros _; now exists s|].
    destruct (Z.eqb_spec (IndexByte s atSign) (-1)) as [He|Hne];
      [intros H; now elim H | intros _; now apply IHs].
Qed.

Section BlockFacts.

Lemma elemAt_in_range {A} (s : list A) (k : Z) (d : A) :
  0 <= k < len s -> elemAt s k = Some (nth (Z.to_nat k) s d).
Proof.
  intros Hk. unfold elemAt, len in *.
  destruct (Z.ltb_spec k 0) as [Hneg|_]; [lia|].
  destruct (lookup_lt_is_Some_2 s (Z.to_nat k)) as [x Hx]; [lia|].
  rewrite Hx. f_equal. symmetry. now apply nth_lookup_Some.
Qed.

Lemma indicesFrom_snoc : forall m j,
  indicesFrom j m ++ [j + Z.of_nat m] = indicesFrom j (S m).
Proof.
  induction m as [|m IHm]; intros j.
  - simpl. now rewrite Z.add_0_r.
  - change (indicesFrom j (S m)) with (j :: indicesFrom (j + 1) m).
    rewrite <- app_comm_cons.
    replace (j + Z.of_nat (S m)) with (j + 1 + Z.of_nat m) by lia.
    rewrite IHm. reflexivity.
Qed.

Lemma indicesFrom_app : forall m1 m2 j,
  indicesFrom j (m1 + m2)
  = indicesFrom j m1 ++ indicesFrom (j + Z.of_nat m1) m2.
Proof.
  induction m1 as [|m1 IHm]; intros m2 j.
  - simpl. now rewrite Z.add_0_r.
  - cbn [Nat.add indicesFrom]. rewrite IHm, <- app_comm_cons.
    do 3 f_equal. lia.
Qed.

Lemma indicesFrom_range : forall m j,
  List.Forall (fun k => j <= k < j + Z.of_nat m) (indicesFrom j m).
Proof.
  induction m as [|m IHm]; intros j; [constructor|].
  constructor; [lia|].
  eapply List.Forall_impl; [|apply IHm]. simpl. intros k Hk. lia.
Qed.

Lemma len_indicesFrom : forall m j, len (indicesFrom j m) = Z.of_nat m.
Proof.
  unfold len. induction m as [|m IHm]; intros j; [reflexivity|].
  simpl length. rewrite Nat2Z.inj_succ, (Nat2Z.inj_succ m). now rewrite IHm.
Qed.

Lemma maxBlockSize_value : maxBlockSize = 7.
Proof. reflexivity. Qed.

Lemma groupBlock_spec (usernames : list string) (local : string) (i : Z) :
  0 <= i -> len usernames <= max_int ->
  forall fuel m,
    i + Z.of_nat m <= len usernames ->
    (Z.to_nat maxBlockSize <= fuel + m)%nat ->
    exists m', (m <= m')%nat /\ i + Z.of_nat m' <= len usernames
      /\ groupBlock usernames local fuel (i + Z.of_nat m) (indicesFrom i m)
         = Some (indicesFrom i m', i + Z.of_nat m').
Proof.
  intros Hi Hmax. induction fuel as [|fuel IH]; intros m Hm Hfuel.
  - exists m. split; [lia|]. split; [exact Hm|]. simpl.
    destruct (Z.ltb_spec (i + Z.of_nat m) (len usernames)) as [Hlt|_];
      [|reflexivity].
    rewrite (elemAt_in_range _ _ ""%string) by lia.
    rewrite len_indicesFrom.
    destruct (Z.ltb_spec (Z.of_nat m) maxBlockSize) as [Hroom|_];
      [rewrite maxBlockSize_value in *; lia|].
    now rewrite andb_false_r.
  - simpl.
    destruct (Z.ltb_spec (i + Z.of_nat m) (len usernames)) as [Hlt|_];
      [|exists m; split; [lia|]; split; [exact Hm | reflexivity]].
    rewrite (elemAt_in_range _ _ ""%string) by lia.
    destruct (_ && _); [|exists m; split; [lia|]; split; [exact Hm | reflexivity]].
    rewrite wrap64_id by (unfold in_range, min_int, max_int in *; lia).
    rewrite indicesFrom_snoc.
    replace (i + Z.of_nat m + 1) with (i + Z.of_nat (S m)) by lia.
    destruct (IH (S m)) as (m' & Hle & Hin & Hrun); [lia | lia |].
    exists m'. split; [lia|]. split; [exact Hin | exact Hrun].
Qed.

(** The block grouped at [i] holds the credential at [i]. *)
Lemma groupBlock_first (usernames : list string) (i : Z) :
  0 <= i < len usernames -> len usernames <= max_int ->
  exists m', (1 <= m')%nat /\ i + Z.of_nat m' <= len usernames
    /\ groupBlock usernames (getLocal (nth (Z.to_nat i) usernames ""%string))
                  (Z.to_nat maxBlockSize) i []
       = Some (indicesFrom i m', i + Z.of_nat m').
Proof.
  intros Hi Hmax.
  rewrite maxBlockSize_value. change (Z.to_nat 7) with 7%nat.
  cbn [groupBlock].
  destruct (Z.ltb_spec i (len usernames)) as [_|Hge]; [|lia].
  rewrite (elemAt_in_range _ _ ""%string) by lia.
  rewrite String.eqb_refl. change (len [] <? maxBlockSize) with true.
  cbn [andb]. rewrite wrap64_id by (unfold in_range, min_int, max_int in *; lia).
  destruct (groupBlock_spec usernames
              (getLocal (nth (Z.to_nat i) usernames ""%string)) i
              ltac:(lia) Hmax 6%nat 1%nat) as (m' & Hle & Hin & Hrun);
    [lia | rewrite maxBlockSize_value; lia |].
  exists m'. split; [exact Hle|]. split; [exact Hin|]. exact Hrun.
Qed.

Lemma slicesEqualFrom_total : forall (a pre b : list string),
  length b = (length pre + length a)%nat ->
  exists same, slicesEqualFrom b (length pre) a = Some same.
Proof.
  induction a as [|s a IHa]; intros pre b Hlen; simpl; [now exists true|].
  simpl in Hlen.
  destruct (lookup_lt_is_Some_2 b (length pre)) as [t Ht]; [lia|].
  rewrite Ht. destruct (String.eqb s t); simpl; [|now exists false].
  specialize (IHa (pre ++ [s]) b). rewrite length_app, Nat.add_1_r in IHa.
  apply IHa. lia.
Qed.

Lemma slicesEqual_total (a b : list string) :
  exists same, slicesEqual a b = Some same.
Proof.
  unfold slicesEqual, len.
  destruct (Z.eqb_spec (Z.of_nat (length a)) (Z.of_nat (length b))) as [He|_];
    [|now exists false].
  simpl. apply (slicesEqualFrom_total a []). simpl. lia.
Qed.

Lemma containsInt_In (slice : list Z) (item : Z) :
  containsInt slice item = true <-> In item slice.
Proof.
  induction slice as [|s slice IHs]; simpl; [split; [discriminate|tauto]|].
  destruct (Z.eqb_spec s item) as [->|Hne]; [tauto|].
  rewrite IHs. split; [now right | intros [H|H]; [contradiction|exact H]].
Qed.

Section InRange.

Variables usernames passwords : list string.
Hypothesis Hsame : length usernames = length passwords.

Let inRange (k : Z) : Prop := 0 <= k < len usernames.

Lemma domainsAt_total (indices : list Z) :
  List.Forall inRange indices -> is_Some (domainsAt usernames indices).
Proof.
  induction 1 as [|k indices Hk _ IH]; simpl; [now eexists|].
  rewrite (elemAt_in_range _ _ ""%string) by exact Hk.
  destruct IH as [domains ->]. now eexists.
Qed.

Lemma passwordsAt_total (indices : list Z) :
  List.Forall inRange indices -> is_Some (passwordsAt passwords indices).
Proof.
  induction 1 as [|k indices Hk _ IH]; simpl; [now eexists|].
  rewrite (elemAt_in_range _ _ ""%string)
    by (unfold inRange, len in *; rewrite <- Hsame; exact Hk).
  destruct IH as [found ->]. now eexists.
Qed.

Lemma suspiciousAt_filter (seq : list string) (indices : list Z) :
  List.Forall inRange indices ->
  suspiciousAt usernames seq indices
  = Some (List.filter
            (fun k => contains seq (getDomain (nth (Z.to_nat k) usernames ""%string)))
            indices).
Proof.
  induction 1 as [|k indices Hk _ IH]; simpl; [reflexivity|].
  rewrite (elemAt_in_range _ _ ""%string) by exact Hk.
  rewrite IH. now destruct (contains _ _).
Qed.

Lemma Forall_filter_keeps {A} (P : A -> Prop) (f : A -> bool) (l : list A) :
  List.Forall P l -> List.Forall P (List.filter f l).
Proof.
  induction 1 as [|x l Hx _ IH]; simpl; [constructor|].
  destruct (f x); [now constructor | exact IH].
Qed.

(** A sequence either does not apply to a block or splits it into the
    indices to remove and the indices to keep. *)
Lemma matchSequence_partition (block : list Z) (seq : list string) :
  List.Forall inRange block ->
  exists outcome,
    matchSequence usernames passwords block seq = Some outcome
    /\ forall removedIdx keptIdx, outcome = Some (removedIdx, keptIdx) ->
         exists g : Z -> bool,
           removedIdx = List.filter g block
           /\ keptIdx = List.filter (fun k => negb (g k)) block.
Proof.
  intros Hblock. unfold matchSequence.
  set (P := fun k => contains seq
                       (getDomain (nth (Z.to_nat k) usernames ""%string))).
  assert (Hnone : exists outcome : option (list Z * list Z),
    Some None = Some outcome
    /\ forall removedIdx keptIdx, outcome = Some (removedIdx, keptIdx) ->
         exists g : Z -> bool,
           removedIdx = List.filter g block
           /\ keptIdx = List.filter (fun k => negb (g k)) block)
    by (exists None; split; [reflexivity | discriminate]).
  destruct (len block =? len seq).
  - destruct (domainsAt_total block Hblock) as [domains ->]. cbn [mbind option_bind].
    destruct (slicesEqual_total domains seq) as [[|] ->]; cbn [mbind option_bind];
      [|exact Hnone].
    destruct (passwordsAt_total block Hblock) as [found ->]. cbn [mbind option_bind].
    destruct (allEqual found); [|exact Hnone].
    eexists. split; [reflexivity|]. intros removedIdx keptIdx [= <- <-].
    exists (fun _ => true). split.
    + clear. induction block as [|k block IH]; [reflexivity|]. simpl. now f_equal.
    + clear. induction block as [|k block IH]; [reflexivity|]. exact IH.
  - destruct (len block =? wrap64 (len seq + 1)); [|exact Hnone].
    rewrite (suspiciousAt_filter seq block Hblock). cbn [mbind option_bind].
    fold P.
    assert (Hsub : List.Forall inRange (List.filter P block))
      by (now apply Forall_filter_keeps).
    destruct (len (List.filter P block) =? len seq); [|exact Hnone].
    destruct (domainsAt_total _ Hsub) as [domains ->]. cbn [mbind option_bind].
    destruct (slicesEqual_total domains seq) as [[|] ->]; cbn [mbind option_bind];
      [|exact Hnone].
    destruct (passwordsAt_total _ Hsub) as [found ->]. cbn [mbind option_bind].
    destruct (allEqual found); [|exact Hnone].
    eexists. split; [reflexivity|]. intros removedIdx keptIdx [= <- <-].
    exists (containsInt (List.filter P block)). split; [|reflexivity].
    apply filter_ext_in. intros k Hk.
    destruct (containsInt (List.filter P block) k) eqn:Hc.
    + apply containsInt_In, filter_In in Hc. now destruct Hc.
    + destruct (P k) eqn:HP; [|reflexivity].
      assert (containsInt (List.filter P block) k = true) as Ht
        by (apply containsInt_In, filter_In; now split).
      congruence.
Qed.

Lemma firstMatch_partition (block : list Z) (sequences : list (list string)) :
  List.Forall inRange block ->
  exists g : Z -> bool,
    firstMatch usernames passwords block sequences = Some None
    \/ firstMatch usernames passwords block sequences
       = Some (Some (List.filter g block,
                     List.filter (fun k => negb (g k)) block)).
Proof.
  intros Hblock. induction sequences as [|seq rest IH]; simpl.
  - exists (fun _ => false). now left.
  - destruct (matchSequence_partition block seq Hblock)
      as ([[removedIdx keptIdx]|] & -> & Hparts); [|exact IH].
    destruct (Hparts _ _ eq_refl) as (g & -> & ->). exists g. now right.
Qed.

Lemma recordAt_spec : forall (indices : list Z) (acc : Removal),
  List.Forall inRange indices ->
  recordAt usernames passwords indices acc
  = Some (mkRemoval (keptUsernames acc) (keptPasswords acc)
            (removedEntries acc
             ++ map (fun k => credentialLine
                                (credentialAt usernames passwords k).1
                                (credentialAt usernames passwords k).2)
                    indices)).
Proof.
  induction indices as [|k indices IH]; intros acc Hin; simpl.
  - rewrite app_nil_r. now destruct acc.
  - inversion Hin as [|? ? Hk Hrest]; subst.
    rewrite (elemAt_in_range usernames _ ""%string) by exact Hk.
    rewrite (elemAt_in_range passwords _ ""%string)
      by (unfold inRange, len in *; rewrite <- Hsame; exact Hk).
    rewrite IH by exact Hrest. simpl. now rewrite <- app_assoc.
Qed.

Lemma keepAt_spec : forall (indices : list Z) (acc : Removal),
  List.Forall inRange indices ->
  keepAt usernames passwords indices acc
  = Some (mkRemoval
            (keptUsernames acc
             ++ map (fun k => (credentialAt usernames passwords k).1) indices)
            (keptPasswords acc
             ++ map (fun k => (credentialAt usernames passwords k).2) indices)
            (removedEntries acc)).
Proof.
  induction indices as [|k indices IH]; intros acc Hin; simpl.
  - rewrite !app_nil_r. now destruct acc.
  - inversion Hin as [|? ? Hk Hrest]; subst.
    rewrite (elemAt_in_range usernames _ ""%string) by exact Hk.
    rewrite (elemAt_in_range passwords _ ""%string)
      by (unfold inRange, len in *; rewrite <- Hsame; exact Hk).
    rewrite IH by exact Hrest. simpl. now rewrite <- !app_assoc.
Qed.

End InRange.

End BlockFacts.

Section EmailLoopFacts.

Lemma filter_halves_Permutation {A} (g : A -> bool) (l : list A) :
  Permutation (List.filter (fun k => negb (g k)) l ++ List.filter g l) l.
Proof.
  induction l as [|x l IH]; [constructor|].
  simpl. destruct (g x); simpl.
  - symmetry. apply Permutation_cons_app. now symmetry.
  - now constructor.
Qed.

Lemma filter_sublist {A} (f : A -> bool) (l : list A) :
  sublist (List.filter f l) l.
Proof.
  induction l as [|x l IH]; [constructor|].
  simpl. destruct (f x); [now apply sublist_skip | now apply sublist_cons].
Qed.

Lemma sublist_map {A B} (f : A -> B) (l1 l2 : list A) :
  sublist l1 l2 -> sublist (map f l1) (map f l2).
Proof.
  induction 1; simpl; [constructor | now apply sublist_skip | now apply sublist_cons].
Qed.

Lemma credentialAt_shift (u p : string) (usernames passwords : list string) :
  forall m j, 0 <= j ->
    map (credentialAt (u :: usernames) (p :: passwords)) (indicesFrom (j + 1) m)
    = map (credentialAt usernames passwords) (indicesFrom j m).
Proof.
  induction m as [|m IH]; intros j Hj; [reflexivity|].
  simpl. rewrite IH by lia. f_equal. unfold credentialAt.
  replace (Z.to_nat (j + 1)) with (S (Z.to_nat j)) by lia. reflexivity.
Qed.

Lemma credentialAt_all : forall (usernames passwords : list string),
  length usernames = length passwords ->
  map (credentialAt usernames passwords) (indicesFrom 0 (length usernames))
  = combine usernames passwords.
Proof.
  induction usernames as [|u usernames IH]; intros [|p passwords] Hlen;
    simpl in *; try discriminate; [reflexivity|].
  rewrite (credentialAt_shift u p usernames passwords _ 0) by lia.
  rewrite IH by lia. reflexivity.
Qed.

Variables usernames passwords : list string.
Hypothesis Hsame : length usernames = length passwords.
Hypothesis Hmax : len usernames <= max_int.

Lemma emailsFrom_spec : forall (fuel : nat) (i : Z) (acc : Removal),
  0 <= i <= len usernames ->
  (Z.to_nat (len usernames - i) <= fuel)%nat ->
  exists keptIdx goneIdx,
    emailsFrom fuel usernames passwords i acc
    = Some (mkRemoval
              (keptUsernames acc
               ++ map (fun k => (credentialAt usernames passwords k).1) keptIdx)
              (keptPasswords acc
               ++ map (fun k => (credentialAt usernames passwords k).2) keptIdx)
              (removedEntries acc
               ++ map (fun k => credentialLine
                                  (credentialAt usernames passwords k).1
                                  (credentialAt usernames passwords k).2)
                      goneIdx))
    /\ Permutation (keptIdx ++ goneIdx)
                   (indicesFrom i (Z.to_nat (len usernames - i)))
    /\ sublist keptIdx (indicesFrom i (Z.to_nat (len usernames - i)))
    /\ sublist goneIdx (indicesFrom i (Z.to_nat (len usernames - i))).
Proof.
  assert (Hdone : forall fuel i acc, len usernames <= i -> 0 <= i <= len usernames ->
    exists keptIdx goneIdx,
      emailsFrom fuel usernames passwords i acc
      = Some (mkRemoval
                (keptUsernames acc
                 ++ map (fun k => (credentialAt usernames passwords k).1) keptIdx)
                (keptPasswords acc
                 ++ map (fun k => (credentialAt usernames passwords k).2) keptIdx)
                (removedEntries acc
                 ++ map (fun k => credentialLine
                                    (credentialAt usernames passwords k).1
                                    (credentialAt usernames passwords k).2)
                        goneIdx))
      /\ Permutation (keptIdx ++ goneIdx)
                     (indicesFrom i (Z.to_nat (len usernames - i)))
      /\ sublist keptIdx (indicesFrom i (Z.to_nat (len usernames - i)))
      /\ sublist goneIdx (indicesFrom i (Z.to_nat (len usernames - i)))).
  { intros fuel i acc Hge Hi. exists [], [].
    replace (Z.to_nat (len usernames - i)) with 0%nat by lia.
    split; [|split; [constructor | split; constructor]].
    destruct fuel; cbn [emailsFrom];
      (destruct (Z.ltb_spec i (len usernames)) as [Hlt|_]; [lia|]);
      cbn [map]; rewrite !app_nil_r; now destruct acc. }
  induction fuel as [|fuel IH]; intros i acc Hi Hfuel.
  - apply Hdone; [lia | exact Hi].
  - destruct (Z.lt_ge_cases i (len usernames)) as [Hlt|Hge];
      [|apply Hdone; [lia | exact Hi]].
    cbn [emailsFrom].
    destruct (Z.ltb_spec i (len usernames)) as [_|Hge]; [|lia].
    rewrite (elemAt_in_range _ _ ""%string) by lia. cbn [mbind option_bind].
    destruct (groupBlock_first usernames i ltac:(lia) Hmax)
      as (m & Hm1 & Hmn & ->).
    cbn [mbind option_bind fst snd].
    set (block := indicesFrom i m).
    assert (Hblock : List.Forall (fun k => 0 <= k < len usernames) block).
    { eapply List.Forall_impl; [|apply indicesFrom_range].
      simpl. intros k Hk. lia. }
    replace (Z.to_nat (len usernames - i))
      with (m + Z.to_nat (len usernames - (i + Z.of_nat m)))%nat by lia.
    rewrite indicesFrom_app. fold block.
    destruct (firstMatch_partition usernames passwords Hsame block
                suspiciousSequences Hblock) as (g & [-> | ->]);
      cbn [mbind option_bind].
    + rewrite (keepAt_spec usernames passwords Hsame) by exact Hblock.
      cbn [mbind option_bind].
      destruct (IH (i + Z.of_nat m)
                  (mkRemoval
                     (keptUsernames acc
                      ++ map (fun k => (credentialAt usernames passwords k).1) block)
                     (keptPasswords acc
                      ++ map (fun k => (credentialAt usernames passwords k).2) block)
                     (removedEntries acc)))
        as (K2 & G2 & Hrun & Hperm & HsK & HsG); [lia | lia |].
      exists (block ++ K2), G2. rewrite Hrun.
      cbn [keptUsernames keptPasswords removedEntries].
      rewrite !map_app, <- !app_assoc.
      split; [reflexivity|]. split; [now apply Permutation_app_head|].
      split; [now apply sublist_app | now apply sublist_inserts_l].
    + rewrite (recordAt_spec usernames passwords Hsame)
        by (now apply Forall_filter_keeps).
      cbn [mbind option_bind].
      rewrite (keepAt_spec usernames passwords Hsame)
        by (now apply Forall_filter_keeps).
      cbn [mbind option_bind keptUsernames keptPasswords removedEntries].
      destruct (IH (i + Z.of_nat m)
                  (mkRemoval
                     (keptUsernames acc
                      ++ map (fun k => (credentialAt usernames passwords k).1)
                             (List.filter (fun k => negb (g k)) block))
                     (keptPasswords acc
                      ++ map (fun k => (credentialAt usernames passwords k).2)
                             (List.filter (fun k => negb (g k)) block))
                     (removedEntries acc
                      ++ map (fun k => credentialLine
                                         (credentialAt usernames passwords k).1
                                         (credentialAt usernames passwords k).2)
                             (List.filter g block))))
        as (K2 & G2 & Hrun & Hperm & HsK & HsG); [lia | lia |].
      exists (List.filter (fun k => negb (g k)) block ++ K2),
             (List.filter g block ++ G2). rewrite Hrun.
      cbn [keptUsernames keptPasswords removedEntries].
      rewrite !map_app, <- !app_assoc.
      split; [reflexivity|]. split.
      * etransitivity;
          [|apply Permutation_app;
              [apply (filter_halves_Permutation g) | exact Hperm]].
        rewrite <- !app_assoc. apply Permutation_app_head.
        rewrite !app_assoc. apply Permutation_app_tail, Permutation_app_comm.
      * split; apply sublist_app; try assumption; apply filter_sublist.
Qed.

End EmailLoopFacts.

(** X30: [removeSuspiciousEmails] on paired credentials returns, and loses
    no credential: the credentials it keeps together with those it records
    as removed are the credentials it was given, each as many times as it
    occurs, and both the kept and the removed ones are in the order of the
    input. *)
Theorem removeSuspiciousEmails_conserves (usernames passwords removed : list string) :
  length usernames = length passwords ->
  len usernames <= max_int ->
  exists result gone,
    removeSuspiciousEmails usernames passwords removed = Some result
    /\ length (keptUsernames result) = length (keptPasswords result)
    /\ removedEntries result
       = removed ++ map (fun c => credentialLine c.1 c.2) gone
    /\ Permutation (combine (keptUsernames result) (keptPasswords result) ++ gone)
                   (credentials usernames passwords)
    /\ sublist (combine (keptUsernames result) (keptPasswords result))
               (credentials usernames passwords)
    /\ sublist gone (credentials usernames passwords).
Proof.
  intros Hsame Hmax. unfold removeSuspiciousEmails, credentials.
  destruct (emailsFrom_spec usernames passwords Hsame Hmax
              (length usernames) 0 (mkRemoval [] [] removed))
    as (keptIdx & goneIdx & Hrun & Hperm & HsK & HsG);
    [pose proof (len_nonneg usernames); lia | unfold len; lia |].
  rewrite Z.sub_0_r in Hperm, HsK, HsG. unfold len in Hperm, HsK, HsG.
  rewrite Nat2Z.id in Hperm, HsK, HsG.
  rewrite <- (credentialAt_all usernames passwords Hsame).
  eexists. exists (map (credentialAt usernames passwords) goneIdx).
  split; [exact Hrun|]. cbn [keptUsernames keptPasswords removedEntries app].
  assert (Hpairs : combine (map (fun k => (credentialAt usernames passwords k).1) keptIdx)
                     (map (fun k => (credentialAt usernames passwords k).2) keptIdx)
                   = map (credentialAt usernames passwords) keptIdx).
  { clear. induction keptIdx as [|k l IH]; [reflexivity|].
    cbn [map combine]. rewrite IH.
    now destruct (credentialAt usernames passwords k). }
  rewrite Hpairs.
  split; [now rewrite !length_map|].
  split; [now rewrite map_map|].
  split; [rewrite <- map_app; now apply Permutation_map|].
  split; now apply sublist_map.
Qed.

Lemma removeSuspiciousEmails_conserves_witness :
  exists result gone,
    removeSuspiciousEmails
      ["a@epost.de"; "a@gmx.de"; "a@hotmail.de"; "a@lycos.de"; "a@web.de";
       "a@yahoo.de"; "b@x.com"]%string
      ["p"; "p"; "zz"; "p"; "p"; "p"; "q"]%string [] = Some result
    /\ combine (keptUsernames result) (keptPasswords result)
       = [("a@hotmail.de", "zz"); ("b@x.com", "q")]%string
    /\ removedEntries result = map (fun c => credentialLine c.1 c.2) gone
    /\ Permutation
         (combine (keptUsernames result) (keptPasswords result) ++ gone)
         (credentials
            ["a@epost.de"; "a@gmx.de"; "a@hotmail.de"; "a@lycos.de"; "a@web.de";
             "a@yahoo.de"; "b@x.com"]%string
            ["p"; "p"; "zz"; "p"; "p"; "p"; "q"]%string).
Proof.
  destruct (removeSuspiciousEmails_conserves
              ["a@epost.de"; "a@gmx.de"; "a@hotmail.de"; "a@lycos.de"; "a@web.de";
               "a@yahoo.de"; "b@x.com"]%string
              ["p"; "p"; "zz"; "p"; "p"; "p"; "q"]%string [])
    as (result & gone & Hrun & _ & Hgone & Hperm & _);
    [reflexivity | vm_compute; discriminate |].
  exists result, gone. split; [exact Hrun|].
  split; [|split; [exact Hgone | exact Hperm]].
  vm_compute in Hrun. injection Hrun as <-. reflexivity.
Defined.
